(** * ohm: occupancy map ray integration, clearing patterns and line queries

    A shallow embedding of the parts of the ohm occupancy-map library that the
    specification talks about, with the properties proved about them.

    Conventions
    - [unsigned] flag words are [N] with [N.land]/[N.lor];
    - [glm::i16vec3] is a triple of [Z];
    - [glm::dvec3] coordinates are exact rationals ([Q]); rounding of the C++
      [double]/[float] arithmetic is not modelled;
    - an iterator into a standard container is the position (a [nat]) in the
      container's iteration order, [end()] being the length. *)

From Stdlib Require Import ZArith NArith QArith Qround Qabs Qminmax Qpower Lia Lqa Bool List.
From Stdlib Require Import Ascii.
From Stdlib Require DecimalString.
From stdpp Require Import base decidable option list gmap strings.

Local Open Scope Z_scope.

(** ** Basic vector types *)

Abbreviation i16vec3 := (Z * Z * Z)%type (only parsing).
Abbreviation u8vec3 := (Z * Z * Z)%type (only parsing).

(** ** GpuMapDetail::findRegion (ohm/private/GpuMapDetail.h) *)

Module GpuMapDetail.

(** [std::unordered_multimap<unsigned, glm::i16vec3>], as the sequence of
    its entries in iteration order. *)
Abbreviation RegionKeyMap := (list (N * i16vec3)) (only parsing).

(** The C++ standard guarantees that entries with equivalent keys are
    adjacent in the iteration order of an unordered multimap. *)
Definition grouped (regions : RegionKeyMap) : Prop :=
  ∀ i j k hi kj hk,
    (i ≤ j)%nat → (j ≤ k)%nat →
    regions !! i = Some hi → regions !! j = Some kj → regions !! k = Some hk →
    hi.1 = hk.1 → kj.1 = hi.1.

(** [regions.end()] *)
Definition end_ (regions : RegionKeyMap) : nat := length regions.

(** [regions.find(region_hash)]: the first entry of the group of
    [region_hash], or [end()]. *)
Fixpoint find_from (regions : RegionKeyMap) (region_hash : N) (pos : nat) : nat :=
  match regions with
  | [] => pos
  | (h, _) :: rest =>
      if bool_decide (h = region_hash) then pos
      else find_from rest region_hash (S pos)
  end.

Definition find (regions : RegionKeyMap) (region_hash : N) : nat :=
  find_from regions region_hash 0.

(** The [while] loop of [findRegion]; every iteration advances the
    iterator, so [length regions] iterations always suffice. *)
Fixpoint advance (fuel : nat) (regions : RegionKeyMap) (region_hash : N)
    (region_key : i16vec3) (iter : nat) : nat :=
  match fuel with
  | O => iter
  | S fuel' =>
      match regions !! iter with
      | Some (h, k) =>
          if bool_decide (h = region_hash) && negb (bool_decide (k = region_key))
          then advance fuel' regions region_hash region_key (S iter)
          else iter
      | None => iter
      end
  end.

Definition findRegion (regions : RegionKeyMap) (region_hash : N)
    (region_key : i16vec3) : nat :=
  let iter := advance (length regions) regions region_hash region_key
                (find regions region_hash) in
  match regions !! iter with
  | Some (h, k) =>
      if bool_decide (h = region_hash) && bool_decide (k = region_key)
      then iter
      else end_ regions
  | None => end_ regions
  end.

End GpuMapDetail.

(** ** Ray flags *)

(** Modelled from the spec: ohm/RayFlag.h is not among the sources.  The ray
    flags are a bit set in an [unsigned] word; each flag is a single bit of
    its own.  Nothing below depends on which bit a flag occupies. *)
Definition kRfDefault : N := 0.
Definition kRfEndPointAsFree : N := 1.
Definition kRfStopOnFirstOccupied : N := 2.
Definition kRfClearOnly : N := 4.
Definition kRfExcludeOrigin : N := 8.
Definition kRfExcludeSample : N := 16.
Definition kRfExcludeUnobserved : N := 32.

(** The C++ test [flags & f] used as a condition. *)
Definition has_flag (flags f : N) : bool := negb (N.land flags f =? 0)%N.

(** ** Map parameters (ohm/private/OccupancyMapDetail.h) *)

(** [glm::dvec3], with exact rational coordinates. *)
Abbreviation dvec3 := (Q * Q * Q)%type (only parsing).

(** Modelled from the spec: ohm/private/OccupancyMapDetail.h is not among
    the sources.  The fields of [OccupancyMapDetail] that the code reads,
    values in log-odds. *)
Record OccupancyMapDetail := {
  region_voxel_dimensions : u8vec3;
  resolution : Q;
  origin : dvec3;
  hit_value : Q;
  miss_value : Q;
  min_voxel_value : Q;
  max_voxel_value : Q;
  occupancy_threshold_value : Q;
}.

(** ** GpuNdtMap::finaliseBatch (ohmgpu/GpuNdtMap.cpp) *)

Module GpuNdtMap.

(** A kernel invocation with the arguments that are plain values; the
    device buffers it is given are fixed per buffer index. *)
Inductive Kernel :=
| regionRayUpdateNdt (region_count ray_count : N) (region_dim : Z * Z * Z)
    (resolution miss_value hit_value occupancy_threshold_value
     min_voxel_value max_voxel_value : Q) (flags : N) (sensor_noise : Q)
| ndtHit (region_count ray_count : N) (region_dim : Z * Z * Z)
    (resolution hit_value occupancy_threshold_value max_voxel_value : Q)
    (sensor_noise : Q).

(** [gputil::Event]: the completion of the n-th kernel put on the queue;
    upload events are completions of transfers, not of kernels. *)
Inductive Event :=
| KeyUpload (buf_idx : nat)
| RayUpload (buf_idx : nat)
| RegionKeyUpload (buf_idx : nat)
| OffsetUpload (buf_idx info : nat)
| VoxelUpload (buf_idx info : nat)
| KernelEvent (n : nat).

Record Launch := {
  buf_idx_of : nat;
  kernel : Kernel;
  wait_for : list Event;
}.

(** [GpuNdtMapDetail], the members [finaliseBatch] touches.  The arrays of
    [kBuffersCount = 2] entries are lists indexed by the buffer index. *)
Record GpuNdtMapDetail := {
  map : OccupancyMapDetail;
  sensor_noise_of : Q;
  (** [voxel_upload_info[i].size()], the same for both buffers *)
  voxel_upload_info_size : nat;
  next_buffers_index : nat;
  region_counts : list N;
  ray_counts : list N;
  region_update_events : list Event;
  batch_marker : N;
  (** kernels enqueued on [gpu_cache.gpuQueue()], oldest first *)
  gpu_queue : list Launch;
}.

Definition is_ndtHit (l : Launch) : bool :=
  match kernel l with ndtHit _ _ _ _ _ _ _ _ => true | _ => false end.

Section FinaliseBatch.
(** [GpuLayerCache::beginBatch()] of the occupancy layer cache: the next
    batch marker (the cache is not among the sources). *)
Variable beginBatch : N → N.

Definition finaliseBatch (imp : GpuNdtMapDetail) (region_update_flags : N)
    : GpuNdtMapDetail :=
  (* waitOnPreviousOperation(1 - buf_idx) and the layer caches' updateEvents
     only synchronise: they change none of the members below *)
  let buf_idx := next_buffers_index imp in
  let m := map imp in
  let region_dim_gpu := region_voxel_dimensions m in
  let region_count := default 0%N (region_counts imp !! buf_idx) in
  let ray_count := default 0%N (ray_counts imp !! buf_idx) in
  let wait :=
    [KeyUpload buf_idx; RayUpload buf_idx; RegionKeyUpload buf_idx] ++
    flat_map (λ i, [OffsetUpload buf_idx i; VoxelUpload buf_idx i])
      (seq 0 (voxel_upload_info_size imp)) in
  let modify_flags :=
    if negb (has_flag region_update_flags kRfEndPointAsFree)
    then kRfExcludeSample else 0%N in
  let miss_event := KernelEvent (length (gpu_queue imp)) in
  let queue1 := gpu_queue imp ++
    [ {| buf_idx_of := buf_idx;
         kernel := regionRayUpdateNdt region_count ray_count region_dim_gpu
                     (resolution m) (miss_value m) (hit_value m)
                     (occupancy_threshold_value m)
                     (min_voxel_value m) (max_voxel_value m)
                     (N.lor region_update_flags modify_flags)
                     (sensor_noise_of imp);
         wait_for := wait |} ] in
  let '(queue2, update_event) :=
    if negb (has_flag region_update_flags
               (N.lor kRfExcludeSample kRfEndPointAsFree))
    then (queue1 ++
          [ {| buf_idx_of := buf_idx;
               kernel := ndtHit region_count ray_count region_dim_gpu
                           (resolution m) (hit_value m)
                           (occupancy_threshold_value m)
                           (max_voxel_value m) (sensor_noise_of imp);
               wait_for := [miss_event] |} ],
          KernelEvent (length queue1))
    else (queue1, miss_event) in
  {| map := m;
     sensor_noise_of := sensor_noise_of imp;
     voxel_upload_info_size := voxel_upload_info_size imp;
     next_buffers_index := 1 - next_buffers_index imp;
     region_counts := <[buf_idx := 0%N]> (region_counts imp);
     ray_counts := ray_counts imp;
     region_update_events := <[buf_idx := update_event]> (region_update_events imp);
     batch_marker := beginBatch (batch_marker imp);
     gpu_queue := queue2 |}.

(** The kernels a call adds to the queue. *)
Definition enqueued (imp : GpuNdtMapDetail) (flags : N) : list Launch :=
  drop (length (gpu_queue imp)) (gpu_queue (finaliseBatch imp flags)).

End FinaliseBatch.

End GpuNdtMap.

(** ** Vectors, quaternions *)

Inductive Axis := AxisX | AxisY | AxisZ.

Definition axis_get {A} (a : Axis) (v : A * A * A) : A :=
  match a, v with
  | AxisX, (x, _, _) => x
  | AxisY, (_, y, _) => y
  | AxisZ, (_, _, z) => z
  end.

Definition axis_set {A} (a : Axis) (n : A) (v : A * A * A) : A * A * A :=
  match a, v with
  | AxisX, (_, y, z) => (n, y, z)
  | AxisY, (x, _, z) => (x, n, z)
  | AxisZ, (x, y, _) => (x, y, n)
  end.

Definition vec3_map {A B} (f : A → B) (v : A * A * A) : B * B * B :=
  let '(x, y, z) := v in (f x, f y, f z).

Definition vec3_zip {A B C} (f : A → B → C) (u : A * A * A) (v : B * B * B)
    : C * C * C :=
  let '(a, b, c) := u in let '(x, y, z) := v in (f a x, f b y, f c z).

Definition vadd : dvec3 → dvec3 → dvec3 := vec3_zip Qplus.
Definition vsub : dvec3 → dvec3 → dvec3 := vec3_zip Qminus.
Definition vscale (s : Q) : dvec3 → dvec3 := vec3_map (Qmult s).

Definition cross (u v : dvec3) : dvec3 :=
  let '(a, b, c) := u in let '(x, y, z) := v in
  (b * z - c * y, c * x - a * z, a * y - b * x)%Q.

(** Coordinates are compared as rationals. *)
Definition veq (u v : dvec3) : Prop :=
  let '(a, b, c) := u in let '(x, y, z) := v in (a == x ∧ b == y ∧ c == z)%Q.

(** [glm::dquat] *)
Record dquat := { qw : Q; qx : Q; qy : Q; qz : Q }.

Definition quat_identity : dquat := {| qw := 1; qx := 0; qy := 0; qz := 0 |}.

(** [rotation * v] as glm computes it:
    [v + 2 (w (q × v) + q × (q × v))] with [q = (x, y, z)]. *)
Definition rotate (q : dquat) (v : dvec3) : dvec3 :=
  let qv := (qx q, qy q, qz q) in
  let uv := cross qv v in
  let uuv := cross qv uv in
  vadd v (vscale 2 (vadd (vscale (qw q) uv) uuv)).

(** ** Keys (spec 3, 4.1) *)

(** Modelled from the spec: ohm/Key.h is not among the sources.  A voxel
    address: region coordinate ([i16] per axis) and local coordinate inside
    the region ([u8] per axis). *)
Record Key := { regionKey : i16vec3; localKey : u8vec3 }.

Global Instance Key_eq_dec : EqDecision Key.
Proof. solve_decision. Defined.

(** Two's complement conversion to a 16 bit signed integer. *)
Definition to_i16 (z : Z) : Z := (z + 32768) mod 65536 - 32768.

Definition in_i16 (z : Z) : Prop := -32768 ≤ z < 32768.

(** Modelled from the spec: the key invariant of the data model,
    [local[i] < region_voxel_dim[i]], region coordinates in [i16]. *)
Definition valid_axis (dim region local : Z) : Prop :=
  in_i16 region ∧ 0 ≤ local < dim.

Definition valid_key (dim : u8vec3) (k : Key) : Prop :=
  ∀ a, valid_axis (axis_get a dim) (axis_get a (regionKey k)) (axis_get a (localKey k)).

Section KeyArithmetic.
Variable m : OccupancyMapDetail.

(** Modelled from the spec: [OccupancyMap::voxelKey] is not among the
    sources.  The enclosing voxel of a point, by floor semantics (cells are
    half open on the + side), relative to the map origin; the voxel index
    along an axis splits into region and local coordinate. *)
Definition voxelIndex1 (a : Axis) (p : dvec3) : Z :=
  Qfloor ((axis_get a p - axis_get a (origin m)) / resolution m).

Definition voxelIndex (p : dvec3) : Z * Z * Z :=
  (voxelIndex1 AxisX p, voxelIndex1 AxisY p, voxelIndex1 AxisZ p).

(** Modelled from the spec: the key of a voxel index, region coordinate by
    floor division, local coordinate the remainder. *)
Definition keyOfIndex (idx : Z * Z * Z) : Key :=
  let dim := region_voxel_dimensions m in
  {| regionKey := vec3_zip (λ i d, to_i16 (i / d)) idx dim;
     localKey := vec3_zip Z.modulo idx dim |}.

(** Modelled from the spec: [voxelKey], the key of the voxel enclosing a
    point. *)
Definition voxelKey (p : dvec3) : Key := keyOfIndex (voxelIndex p).

(** Modelled from the spec: the voxel index of a key along each axis. *)
Definition indexOfKey (k : Key) : Z * Z * Z :=
  vec3_zip Z.add (vec3_zip Z.mul (regionKey k) (region_voxel_dimensions m))
    (localKey k).

(** Modelled from the spec: [OccupancyMap::voxelCentre] is not among the
    sources.  The centre of the voxel of a key. *)
Definition voxelCentre (k : Key) : dvec3 :=
  vec3_zip (λ o i, o + (inject_Z i + (1 # 2)) * resolution m)%Q
    (origin m) (indexOfKey k).

(** A point is inside the representable range when the region coordinate of
    its voxel fits [i16] on every axis. *)
Definition representable (p : dvec3) : Prop :=
  ∀ a, 0 < axis_get a (region_voxel_dimensions m) ∧
       in_i16 (voxelIndex1 a p / axis_get a (region_voxel_dimensions m)).

(** Modelled from the spec: [regionOrigin], the minimum corner of a region. *)
Definition regionOrigin (region : i16vec3) : dvec3 :=
  vec3_zip (λ o i, o + inject_Z i * resolution m)%Q (origin m)
    (vec3_zip Z.mul region (region_voxel_dimensions m)).

(** *** LineWalker (spec 4.4) *)

(** Modelled from the spec: the line walker is not among the sources.  What
    follows, up to [calculateSegmentKeys], is the three dimensional digital
    differential analyser of spec 4.4 in exact arithmetic. *)

(** Modelled from the spec: comparison of ray parameters, [None] standing
    for "never" (no motion on the axis). *)
Definition t_le (a b : option Q) : bool :=
  match a, b with
  | Some x, Some y => Qle_bool x y
  | Some _, None => true
  | None, Some _ => false
  | None, None => true
  end.

(** Modelled from the spec: the step direction along an axis. *)
Definition sign (d : Q) : Z := Z.sgn (Qnum d).

(** Modelled from the spec: the parameter at which the ray leaves the voxel
    [idx] along an axis. *)
Definition t_max1 (a : Axis) (start dir : dvec3) (idx : Z * Z * Z) : option Q :=
  let d := axis_get a dir in
  let lo := (axis_get a (origin m) + inject_Z (axis_get a idx) * resolution m)%Q in
  match sign d with
  | Z0 => None
  | Zpos _ => Some (Qred ((lo + resolution m - axis_get a start) / d))
  | Zneg _ => Some (Qred ((lo - axis_get a start) / d))
  end.

(** Modelled from the spec: the parameter increase per voxel crossed along
    an axis. *)
Definition t_delta1 (a : Axis) (dir : dvec3) : option Q :=
  let d := axis_get a dir in
  match sign d with
  | Z0 => None
  | _ => Some (Qred (resolution m / Qabs d))
  end.

(** Modelled from the spec: the axis with the smallest [t_max], compared
    with <=; ties go to the earlier axis, x before y before z. *)
Definition next_axis (t_max : option Q * option Q * option Q) : Axis :=
  let '(tx, ty, tz) := t_max in
  if t_le tx ty && t_le tx tz then AxisX
  else if t_le ty tz then AxisY
  else AxisZ.

(** Modelled from the spec: [t_max] advanced by [t_delta]. *)
Definition t_add (a b : option Q) : option Q :=
  match a, b with
  | Some x, Some y => Some (Qred (x + y))
  | _, _ => None
  end.

(** Modelled from the spec: the axes the walk may still step along.  The
    walk has to end in the voxel of the end point, so an axis on which the
    current voxel has reached the index of the end voxel takes no further
    step: its [t_max] counts as "never". *)
Definition live (cur end_idx : Z * Z * Z) (t_max : option Q * option Q * option Q)
    : option Q * option Q * option Q :=
  let on a :=
    if decide (axis_get a cur = axis_get a end_idx) then None else axis_get a t_max in
  (on AxisX, on AxisY, on AxisZ).

(** Modelled from the spec: the walk proper, over voxel indices.  Emit the
    current voxel, stop at the voxel of the end point, otherwise step along
    the next axis.  A walk takes one step per voxel boundary between the two
    voxels ([walk_loop_path] below), so [fuel] set to that number is never
    used up. *)
Fixpoint walk_loop (fuel : nat) (include_end_point : bool) (end_idx : Z * Z * Z)
    (step : Z * Z * Z) (t_delta : option Q * option Q * option Q)
    (cur : Z * Z * Z) (t_max : option Q * option Q * option Q)
    : list (Z * Z * Z) :=
  if decide (cur = end_idx) then
    if include_end_point then [cur] else []
  else
    cur ::
    match fuel with
    | O => []
    | S fuel' =>
        let a := next_axis (live cur end_idx t_max) in
        walk_loop fuel' include_end_point end_idx step t_delta
          (axis_set a (axis_get a cur + axis_get a step) cur)
          (axis_set a (t_add (axis_get a t_max) (axis_get a t_delta)) t_max)
    end.

(** Modelled from the spec: the number of voxel boundaries between two
    voxel indices, the number of steps of a walk. *)
Definition manhattan (i j : Z * Z * Z) : nat :=
  let '(a, b, c) := i in let '(x, y, z) := j in
  Z.to_nat (Z.abs (x - a) + Z.abs (y - b) + Z.abs (z - c)).

(** Modelled from the spec: the voxel indices a segment passes through, in
    walk order. *)
Definition segment_indices (start end_ : dvec3) (include_end_point : bool)
    : list (Z * Z * Z) :=
  let dir := vsub end_ start in
  let i0 := voxelIndex start in
  let i1 := voxelIndex end_ in
  walk_loop (manhattan i0 i1) include_end_point i1
    (vec3_map sign dir)
    (t_delta1 AxisX dir, t_delta1 AxisY dir, t_delta1 AxisZ dir)
    i0
    (t_max1 AxisX start dir i0, t_max1 AxisY start dir i0, t_max1 AxisZ start dir i0).

(** Modelled from the spec: [OccupancyMap::calculateSegmentKeys] is not
    among the sources.  The keys of the voxels a segment passes through, in
    walk order from the voxel of [start] to the voxel of [end_], the last
    one left out unless [include_end_point]. *)
Definition calculateSegmentKeys (start end_ : dvec3) (include_end_point : bool)
    : list Key :=
  keyOfIndex <$> segment_indices start end_ include_end_point.

End KeyArithmetic.

(** The invariant of a walk: on every axis on which the current voxel has
    not reached the end voxel the step points towards it, and the axis has a
    [t_max] and a [t_delta]. *)
Definition towards (end_idx step : Z * Z * Z)
    (t_delta : option Q * option Q * option Q) (cur : Z * Z * Z)
    (t_max : option Q * option Q * option Q) : Prop :=
  ∀ a, axis_get a cur ≠ axis_get a end_idx →
       axis_get a step = Z.sgn (axis_get a end_idx - axis_get a cur) ∧
       is_Some (axis_get a t_max) ∧ is_Some (axis_get a t_delta).


(** ** Single precision values *)

(** [float] as the code uses it: a [double] (or the exact result of an
    operation on [float]s) is brought to the nearest [float], ties to the
    even significand.  A [float] has a significand of 24 bits and a binary
    exponent from -126 up (smaller values lose bits gradually); a value that
    lies beyond the largest [float] has no [float] to go to, and the
    conversion has no defined result. *)
Module Float32.

(** The binary exponent of a positive rational: the [e] with
    [2 ^ e <= x < 2 ^ (e + 1)]. *)
Definition ilog2 (x : Q) : Z :=
  let e := Z.log2 (Qnum x) - Z.log2 (Z.pos (Qden x)) in
  if Qle_bool (2 ^ e) x then e else e - 1.

(** The nearest integer, a tie going to the even one. *)
Definition round_even (x : Q) : Z :=
  let f := Qfloor x in
  let r := (x - inject_Z f)%Q in
  if Qle_bool (1 # 2) r
  then (if Qle_bool r (1 # 2) then (if Z.even f then f else f + 1) else f + 1)
  else f.

(** The distance between neighbouring [float]s at [x]. *)
Definition ulp (x : Q) : Q := (2 ^ (Z.max (ilog2 (Qabs x)) (-126) - 23))%Q.

(** The nearest value with a 24 bit significand. *)
Definition round (x : Q) : Q :=
  if Qeq_bool x 0 then 0%Q else (inject_Z (round_even (x / ulp x)) * ulp x)%Q.

(** [FLT_MAX], [(2 ^ 24 - 1) * 2 ^ 104]. *)
Definition FLT_MAX : Q := inject_Z ((2 ^ 24 - 1) * 2 ^ 104).

(** Conversion to [float]. *)
Definition narrow (x : Q) : option Q :=
  let r := Qred (round x) in
  if Qle_bool (Qabs r) FLT_MAX then Some r else None.

(** The values a [float] can hold: those the conversion leaves alone. *)
Definition is_float (x : Q) : Prop := narrow x = Some (Qred x).

(** [glm::vec3(v)] for a [glm::dvec3]. *)
Definition narrow3 (v : Q * Q * Q) : option (Q * Q * Q) :=
  let '(x, y, z) := v in
  match narrow x, narrow y, narrow z with
  | Some x', Some y', Some z' => Some (x', y', z')
  | _, _, _ => None
  end.

(** Arithmetic on [float]s: the exact result brought to [float]; a division
    by zero gives no finite value. *)
Definition sub (a b : Q) : option Q := narrow (a - b).
Definition mul (a b : Q) : option Q := narrow (a * b).
Definition div (a b : Q) : option Q :=
  if Qeq_bool b 0 then None else narrow (a / b).

End Float32.
(** ** OccupancyMap and ray integration (spec 3, 4.3, 4.5) *)

(** Modelled from the spec: ohm/MapChunk.h is not among the sources.  A
    region's storage, reduced to its occupancy layer: the voxels that hold a
    value, by local coordinate.  A voxel without an entry holds the default
    fill of the layer, the UNOBSERVED sentinel. *)
Record MapChunk := {
  chunk_region : i16vec3;
  occupancy : gmap (Z * Z * Z) Q;
}.

(** Modelled from the spec: ohm/OccupancyMap.h is not among the sources.
    The sparse region table with the map parameters. *)
Record OccupancyMap := {
  detail : OccupancyMapDetail;
  chunks : gmap (Z * Z * Z) MapChunk;
}.

Definition emptyMap (d : OccupancyMapDetail) : OccupancyMap :=
  {| detail := d; chunks := ∅ |}.

(** Modelled from the spec: the error kind of the integration interface
    (spec 7). *)
Inductive ErrorKind := InvalidArgument.

Definition Qltb (x y : Q) : bool := negb (Qle_bool y x).

(** Modelled from the spec: [clamp(x, min_value, max_value)]. *)
Definition clamp (x lo hi : Q) : Q :=
  if Qltb x lo then lo else if Qltb hi x then hi else x.

(** Modelled from the spec: the occupancy value of a voxel; [None] is
    UNOBSERVED.  An absent region yields an unobserved lookup. *)
Definition voxelValue (m : OccupancyMap) (k : Key) : option Q :=
  match chunks m !! regionKey k with
  | Some c => occupancy c !! localKey k
  | None => None
  end.

(** Modelled from the spec: writes allocate the chunk of the region when
    there is none. *)
Definition chunkFor (m : OccupancyMap) (region : i16vec3) : MapChunk :=
  default {| chunk_region := region; occupancy := ∅ |} (chunks m !! region).

(** Modelled from the spec: a write of one voxel's occupancy value. *)
Definition setVoxelValue (m : OccupancyMap) (k : Key) (v : Q) : OccupancyMap :=
  let c := chunkFor m (regionKey k) in
  {| detail := detail m;
     chunks := <[regionKey k :=
                  {| chunk_region := chunk_region c;
                     occupancy := <[localKey k := v]> (occupancy c) |}]>
                (chunks m) |}.

(** Modelled from the spec: occupied iff
    [value >= occupancy_threshold_value]. *)
Definition isOccupied (m : OccupancyMap) (k : Key) : bool :=
  match voxelValue m k with
  | Some v => Qle_bool (occupancy_threshold_value (detail m)) v
  | None => false
  end.

(** Modelled from the spec: the update rule of 4.5.  A miss sets
    [clamp(max(min_value, value) + miss_value, min_value, max_value)], the
    value counting as 0 if UNOBSERVED; with [kRfExcludeUnobserved] an
    unobserved voxel is left alone. *)
Definition integrateMiss (flags : N) (k : Key) (m : OccupancyMap) : OccupancyMap :=
  let d := detail m in
  let update v :=
    setVoxelValue m k
      (clamp (Qmax (min_voxel_value d) v + miss_value d)
             (min_voxel_value d) (max_voxel_value d)) in
  match voxelValue m k with
  | Some v => update v
  | None => if has_flag flags kRfExcludeUnobserved then m else update 0%Q
  end.

(** Modelled from the spec: a hit adds [hit_value] with the same clamping. *)
Definition integrateHit (flags : N) (k : Key) (m : OccupancyMap) : OccupancyMap :=
  let d := detail m in
  let update v :=
    setVoxelValue m k
      (clamp (v + hit_value d) (min_voxel_value d) (max_voxel_value d)) in
  match voxelValue m k with
  | Some v => update v
  | None => if has_flag flags kRfExcludeUnobserved then m else update 0%Q
  end.

(** Modelled from the spec: the traversed (non end point) voxels of a ray,
    in walk order.  With [kRfExcludeOrigin] the first voxel is skipped; with
    [kRfStopOnFirstOccupied] the walk stops before updating a voxel that is
    already occupied.  The flag returned tells whether the walk was
    stopped. *)
Fixpoint integrateTraversed (flags : N) (at_origin : bool) (keys : list Key)
    (m : OccupancyMap) : OccupancyMap * bool :=
  match keys with
  | [] => (m, false)
  | k :: rest =>
      if at_origin && has_flag flags kRfExcludeOrigin
      then integrateTraversed flags false rest m
      else if has_flag flags kRfStopOnFirstOccupied && isOccupied m k
      then (m, true)
      else integrateTraversed flags false rest (integrateMiss flags k m)
  end.

(** Modelled from the spec: the end point voxel.  Nothing with
    [kRfExcludeSample]; a miss with [kRfEndPointAsFree] or [kRfClearOnly];
    otherwise a hit. *)
Definition integrateEndPoint (flags : N) (k : Key) (m : OccupancyMap)
    : OccupancyMap :=
  if has_flag flags kRfExcludeSample then m
  else if has_flag flags kRfStopOnFirstOccupied && isOccupied m k then m
  else if has_flag flags kRfEndPointAsFree || has_flag flags kRfClearOnly
  then integrateMiss flags k m
  else integrateHit flags k m.

(** Modelled from the spec: one ray.  The walked voxels short of the end
    point, then, unless the walk was stopped, the voxel of the end point. *)
Definition integrateRay (flags : N) (start end_ : dvec3) (m : OccupancyMap)
    : OccupancyMap :=
  let '(m1, stopped) :=
    integrateTraversed flags true
      (calculateSegmentKeys (detail m) start end_ false) m in
  if stopped then m1
  else integrateEndPoint flags (voxelKey (detail m) end_) m1.

(** Modelled from the spec: rays are processed in input order, one
    (origin, end point) pair after the other. *)
Fixpoint integratePairs (flags : N) (rays : list dvec3) (m : OccupancyMap)
    : OccupancyMap :=
  match rays with
  | start :: end_ :: rest => integratePairs flags rest (integrateRay flags start end_ m)
  | _ => m
  end.

(** Modelled from the spec: [OccupancyMap::integrateRays] is not among the
    sources.  [rays] is a flat array of [element_count] points; an odd count
    is an argument error and leaves the map as it is. *)
Definition integrateRays (m : OccupancyMap) (rays : list dvec3)
    (element_count : nat) (flags : N) : OccupancyMap * option ErrorKind :=
  if Nat.odd element_count then (m, Some InvalidArgument)
  else (integratePairs flags (take element_count rays) m, None).

(** A sequence of [integrateRays] calls, each with its rays and flags. *)
Definition integrateSequence (m : OccupancyMap) (calls : list (list dvec3 * N))
    : OccupancyMap :=
  foldl (λ m' call, (integrateRays m' call.1 (length call.1) call.2).1) m calls.

(** Every stored occupancy value is within the clamps (a voxel without a
    value is UNOBSERVED). *)
Definition clamped (m : OccupancyMap) : Prop :=
  ∀ k v, voxelValue m k = Some v →
    (min_voxel_value (detail m) <= v ∧ v <= max_voxel_value (detail m))%Q.

(** The same with the map parameters known to be [d]. *)
Definition clamped_with (d : OccupancyMapDetail) (m : OccupancyMap) : Prop :=
  detail m = d ∧ clamped m.

(** ** RayPattern (ohm/RayPattern.h) *)

Module RayPattern.

(** [RayPatternDetail]: the end points of the pattern, relative to a
    common origin. *)
Record RayPatternDetail := { points : list dvec3 }.

Definition empty : RayPatternDetail := {| points := [] |}.

Definition addPoints (imp : RayPatternDetail) (new_points : list dvec3)
    : RayPatternDetail :=
  {| points := points imp ++ new_points |}.

Definition addPoint (imp : RayPatternDetail) (point : dvec3) : RayPatternDetail :=
  addPoints imp [point].

Definition pointCount (imp : RayPatternDetail) : nat := length (points imp).

(** The end of the ray to a pattern point under a transform. *)
Definition ray_end (position : dvec3) (rotation : dquat) (scaling : Q)
    (point : dvec3) : dvec3 :=
  vadd position (vscale scaling (rotate rotation point)).

(** Modelled from the spec: the body of [RayPattern::buildRays] is not among
    the sources (RayPattern.h declares and documents it).  [rays] is cleared,
    then every pattern point contributes the pair ([position],
    [position + scaling (rotation * point)]); the number of elements added
    is returned with the new contents of [rays]. *)
Definition buildRays (imp : RayPatternDetail) (rays : list dvec3)
    (position : dvec3) (rotation : dquat) (scaling : Q) : list dvec3 * nat :=
  let cleared : list dvec3 := [] in
  let rays' :=
    foldl (λ out point, out ++ [position; ray_end position rotation scaling point])
          cleared (points imp) in
  (rays', length rays').

End RayPattern.

(** ** ClearingPattern (ohm/ClearingPattern.cpp) *)

Module ClearingPattern.

Record ClearingPatternDetail := {
  pattern : RayPattern.RayPatternDetail;
  has_pattern_ownership : bool;
  ray_set : list dvec3;
}.

(** [ClearingPattern::ClearingPattern(pattern, take_ownership)] *)
Definition create (pattern : RayPattern.RayPatternDetail) (take_ownership : bool)
    : ClearingPatternDetail :=
  {| pattern := pattern; has_pattern_ownership := take_ownership; ray_set := [] |}.

Definition hasPatternOwnership (imp : ClearingPatternDetail) : bool :=
  has_pattern_ownership imp.

Section Apply.
(** [RayPattern::buildRays] of the wrapped pattern: pattern, the [rays]
    vector it refills, position, rotation, scaling; the refilled vector and
    the number of elements added. *)
Variable buildRays :
  RayPattern.RayPatternDetail → list dvec3 → dvec3 → dquat → Q → list dvec3 * nat.
(** The map the pattern is applied to, through its [integrateRays]
    member: map before, ray array, element count, flags, map after. *)
Context {Map : Type}.
Variable integrateRays : Map → list dvec3 → nat → N → Map.

Definition apply (imp : ClearingPatternDetail) (map : Map)
    (position : dvec3) (rotation : dquat) (scaling : Q)
    : ClearingPatternDetail * Map :=
  let ray_set' := (buildRays (pattern imp) (ray_set imp) position rotation scaling).1 in
  ({| pattern := pattern imp;
      has_pattern_ownership := has_pattern_ownership imp;
      ray_set := ray_set' |},
   integrateRays map ray_set' (length ray_set')
     (N.lor (N.lor kRfEndPointAsFree kRfStopOnFirstOccupied) kRfClearOnly)).

(** [buildRaySet]: the ray set and its element count, for inspection. *)
Definition buildRaySet (imp : ClearingPatternDetail)
    (position : dvec3) (rotation : dquat) (scaling : Q)
    : ClearingPatternDetail * (list dvec3 * nat) :=
  let ray_set' := (buildRays (pattern imp) (ray_set imp) position rotation scaling).1 in
  ({| pattern := pattern imp;
      has_pattern_ownership := has_pattern_ownership imp;
      ray_set := ray_set' |},
   (ray_set', length ray_set')).
End Apply.

End ClearingPattern.

(** The set of flags named [kRfEndPointAsFree], [kRfStopOnFirstOccupied] and
    [kRfClearOnly]. *)
Definition clearing_flags : N :=
  N.lor (N.lor kRfEndPointAsFree kRfStopOnFirstOccupied) kRfClearOnly.

(** The map's [integrateRays] as [ClearingPattern::apply] calls it, the error
    report dropped. *)
Definition OccupancyMap_integrateRays (m : OccupancyMap) (rays : list dvec3)
    (element_count : nat) (flags : N) : OccupancyMap :=
  (integrateRays m rays element_count flags).1.

(** ** LineKeysQueryGpu (ohmgpu/LineKeysQueryGpu.cpp) *)

Module LineKeysQueryGpu.

(** Wrap-around of a 32 bit [unsigned]. *)
Definition u32 (z : Z) : Z := z mod 2 ^ 32.

(** [nextPow2]: "compute the next highest power of 2 of 32-bit v". *)
Definition nextPow2 (v : Z) : Z :=
  let v := u32 (v - 1) in
  let v := Z.lor v (Z.shiftr v 1) in
  let v := Z.lor v (Z.shiftr v 2) in
  let v := Z.lor v (Z.shiftr v 4) in
  let v := Z.lor v (Z.shiftr v 8) in
  let v := Z.lor v (Z.shiftr v 16) in
  u32 (v + 1).

(** [LineKeysQueryDetailGpu], the members the query code uses.  [map] is
    the map behind the [d->map] pointer; sizes and indices ([size_t]) are
    natural numbers.  The device buffer [linesOut] is a sequence of key sized
    slots ([GpuKey] and [Key] have one layout), [linePoints] a sequence of
    points. *)
Record LineKeysQueryDetailGpu := {
  map : OccupancyMap;
  query_flags : N;
  rays : list dvec3;
  intersected_voxels : list Key;
  resultIndices : list nat;
  resultCounts : list nat;
  number_of_results : nat;
  gpuOk : bool;
  inflight : bool;
  maxKeysPerLine : nat;
  linesOut : list Key;
  linePoints : list dvec3;
}.

(** [std::vector::resize(n)], new elements value initialised. *)
Definition resize (n : nat) (v : list nat) : list nat :=
  take n v ++ replicate (n - length v) 0%nat.

(** [gputil::Buffer::resize] to [n] elements. *)
Definition resize_buffer {A} (n : nat) (blank : A) (b : list A) : list A :=
  take n b ++ replicate (n - length b) blank.

Definition blank_slot : Key := {| regionKey := (0, 0, 0); localKey := (0, 0, 0) |}.

Definition with_results (d : LineKeysQueryDetailGpu)
    (indices counts : list nat) (voxels : list Key) (n : nat)
    : LineKeysQueryDetailGpu :=
  {| map := map d; query_flags := query_flags d; rays := rays d;
     intersected_voxels := voxels;
     resultIndices := indices; resultCounts := counts;
     number_of_results := n;
     gpuOk := gpuOk d; inflight := inflight d;
     maxKeysPerLine := maxKeysPerLine d;
     linesOut := linesOut d; linePoints := linePoints d |}.

Definition with_gpu (d : LineKeysQueryDetailGpu) (ok in_flight : bool)
    (max_keys : nat) (lines_out : list Key) (line_points : list dvec3)
    : LineKeysQueryDetailGpu :=
  {| map := map d; query_flags := query_flags d; rays := rays d;
     intersected_voxels := intersected_voxels d;
     resultIndices := resultIndices d; resultCounts := resultCounts d;
     number_of_results := number_of_results d;
     gpuOk := ok; inflight := in_flight;
     maxKeysPerLine := max_keys;
     linesOut := lines_out; linePoints := line_points |}.

(** [onReset]: clears the result arrays. *)
Definition onReset (d : LineKeysQueryDetailGpu) (hard_reset : bool)
    : LineKeysQueryDetailGpu :=
  with_results d [] [] (intersected_voxels d) (number_of_results d).

Section OnExecute.
(** [OccupancyMap::calculateSegmentKeys] (a [const] member, not among the
    sources): the keys of the voxels a segment passes through. *)
Variable calculateSegmentKeys : OccupancyMap → dvec3 → dvec3 → bool → list Key.
(** The query flag [kQfGpuEvaluate] (ohm/QueryFlag.h, not among the
    sources). *)
Variable kQfGpuEvaluate : N.
(** [LineKeysQuery::onExecute], the base class implementation. *)
Variable LineKeysQuery_onExecute :
  LineKeysQueryDetailGpu → LineKeysQueryDetailGpu * bool.
(** Whether a GPU device with the line keys program can be set up. *)
Variable gpu_available : bool.
(** The worst case number of keys of a line,
    [unsigned(ceil(length(end - start) / voxel_res * sqrt(3)) + 1)]:
    voxel resolution, start, end. *)
Variable line_key_bound : Q → dvec3 → dvec3 → nat.
(** The [calculateLines] kernel run to completion: the [linesOut] buffer
    before, [maxKeysPerLine], the uploaded points ([float3]), the number of
    lines, the region dimensions and the resolution as a [float]; the buffer
    after, or [None] when the invocation reports an error. *)
Variable calculateLines :
  list Key → nat → list dvec3 → nat → Z * Z * Z → Q → option (list Key).

Definition initialiseGpu (d : LineKeysQueryDetailGpu) : LineKeysQueryDetailGpu * bool :=
  if gpuOk d then (d, true)
  else if gpu_available
  then (with_gpu d true (inflight d) (maxKeysPerLine d) [blank_slot] [(0, 0, 0)%Q],
        true)
  else (d, false).

(** The loop that sizes the buffers; [rest] is what is left of the rays.
    Reading [rays[i + 1]] past the end has no defined result. *)
Fixpoint max_keys_loop (voxel_res : Q) (rest : list dvec3) (max_keys : nat)
    : option nat :=
  match rest with
  | [] => Some max_keys
  | [_] => None
  | start :: end_ :: rest' =>
      max_keys_loop voxel_res rest'
        (Nat.max (line_key_bound voxel_res start end_) max_keys)
  end.

(** The points as they are uploaded: each is taken relative to the map
    origin and narrowed to a [glm::vec3] of [float]s on the way
    ([point_f = query.rays[i] - query.map->origin()]). *)
Definition upload_points (d : LineKeysQueryDetailGpu) : option (list dvec3) :=
  mapM (λ p, Float32.narrow3 (vsub p (origin (detail (map d))))) (rays d).

(** [lineKeysQueryGpu]: size the buffers, upload the rays relative to the
    map origin as [float]s, run the kernel on them and on the resolution as
    a [float].  [None] when the loop that sizes the buffers or a narrowing
    to [float] has no defined result. *)
Definition lineKeysQueryGpu (d : LineKeysQueryDetailGpu)
    : option (LineKeysQueryDetailGpu * bool) :=
  let m := detail (map d) in
  match max_keys_loop (resolution m) (rays d) 1 with
  | None => None
  | Some max_keys =>
      let line_count := (length (rays d) / 2)%nat in
      let required_size := (line_count * max_keys)%nat in
      let lines_out :=
        if (length (linesOut d) <? required_size)%nat
        then resize_buffer required_size blank_slot (linesOut d)
        else linesOut d in
      let line_points :=
        if (length (linePoints d) <? length (rays d))%nat
        then resize_buffer (length (rays d)) (0, 0, 0)%Q (linePoints d)
        else linePoints d in
      match upload_points d, Float32.narrow (resolution m) with
      | Some uploaded, Some resolution_f =>
          let line_points := uploaded ++ drop (length uploaded) line_points in
          match calculateLines lines_out max_keys line_points line_count
                  (region_voxel_dimensions m) resolution_f with
          | None =>
              Some (with_gpu d (gpuOk d) (inflight d) max_keys lines_out line_points,
                    false)
          | Some lines =>
              Some (with_gpu d (gpuOk d) true max_keys lines line_points, true)
          end
      | _, _ => None
      end
  end.

(** The loop of [readGpuResults] over the lines still to read, [i] the
    line and [read_offset_count] the slot its results start at.  The first
    [short] of that slot, the [region[0]] of a key, is the number of keys of
    the line; the keys follow it.  A negative count or a read past the
    buffer has no defined result. *)
Fixpoint read_loop (lines_left i read_offset_count : nat)
    (d : LineKeysQueryDetailGpu) : option LineKeysQueryDetailGpu :=
  match lines_left with
  | O => Some d
  | S lines_left' =>
      match linesOut d !! read_offset_count with
      | None => None
      | Some slot =>
          let result_count := axis_get AxisX (regionKey slot) in
          if result_count <? 0 then None
          else
            let d1 :=
              with_results d
                (<[i := length (intersected_voxels d)]> (resultIndices d))
                (<[i := Z.to_nat result_count]> (resultCounts d))
                (intersected_voxels d) (number_of_results d) in
            if result_count =? 0
            then read_loop lines_left' (S i)
                   (read_offset_count + maxKeysPerLine d) d1
            else
              let keys :=
                take (Z.to_nat result_count)
                  (drop (S read_offset_count) (linesOut d)) in
              if (length keys <? Z.to_nat result_count)%nat then None
              else
                read_loop lines_left' (S i)
                  (read_offset_count + maxKeysPerLine d)
                  (with_results d1 (resultIndices d1) (resultCounts d1)
                     (intersected_voxels d1 ++ keys) (number_of_results d1))
      end
  end.

Definition readGpuResults (d : LineKeysQueryDetailGpu)
    : option (LineKeysQueryDetailGpu * bool) :=
  let ray_count := (length (rays d) / 2)%nat in
  let d := with_results d (resize ray_count (resultIndices d))
             (resize ray_count (resultCounts d)) (intersected_voxels d)
             (number_of_results d) in
  match read_loop ray_count 0 0 d with
  | Some d =>
      let d := with_results d (resultIndices d) (resultCounts d)
                 (intersected_voxels d) ray_count in
      Some (with_gpu d (gpuOk d) false (maxKeysPerLine d) (linesOut d)
              (linePoints d), true)
  | None => None
  end.

(** The loop [for (i = 0; i < d->rays.size(); i += 2)] of the CPU fall
    back; [rest] is what is left of [d->rays] from index [i] on.  Reading
    [d->rays[i + 1]] past the end (an odd number of points) has no defined
    result. *)
Fixpoint cpu_loop (i : nat) (rest : list dvec3) (d : LineKeysQueryDetailGpu)
    : option LineKeysQueryDetailGpu :=
  match rest with
  | [] => Some d
  | [_] => None
  | start :: end_ :: rest' =>
      let key_list := calculateSegmentKeys (map d) start end_ true in
      cpu_loop (i + 2) rest'
        (with_results d
           (<[(i / 2)%nat := length (intersected_voxels d)]> (resultIndices d))
           (<[(i / 2)%nat := length key_list]> (resultCounts d))
           (intersected_voxels d ++ key_list)
           (number_of_results d))
  end.

(** [onExecute]; [None] when the run has no defined result.  The message
    printed once when the GPU is unavailable is left out. *)
Definition onExecute (d : LineKeysQueryDetailGpu)
    : option (LineKeysQueryDetailGpu * bool) :=
  if negb (has_flag (query_flags d) kQfGpuEvaluate)
  then Some (LineKeysQuery_onExecute d)
  else
    let d := (initialiseGpu d).1 in
    if gpuOk d then
      match lineKeysQueryGpu d with
      | Some (d, true) => (* d->queue.finish() *) readGpuResults d
      | Some (d, false) => Some (d, false)
      | None => None
      end
    else
      let n := (length (rays d) / 2)%nat in
      let d := with_results d (resize n (resultIndices d))
                 (resize n (resultCounts d)) (intersected_voxels d)
                 (number_of_results d) in
      match cpu_loop 0 (rays d) d with
      | Some d =>
          Some (with_results d (resultIndices d) (resultCounts d)
                  (intersected_voxels d) (length (resultIndices d)), true)
      | None => None
      end.

(** [onExecuteAsync]: start the kernel and leave the results on the device;
    fails without a GPU. *)
Definition onExecuteAsync (d : LineKeysQueryDetailGpu)
    : option (LineKeysQueryDetailGpu * bool) :=
  if has_flag (query_flags d) kQfGpuEvaluate then
    let d := (initialiseGpu d).1 in
    if gpuOk d then lineKeysQueryGpu d
    else Some (d, false)
  else Some (d, false).
End OnExecute.

(** *** onWaitAsync *)

Section OnWaitAsync.
(** The world outside the waiting thread: it holds the query's
    [inflight] flag and the system clock, and moves on between any two
    looks the thread takes at it. *)
Context {World : Type}.
Variable inflight_in : World → bool.
Variable now : World → Z.            (* system clock, in clock ticks *)
Variable ticks_per_ms : Z.
Variable pass : World → World.

(** The [while (d->inflight)] loop, entered with the world as it is when
    the condition is evaluated; the result is the world at loop exit, or
    [None] when [polls] evaluations of the condition did not end it. *)
Fixpoint wait_loop (polls : nat) (timeout_ms : N) (start_time : Z) (w : World)
    : option World :=
  if inflight_in w then
    match polls with
    | O => None
    | S polls' =>
        (* sleep_for(0), then the clock is read *)
        let w := pass w in
        if negb (timeout_ms =? 4294967295)%N
           && (ticks_per_ms * Z.of_N timeout_ms <=? now w - start_time)
        then Some w
        else wait_loop polls' timeout_ms start_time (pass w)
    end
  else Some w.

(** [onWaitAsync(timeout_ms)]: the completion flag returned, with the
    world at the time of return. *)
Definition onWaitAsync (polls : nat) (timeout_ms : N) (w : World)
    : option (bool * World) :=
  let start_time := now w in
  match wait_loop polls timeout_ms start_time (pass w) with
  | Some w =>
      let w := pass w in
      Some (negb (inflight_in w), w)
  | None => None
  end.
End OnWaitAsync.

End LineKeysQueryGpu.

(** The segments of a flat array of points: consecutive (start, end) pairs. *)
Fixpoint segments (pts : list dvec3) : list (dvec3 * dvec3) :=
  match pts with
  | start :: end_ :: rest => (start, end_) :: segments rest
  | _ => []
  end.

Section SegmentKeys.
Variable walk : OccupancyMap → dvec3 → dvec3 → bool → list Key.

(** The keys a segment walks, end point included. *)
Definition segment_keys (m : OccupancyMap) (s : dvec3 * dvec3) : list Key :=
  walk m s.1 s.2 true.

(** The number of keys of every segment of a batch, in input order. *)
Definition counts_of (m : OccupancyMap) (pts : list dvec3) : list nat :=
  (λ s, length (segment_keys m s)) <$> segments pts.
End SegmentKeys.

(** The map's [calculateSegmentKeys] as modelled from the spec. *)
Definition OccupancyMap_calculateSegmentKeys (m : OccupancyMap)
    (start end_ : dvec3) (include_end_point : bool) : list Key :=
  calculateSegmentKeys (detail m) start end_ include_end_point.

(** ** The CPU reference of the GPU map test (tests/ohmtest/GpuMapTest.cpp) *)

Module GpuMapTest.

(** [gpumap::integrateRays]: every ray's keys short of the end point take a
    miss, the end point's voxel takes a hit.  [map.integrateMiss] and
    [map.integrateHit] are the updates of the map with the default flags.
    Reading [rays[i + 1]] past the end has no defined result. *)
Fixpoint integrateRays (m : OccupancyMap) (rays : list dvec3) : option OccupancyMap :=
  match rays with
  | [] => Some m
  | [_] => None
  | start :: end_ :: rest =>
      let keys := calculateSegmentKeys (detail m) start end_ false in
      let m := foldl (λ m key, integrateMiss kRfDefault key m) m keys in
      integrateRays (integrateHit kRfDefault (voxelKey (detail m) end_) m) rest
  end.

End GpuMapTest.

(** ** Auxiliary notions for the further properties *)

(** [y] has bit [i] exactly when [x] has one of the [n] bits from [i] up. *)
Definition smeared (x : Z) (n : Z) (y : Z) : Prop :=
  ∀ i, 0 ≤ i →
    (Z.testbit y i = true ↔ ∃ j, 0 ≤ j < n ∧ Z.testbit x (i + j) = true).

(** The slice [start, start + count) of a list. *)
Definition slice {A} (start count : nat) (l : list A) : list A :=
  take count (drop start l).

(** The layout the [calculateLines] kernel writes and [readGpuResults]
    reads: line [i] owns the [max_keys] slots from [i * max_keys]; the first
    [short] of its first slot, the [region[0]] of a key, is the number of
    keys of the line, and the key slots follow. *)
Definition line_count (lines_out : list Key) (max_keys i : nat) : option Z :=
  (λ slot, axis_get AxisX (regionKey slot)) <$> lines_out !! (i * max_keys)%nat.

Definition line_keys (lines_out : list Key) (max_keys i count : nat) : list Key :=
  slice (S (i * max_keys)) count lines_out.

(** The buffer holds, for each of [n] lines, a count that is not negative
    and as many key slots after it. *)
Definition readable (lines_out : list Key) (max_keys n : nat) : Prop :=
  ∀ i, (i < n)%nat →
    ∃ c, line_count lines_out max_keys i = Some c ∧ 0 ≤ c ∧
         (S (i * max_keys) + Z.to_nat c ≤ length lines_out)%nat.

(** The same for the [linesOut] buffer of a query. *)
Definition gpu_line_count (d : LineKeysQueryGpu.LineKeysQueryDetailGpu) (i : nat)
    : option Z :=
  line_count (LineKeysQueryGpu.linesOut d) (LineKeysQueryGpu.maxKeysPerLine d) i.

Definition gpu_line_keys (d : LineKeysQueryGpu.LineKeysQueryDetailGpu) (i count : nat)
    : list Key :=
  line_keys (LineKeysQueryGpu.linesOut d) (LineKeysQueryGpu.maxKeysPerLine d) i count.

(** The arrays of a GPU map have [kBuffersCount = 2] entries, and the
    buffer index is one of the two. *)
Definition well_buffered (imp : GpuNdtMap.GpuNdtMapDetail) : Prop :=
  (GpuNdtMap.next_buffers_index imp < 2)%nat ∧
  length (GpuNdtMap.region_counts imp) = 2%nat ∧
  length (GpuNdtMap.ray_counts imp) = 2%nat ∧
  length (GpuNdtMap.region_update_events imp) = 2%nat.

(** No kernel on the queue waits for itself or for a kernel behind it. *)
Definition waits_on_earlier (q : list GpuNdtMap.Launch) : Prop :=
  ∀ p l k, q !! p = Some l → GpuNdtMap.KernelEvent k ∈ GpuNdtMap.wait_for l →
           (k < p)%nat.

(** ** The batching loop of the GPU map test (tests/ohmtest/GpuMapTest.cpp) *)

Module GpuMapTestBatches.

(** Wrap-around of a 64 bit [size_t] and of a 32 bit [unsigned]. *)
Definition size_t (n : N) : N := (n mod 2 ^ 64)%N.
Definition unsigned (n : N) : N := (n mod 2 ^ 32)%N.

(** The loop [for (i = 0; i < rays.size(); i += batch_size * 2)] of
    [gpuMapTest], [step] being [batch_size * 2]: the calls
    [gpu_wrap.integrateRays(rays.data() + i, point_count)] it makes, as
    pairs of [i] and [point_count]; [None] when [fuel] evaluations of the
    loop condition did not end it. *)
Fixpoint batch_loop (fuel : nat) (rays_size step i : N) : option (list (N * N)) :=
  if (i <? rays_size)%N then
    match fuel with
    | O => None
    | S fuel' =>
        let point_count := unsigned (N.min step (rays_size - i)) in
        cons (i, point_count) <$> batch_loop fuel' rays_size step (size_t (i + step))
    end
  else Some [].

(** [gpuMapTest]: a [batch_size] of zero stands for all rays at once. *)
Definition gpuMapTest_batches (fuel : nat) (rays : list dvec3) (batch_size : N)
    : option (list (N * N)) :=
  let rays_size := N.of_nat (length rays) in
  let batch_size := if (batch_size =? 0)%N then (rays_size / 2)%N else batch_size in
  batch_loop fuel rays_size (size_t (batch_size * 2)) 0.

(** The points [rays.data() + i] up to [point_count] handed to a call. *)
Definition batch_of (rays : list dvec3) (call : N * N) : list dvec3 :=
  slice (N.to_nat call.1) (N.to_nat call.2) rays.

End GpuMapTestBatches.

(** ** Display strings (ohmutil/OhmUtil.h) *)

Module OhmUtil.

Definition kThousand : N := 1000.
Definition kKibiSize : N := 1024.

(** [out << n] for an integer that is not negative: its decimal digits. *)
Definition show (n : N) : string :=
  DecimalString.NilEmpty.string_of_uint (N.to_uint n).

(** A field of [std::setw(width)] with [std::setfill(fill)], the text to the
    right. *)
Fixpoint fill_string (n : nat) (fill : ascii) : string :=
  match n with
  | O => EmptyString
  | S n' => String fill (fill_string n' fill)
  end.

Definition pad (width : nat) (fill : ascii) (s : string) : string :=
  fill_string (width - String.length s) fill +:+ s.

(** Wrap-around of a [uint64_t]. *)
Definition u64 (n : N) : N := (n mod 2 ^ 64)%N.

Definition unit_suffix : list string :=
  ["B"; "KiB"; "MiB"; "GiB"; "TiB"; "PiB"; "EiB"]%string.

(** [while (bytes > kKibiSize && unit_index < unit_suffix.size())]: the
    values of [bytes], [prev_bytes] and [unit_index] at loop exit; [None]
    when [fuel] iterations did not end the loop. *)
Fixpoint scale_loop (fuel : nat) (bytes prev_bytes : N) (unit_index : nat)
    : option (N * N * nat) :=
  if (kKibiSize <? bytes)%N && (unit_index <? length unit_suffix)%nat then
    match fuel with
    | O => None
    | S fuel' => scale_loop fuel' (bytes / kKibiSize)%N bytes (S unit_index)
    end
  else Some (bytes, prev_bytes, unit_index).

(** [for (int i = 0; i < 3 && prev_bytes; ++i)], [n] being the iterations
    left of the three: the decimal places and [need_fractional]. *)
Fixpoint places_loop (n i : nat) (prev_bytes : N) (decimal_places : list N)
    (need_fractional : bool) : list N * bool :=
  match n with
  | O => (decimal_places, need_fractional)
  | S n' =>
      if (prev_bytes =? 0)%N then (decimal_places, need_fractional)
      else places_loop n' (S i) (prev_bytes / 10)%N
             (<[(2 - i)%nat := (prev_bytes mod 10)%N]> decimal_places) true
  end.

(** [for (int i = 0; i < 3 && decimal_places[i] > 0; ++i) out << int(...)] *)
Fixpoint places_out (decimal_places : list N) : string :=
  match decimal_places with
  | [] => EmptyString
  | place :: rest =>
      if (0 <? place)%N then show place +:+ places_out rest else EmptyString
  end.

(** [makeMemoryDisplayString]: the string written to [str]; [None] when
    the loop does not end or [unit_suffix] is read out of bounds. *)
Definition makeMemoryDisplayString (bytes : N) : option string :=
  match scale_loop 8 bytes 0 0 with
  | None => None
  | Some (bytes, prev_bytes, unit_index) =>
      let '(decimal_places, need_fractional) :=
        if (0 <? unit_index)%nat then
          let prev_bytes := (prev_bytes mod kKibiSize)%N in
          let prev_bytes := u64 (prev_bytes * kKibiSize) in
          let prev_bytes := (prev_bytes / kKibiSize)%N in
          places_loop 3 0 prev_bytes [0; 0; 0]%N false
        else ([0; 0; 0]%N, false) in
      match unit_suffix !! unit_index with
      | None => None
      | Some suffix =>
          Some (show bytes
                +:+ (if need_fractional then "." +:+ places_out decimal_places
                     else EmptyString)
                +:+ " " +:+ suffix)
      end
  end.

(** The loop of [delimetedInteger]; [None] when [fuel] iterations did not
    end it. *)
Fixpoint delimit_loop (fuel : nat) (thousands remainder : N) (delimiter : ascii)
    (str : string) : option string :=
  if (0 <? remainder)%N || (0 <? thousands)%N then
    match fuel with
    | O => None
    | S fuel' =>
        let os :=
          if negb (remainder =? 0)%N
          then String delimiter (pad 3 "0" (show thousands))
          else show thousands in
        delimit_loop fuel' (remainder mod kThousand)%N (remainder / kThousand)%N
          delimiter (os +:+ str)
    end
  else Some str.

(** [delimetedInteger] on an integer that is not negative.  An iteration
    divides the number by 1000, so one more than its binary logarithm bounds
    the iterations. *)
Definition delimetedInteger (integer : N) (delimiter : ascii) : option string :=
  delimit_loop (S (N.to_nat (N.log2 integer))) (integer mod kThousand)%N
    (integer / kThousand)%N delimiter EmptyString.

(** Reading a delimited integer back: the decimal digits of a string, most
    significant first, anything else skipped. *)
Definition digit_of (c : ascii) : option N :=
  let n := N_of_ascii c in
  if (48 <=? n)%N && (n <=? 57)%N then Some (n - 48)%N else None.

Fixpoint read_digits (s : string) (acc : N) : N :=
  match s with
  | EmptyString => acc
  | String c rest =>
      match digit_of c with
      | Some v => read_digits rest (acc * 10 + v)%N
      | None => read_digits rest acc
      end
  end.

Fixpoint digit_count (s : string) : nat :=
  match s with
  | EmptyString => 0
  | String c rest =>
      (match digit_of c with Some _ => 1 | None => 0 end + digit_count rest)%nat
  end.

(** An output stream: the text written so far and the fill character,
    which [std::setfill] sets for good; [std::setw] holds for one item. *)
Record ostream := { text : string; fill : ascii }.

Definition put (out : ostream) (s : string) : ostream :=
  {| text := text out +:+ s; fill := fill out |}.

Definition setfill (out : ostream) (c : ascii) : ostream :=
  {| text := text out; fill := c |}.

Definition put_w (out : ostream) (width : nat) (n : N) : ostream :=
  put out (pad width (fill out) (show n)).

(** [logDuration] for a duration [D] of nanosecond ticks in a 64 bit count,
    as the clocks of the tests have it; [duration_cast] to a coarser unit
    truncates.  [None] when [duration * -1] overflows. *)
Definition logDuration (out : ostream) (duration : Z) : option ostream :=
  let negative := (duration <? 0)%Z in
  let sign : string := if negb negative then EmptyString else "-"%string in
  if (duration =? - 2 ^ 63)%Z then None
  else
    let abs_duration := Z.to_N (if negb negative then duration else duration * -1)%Z in
    let s := (abs_duration / 1000000000)%N in
    let ms := (abs_duration / 1000000)%N in
    let ms := (ms mod kThousand)%N in
    if negb (s =? 0)%N then
      Some (put (put_w (setfill (put (put (put out sign) (show s)) ".") "0") 3 ms) "s")
    else
      let us := (abs_duration / 1000)%N in
      let us := (us mod kThousand)%N in
      if negb (ms =? 0)%N then
        Some (put (put_w (setfill (put (put (put out sign) (show ms)) ".") "0") 3 us) "ms")
      else
        let ns := (abs_duration mod kThousand)%N in
        if negb (us =? 0)%N then
          Some (put (put_w (setfill (put (put (put out sign) (show us)) ".") "0") 3 ns)
                  "us")
        else Some (put (put (put out sign) (show ns)) "ns").

(** What [logDuration] leaves of a stream, case by case on the magnitude
    [a] in nanoseconds: the text appended after [sign], and the fill
    character.  Used to state the properties of [logDuration]. *)
Definition logged (out : ostream) (sign : string) (a : N) : ostream :=
  if negb (a / 1000000000 =? 0)%N then
    {| text := text out +:+ sign +:+ show (a / 1000000000)%N +:+ "."
               +:+ pad 3 "0" (show ((a / 1000000) mod 1000)%N) +:+ "s";
       fill := "0" |}
  else if negb ((a / 1000000) mod 1000 =? 0)%N then
    {| text := text out +:+ sign +:+ show ((a / 1000000) mod 1000)%N +:+ "."
               +:+ pad 3 "0" (show ((a / 1000) mod 1000)%N) +:+ "ms";
       fill := "0" |}
  else if negb ((a / 1000) mod 1000 =? 0)%N then
    {| text := text out +:+ sign +:+ show ((a / 1000) mod 1000)%N +:+ "."
               +:+ pad 3 "0" (show (a mod 1000)%N) +:+ "us";
       fill := "0" |}
  else
    {| text := text out +:+ sign +:+ show (a mod 1000)%N +:+ "ns";
       fill := fill out |}.

(** [timeString]: [logDuration] into a fresh [std::ostringstream]. *)
Definition timeString (duration : Z) : option string :=
  text <$> logDuration {| text := EmptyString; fill := " " |} duration.

End OhmUtil.

(** ** ohm2ply (utils/ohm2ply/ohm2ply.cpp) *)

Module Ohm2Ply.

(** The signal numbers of [<csignal>] on POSIX systems. *)
Definition SIGINT : Z := 2.
Definition SIGTERM : Z := 15.

(** [onSignal]: the new value of the global [quit], an [int]; incrementing
    it past [INT_MAX] has no defined result. *)
Definition onSignal (quit : Z) (arg : Z) : option Z :=
  if (arg =? SIGINT) || (arg =? SIGTERM)
  then (if quit =? 2 ^ 31 - 1 then None else Some (quit + 1))
  else Some quit.

(** The handler run on a sequence of signals. *)
Fixpoint onSignals (quit : Z) (args : list Z) : option Z :=
  match args with
  | [] => Some quit
  | arg :: rest =>
      match onSignal quit arg with
      | Some quit' => onSignals quit' rest
      | None => None
      end
  end.

(** [LoadMapProgress::quit()]: whether loading is to be abandoned. *)
Definition LoadMapProgress_quit (quit : Z) : bool := 1 <? quit.

(** The test [!quit] of the export loop and of the final save. *)
Definition export_continues (quit : Z) : bool := quit =? 0.

Inductive ExportMode := kExportOccupancy | kExportClearance.

(** [operator<<(std::ostream &, ExportMode)]: the text appended. *)
Definition put_mode (out : string) (mode : ExportMode) : string :=
  match mode with
  | kExportOccupancy => out +:+ "occupancy"
  | kExportClearance => out +:+ "clearance"
  end.

(** [std::isspace] in the C locale. *)
Definition is_space (c : ascii) : bool :=
  let n := N_of_ascii c in (n =? 32)%N || ((9 <=? n)%N && (n <=? 13)%N).

(** [in >> mode_str]: leading white space is skipped, then characters are
    taken up to the next white space or the end; the token and what is left
    of the input. *)
Fixpoint skip_space (s : string) : string :=
  match s with
  | String c rest => if is_space c then skip_space rest else s
  | EmptyString => EmptyString
  end.

Fixpoint take_token (s : string) : string * string :=
  match s with
  | String c rest =>
      if is_space c then (EmptyString, s)
      else let '(token, rest') := take_token rest in (String c token, rest')
  | EmptyString => (EmptyString, EmptyString)
  end.

(** A [std::istream] over a string: the characters not yet read and the
    state bits that reading sets ([badbit] never is, with a string behind
    the stream).  The stream is as it is made: it skips white space before
    a token and has no field width set. *)
Record istream := {
  unread : string;
  failbit : bool;
  eofbit : bool;
}.

(** [in.good()]. *)
Definition good (i : istream) : bool := negb (failbit i) && negb (eofbit i).

(** [in >> mode_str] for the empty [std::string mode_str]: the string read
    and the stream after.  A stream that is not good is marked failed and
    nothing is read; so is one with nothing but white space left, which is
    at its end then.  Otherwise the token is read, and the stream is at its
    end when the token ran up to the end of the input. *)
Definition get_string (i : istream) : string * istream :=
  if good i then
    match skip_space (unread i) with
    | EmptyString =>
        (EmptyString, {| unread := EmptyString; failbit := true; eofbit := true |})
    | String _ _ as s =>
        let '(token, rest) := take_token s in
        (token,
         {| unread := rest; failbit := false;
            eofbit := match rest with EmptyString => true | String _ _ => false end |})
    end
  else (EmptyString, {| unread := unread i; failbit := true; eofbit := eofbit i |}).

(** [operator>>(std::istream &, ExportMode &)]: the mode and the stream
    after the call.  A string that names no mode leaves the mode as it
    was. *)
Definition get_mode (i : istream) (mode : ExportMode) : ExportMode * istream :=
  let '(mode_str, i) := get_string i in
  if String.eqb mode_str "occupancy" then (kExportOccupancy, i)
  else if String.eqb mode_str "clearance" then (kExportClearance, i)
  else (mode, i).

(** A stream freshly made over a string. *)
Definition istringstream (s : string) : istream :=
  {| unread := s; failbit := false; eofbit := false |}.

(** Conversion of a [float] to an integer type: the fraction is dropped. *)
Definition truncate (x : Q) : Z :=
  if Qle_bool 0 x then Qfloor x else Qceiling x.

(** The red channel of a clearance voxel in [main],
    [uint8_t(255 * std::max(0.0f, (colour_scale - range_value) / colour_scale))],
    for the [float]s [colour_scale] and [range_value]: the difference, the
    quotient and the product are each brought to [float]; a value outside
    of [uint8_t] has no defined conversion. *)
Definition clearance_colour (colour_scale range_value : Q) : option Z :=
  match Float32.sub colour_scale range_value with
  | None => None
  | Some difference =>
      match Float32.div difference colour_scale with
      | None => None
      | Some quotient =>
          match Float32.mul 255 (Qmax 0 quotient) with
          | None => None
          | Some product =>
              let c := truncate product in
              if (0 <=? c) && (c <? 256) then Some c else None
          end
      end
  end.

(** The test that guards the colour, for a valid voxel:
    [voxel.clearance() >= 0 && voxel.clearance() < opt.colour_scale]. *)
Definition clearance_shown (colour_scale range_value : Q) : bool :=
  Qle_bool 0 range_value && negb (Qle_bool colour_scale range_value).

End Ohm2Ply.
(** * Concrete maps, batches and patterns used in the examples *)

(** A multimap with a hash clash: two regions share hash 7. *)
Definition clash_regions : list (N * (Z * Z * Z)) :=
  [ (3%N, (5, 0, 0)); (7%N, (0, 0, 0)); (7%N, (1, 0, 0)); (9%N, (1, 0, 0)) ].

(** Map parameters of the scenarios: resolution 1, regions of 32 x 32 x 32
    voxels, origin at zero, and some log-odds settings. *)
Definition unit_map : OccupancyMapDetail :=
  {| region_voxel_dimensions := (32, 32, 32);
     resolution := 1;
     origin := (0, 0, 0)%Q;
     hit_value := 17 # 20;
     miss_value := - (2 # 5);
     min_voxel_value := -2;
     max_voxel_value := 7 # 2;
     occupancy_threshold_value := 0 |}.

(** A GPU NDT map about to finalise a batch of three rays over one region. *)
Definition ndt_batch : GpuNdtMap.GpuNdtMapDetail :=
  {| GpuNdtMap.map := unit_map;
     GpuNdtMap.sensor_noise_of := 1 # 20;
     GpuNdtMap.voxel_upload_info_size := 3;
     GpuNdtMap.next_buffers_index := 0;
     GpuNdtMap.region_counts := [1%N; 0%N];
     GpuNdtMap.ray_counts := [3%N; 0%N];
     GpuNdtMap.region_update_events := [GpuNdtMap.KernelEvent 0; GpuNdtMap.KernelEvent 0];
     GpuNdtMap.batch_marker := 1;
     GpuNdtMap.gpu_queue := [] |}.

Definition pt (x y z : Z) : dvec3 := (inject_Z x, inject_Z y, inject_Z z).

Definition key0 (x y z : Z) : Key := {| regionKey := (0, 0, 0); localKey := (x, y, z) |}.

(** The clearing pattern of scenario S4: the single offset (5, 0, 0). *)
Definition single_ray_pattern : RayPattern.RayPatternDetail :=
  RayPattern.addPoint RayPattern.empty (pt 5 0 0).

Definition star_pattern : RayPattern.RayPatternDetail :=
  RayPattern.addPoints RayPattern.empty [pt 5 0 0; pt 0 3 0; (1 # 2, - (3 # 4), 2)%Q].

(** Map parameters of scenario S4: resolution 1, origin 0, regions of
    32 x 32 x 32 voxels; the log-odds settings are left open. *)
Definition scenario_detail (hit miss lo hi threshold : Q) : OccupancyMapDetail :=
  {| region_voxel_dimensions := (32, 32, 32);
     resolution := 1;
     origin := (0, 0, 0)%Q;
     hit_value := hit;
     miss_value := miss;
     min_voxel_value := lo;
     max_voxel_value := hi;
     occupancy_threshold_value := threshold |}.

(** A map with occupied voxels at (2, 0, 0) and (4, 0, 0) of region (0, 0, 0)
    and nothing else observed. *)
Definition two_obstacles : OccupancyMap :=
  setVoxelValue (setVoxelValue (emptyMap unit_map) (key0 2 0 0) (17 # 20))
    (key0 4 0 0) (17 # 10).

(** The batch of scenario S5 on an empty map of resolution 1, queried with
    the given query flags, no GPU set up. *)
Definition S5_query (flags : N) : LineKeysQueryGpu.LineKeysQueryDetailGpu :=
  {| LineKeysQueryGpu.map := emptyMap unit_map;
     LineKeysQueryGpu.query_flags := flags;
     LineKeysQueryGpu.rays := [pt 0 0 0; pt 3 0 0; pt 0 0 0; pt 0 2 0];
     LineKeysQueryGpu.intersected_voxels := [];
     LineKeysQueryGpu.resultIndices := [];
     LineKeysQueryGpu.resultCounts := [];
     LineKeysQueryGpu.number_of_results := 0;
     LineKeysQueryGpu.gpuOk := false;
     LineKeysQueryGpu.inflight := false;
     LineKeysQueryGpu.maxKeysPerLine := 0;
     LineKeysQueryGpu.linesOut := [];
     LineKeysQueryGpu.linePoints := [] |}.

(** Stand-ins for what is outside the sources: a base class query that
    leaves the query as it is and reports failure, a key bound, a kernel that
    reports an error. *)
Definition no_base_query (d : LineKeysQueryGpu.LineKeysQueryDetailGpu)
    : LineKeysQueryGpu.LineKeysQueryDetailGpu * bool := (d, false).
Definition some_key_bound (voxel_res : Q) (start end_ : dvec3) : nat := 8%nat.
Definition failing_kernel (lines_out : list Key) (max_keys : nat)
    (line_points : list dvec3) (line_count : nat) (region_dim : Z * Z * Z)
    (voxel_res : Q) : option (list Key) := None.

(** A kernel that reports, for every line, the two keys (0,0,0) and (1,0,0)
    of region (2,0,0): slot 0 of a line holds the count. *)
Definition two_key_kernel (lines_out : list Key) (max_keys : nat)
    (line_points : list dvec3) (line_count : nat) (region_dim : Z * Z * Z)
    (voxel_res : Q) : option (list Key) :=
  Some (concat (replicate line_count
          ([ {| regionKey := (2, 0, 0); localKey := (0, 0, 0) |};
             {| regionKey := (2, 0, 0); localKey := (0, 0, 0) |};
             {| regionKey := (2, 0, 0); localKey := (1, 0, 0) |} ]
           ++ replicate (max_keys - 3) LineKeysQueryGpu.blank_slot))).

(** The S5 batch after the kernel has run: two lines of three slots each,
    a count of 2 and two keys. *)
Definition kernel_done_query : LineKeysQueryGpu.LineKeysQueryDetailGpu :=
  LineKeysQueryGpu.with_gpu (S5_query 4) true true 3
    [ {| regionKey := (2, 0, 0); localKey := (0, 0, 0) |}; key0 0 0 0; key0 1 0 0;
      {| regionKey := (2, 0, 0); localKey := (0, 0, 0) |}; key0 0 0 0; key0 0 1 0 ]
    [pt 0 0 0; pt 3 0 0; pt 0 0 0; pt 0 2 0].

(** The S5 query after [onExecuteAsync] has started the kernel. *)
Definition async_started : LineKeysQueryGpu.LineKeysQueryDetailGpu :=
  match LineKeysQueryGpu.onExecuteAsync 4 true some_key_bound two_key_kernel
          (S5_query 4) with
  | Some (d, _) => d
  | None => S5_query 4
  end.

(** A world in which the query never completes and every look at the clock
    finds it 2^32 ms later: the state is the number of moves so far. *)
Definition stuck_inflight (w : nat) : bool := true.
Definition fast_clock (w : nat) : Z := 4294967296 * Z.of_nat w.

(** A world in which the query completes at the fifth move, the clock
    advancing 1 ms per move. *)
Definition done_at_5 (w : nat) : bool := (w <? 5)%nat.
Definition ms_clock (w : nat) : Z := Z.of_nat w.

(** Three calls: a ray integrated twice with the default flags, then a
    clearing sweep along it. *)
Definition three_calls : list (list dvec3 * N) :=
  [ ([pt 0 0 0; pt 3 0 0], kRfDefault);
    ([pt 0 0 0; pt 3 0 0], kRfDefault);
    ([pt 0 0 0; pt 3 0 0], clearing_flags) ].

(** * Properties *)

Lemma has_flag_lor flags f g :
  has_flag flags (N.lor f g) = has_flag flags f || has_flag flags g.
Proof.
  unfold has_flag. rewrite N.land_lor_distr_r.
  destruct (N.eqb_spec (N.land flags f) 0) as [Hf|Hf];
    destruct (N.eqb_spec (N.land flags g) 0) as [Hg|Hg]; simpl.
  - rewrite Hf, Hg. reflexivity.
  - rewrite Hf, N.lor_0_l. by apply negb_true_iff, N.eqb_neq.
  - rewrite Hg, N.lor_0_r. by apply negb_true_iff, N.eqb_neq.
  - apply negb_true_iff, N.eqb_neq. intros H0.
    apply N.lor_eq_0_iff in H0. tauto.
Qed.


(** ** Properties of [findRegion] *)

Section FindRegion.
Import GpuMapDetail.

Lemma find_from_spec regions h pos :
  let r := find_from regions h pos in
  (pos ≤ r)%nat ∧ (r ≤ pos + length regions)%nat ∧
  (∀ j e, (j < r - pos)%nat → regions !! j = Some e → e.1 ≠ h) ∧
  ((r < pos + length regions)%nat → ∃ k, regions !! (r - pos)%nat = Some (h, k)).
Proof.
  revert pos. induction regions as [|[h' k'] rest IH]; intros pos; simpl.
  - split_and!; [lia | lia | intros; lia | intros; lia].
  - case_bool_decide as Hh.
    + subst h'. split_and!; [lia | lia | intros; lia |].
      intros _. exists k'. by replace (pos - pos)%nat with 0%nat by lia.
    + destruct (IH (S pos)) as (H1 & H2 & H3 & H4).
      split_and!; [lia | lia | |].
      * intros j e Hj Hl. destruct j as [|j]; simpl in Hl.
        { by inversion Hl; subst. }
        apply (H3 j e); [lia | done].
      * intros Hlt. destruct H4 as [k Hk]; [lia|]. exists k.
        replace (find_from rest h (S pos) - pos)%nat
          with (S (find_from rest h (S pos) - S pos)) by lia.
        done.
Qed.

Lemma find_spec regions h :
  let r := find regions h in
  (r ≤ length regions)%nat ∧
  (∀ j e, (j < r)%nat → regions !! j = Some e → e.1 ≠ h) ∧
  ((r < length regions)%nat → ∃ k, regions !! r = Some (h, k)).
Proof.
  destruct (find_from_spec regions h 0) as (H1 & H2 & H3 & H4).
  unfold find. simpl in *. split_and!.
  - lia.
  - intros j e Hj. apply H3. lia.
  - intros Hlt. destruct H4 as [k Hk]; [lia|]. exists k.
    by rewrite Nat.sub_0_r in Hk.
Qed.

(** The loop stops where its condition fails, having skipped only entries of
    the wanted hash and another region. *)
Lemma advance_spec fuel regions h key iter :
  (length regions ≤ iter + fuel)%nat →
  let r := advance fuel regions h key iter in
  (iter ≤ r)%nat ∧
  (∀ j, (iter ≤ j < r)%nat → ∃ k, regions !! j = Some (h, k) ∧ k ≠ key) ∧
  match regions !! r with
  | Some (h', k') => h' ≠ h ∨ k' = key
  | None => True
  end.
Proof.
  revert iter. induction fuel as [|fuel IH]; intros iter Hfuel; cbn [advance].
  - split_and!; [lia | intros j Hj; lia |].
    rewrite lookup_ge_None_2; [done | lia].
  - destruct (regions !! iter) as [[h' k']|] eqn:Hl.
    + case_bool_decide as Hh; simpl.
      * case_bool_decide as Hk; simpl.
        { split_and!; [lia | intros j Hj; lia |]. rewrite Hl. by right. }
        destruct (IH (S iter)) as (H1 & H2 & H3); [lia|].
        split_and!; [lia | | done].
        intros j Hj. destruct (decide (j = iter)) as [->|Hne].
        { exists k'. by subst h'. }
        apply H2. lia.
      * split_and!; [lia | intros j Hj; lia |]. rewrite Hl. by left.
    + split_and!; [lia | intros j Hj; lia |]. by rewrite Hl.
Qed.

Lemma findRegion_sound regions h key :
  let r := findRegion regions h key in
  r = end_ regions ∨ regions !! r = Some (h, key).
Proof.
  unfold findRegion; simpl.
  destruct (regions !! advance _ _ _ _ _) as [[h' k']|] eqn:Hl; [|by left].
  case_bool_decide as Hh; simpl; [|by left].
  case_bool_decide as Hk; simpl; [|by left].
  right. by subst.
Qed.

Lemma findRegion_complete regions h key j :
  grouped regions →
  regions !! j = Some (h, key) →
  regions !! findRegion regions h key = Some (h, key).
Proof.
  intros Hg Hj.
  destruct (find_spec regions h) as (F1 & F2 & F3).
  pose proof (lookup_lt_Some _ _ _ Hj) as Hjlt.
  assert (find regions h ≤ j)%nat as Hfj.
  { destruct (decide (find regions h ≤ j)%nat) as [|Hn]; [done|].
    exfalso. apply (F2 j (h, key)); [lia | done | done]. }
  destruct F3 as [k0 Hk0]; [lia|].
  destruct (advance_spec (length regions) regions h key (find regions h))
    as (A1 & A2 & A3); [lia|].
  set (r := advance (length regions) regions h key (find regions h)) in *.
  assert (r ≤ j)%nat as Hrj.
  { destruct (decide (r ≤ j)%nat) as [|Hn]; [done|].
    destruct (A2 j) as (k & Hk & Hne); [lia|].
    rewrite Hj in Hk. by inversion Hk; subst. }
  unfold findRegion. fold r.
  destruct (regions !! r) as [[h' k']|] eqn:Hr.
  - assert (h' = h) as ->.
    { apply (Hg (find regions h) r j (h, k0) (h', k') (h, key)); done. }
    destruct A3 as [?| ->]; [done|].
    rewrite !bool_decide_eq_true_2; done.
  - apply lookup_ge_None_1 in Hr. lia.
Qed.

(** C10. On a region-key multimap (entries of one hash adjacent), for every
    hash and region key, [findRegion] returns an iterator to an entry with
    that hash and that region key whenever one exists, and [end()]
    otherwise; whatever entry it returns is never one whose hash collides
    but whose region coordinate differs. *)
Theorem findRegion_correct regions region_hash region_key :
  grouped regions →
  ((∃ j, regions !! j = Some (region_hash, region_key)) →
     regions !! findRegion regions region_hash region_key
       = Some (region_hash, region_key)) ∧
  ((∀ j, regions !! j ≠ Some (region_hash, region_key)) →
     findRegion regions region_hash region_key = end_ regions) ∧
  (∀ e, regions !! findRegion regions region_hash region_key = Some e →
     e = (region_hash, region_key)).
Proof.
  intros Hg. split_and!.
  - intros [j Hj]. by eapply findRegion_complete.
  - intros Hnone.
    destruct (findRegion_sound regions region_hash region_key) as [?|Hf]; [done|].
    by apply Hnone in Hf.
  - intros e He.
    destruct (findRegion_sound regions region_hash region_key) as [Hend|Hf].
    + rewrite Hend in He. unfold end_ in He.
      apply lookup_lt_Some in He. lia.
    + congruence.
Qed.

End FindRegion.

Lemma clash_regions_grouped : GpuMapDetail.grouped clash_regions.
Proof.
  intros i j k hi kj hk Hij Hjk Hi Hj Hk Heq.
  destruct i as [|[|[|[|i]]]]; simpl in Hi; try done;
    destruct k as [|[|[|[|k]]]]; simpl in Hk; try done;
    destruct j as [|[|[|[|j]]]]; simpl in Hj; try done;
    simplify_eq; simpl in *; try done; lia.
Defined.

Lemma findRegion_correct_witness :
  GpuMapDetail.findRegion clash_regions 7%N (1, 0, 0) = 2%nat ∧
  clash_regions !! GpuMapDetail.findRegion clash_regions 7%N (1, 0, 0)
    = Some (7%N, (1, 0, 0)).
Proof.
  split; [reflexivity|].
  apply (findRegion_correct clash_regions 7%N (1, 0, 0) clash_regions_grouped).
  exists 2%nat. reflexivity.
Defined.

Example findRegion_clash_absent :
  GpuMapDetail.findRegion clash_regions 7%N (5, 0, 0)
    = GpuMapDetail.end_ clash_regions.
Proof. reflexivity. Qed.

(** ** GpuNdtMap::finaliseBatch: which kernels a batch enqueues *)

Section FinaliseBatchProps.
Import GpuNdtMap.
Variable beginBatch : N → N.

Lemma finaliseBatch_queue_extends imp flags :
  gpu_queue (finaliseBatch beginBatch imp flags)
    = gpu_queue imp ++ enqueued beginBatch imp flags.
Proof.
  unfold enqueued, finaliseBatch.
  destruct (negb (has_flag flags (N.lor kRfExcludeSample kRfEndPointAsFree)));
    cbn [gpu_queue]; rewrite <- ?app_assoc; by rewrite drop_app_length.
Qed.

(** The hit kernel follows the ray kernel exactly when the flags hold
    neither [kRfExcludeSample] nor [kRfEndPointAsFree]. *)
Lemma finaliseBatch_hit_iff imp flags :
  existsb is_ndtHit (enqueued beginBatch imp flags)
    = negb (has_flag flags kRfExcludeSample)
      && negb (has_flag flags kRfEndPointAsFree).
Proof.
  unfold enqueued, finaliseBatch. rewrite has_flag_lor, negb_orb.
  destruct (negb (has_flag flags kRfExcludeSample)
            && negb (has_flag flags kRfEndPointAsFree));
    cbn [gpu_queue]; rewrite <- ?app_assoc; by rewrite drop_app_length.
Qed.

(** C1 (amended). When the flags of a batch include [kRfEndPointAsFree] (as the
    clearing flags [kRfEndPointAsFree | kRfStopOnFirstOccupied | kRfClearOnly]
    do), [finaliseBatch] enqueues the ray update kernel alone, with the
    caller's flags unchanged: no hit kernel runs for the batch, and the end
    point is left to the ray kernel as one more traversed voxel. *)
Theorem finaliseBatch_end_point_as_free_no_hit imp flags :
  has_flag flags kRfEndPointAsFree = true →
  existsb is_ndtHit (enqueued beginBatch imp flags) = false ∧
  ∃ launch, enqueued beginBatch imp flags = [launch] ∧
    ∃ rc yc dim r mv hv ot lo hi sn,
      kernel launch = regionRayUpdateNdt rc yc dim r mv hv ot lo hi flags sn.
Proof.
  intros Hfree. split.
  - rewrite finaliseBatch_hit_iff, Hfree. apply andb_false_r.
  - unfold enqueued, finaliseBatch.
    rewrite has_flag_lor, Hfree, orb_true_r. cbn [negb gpu_queue].
    rewrite drop_app_length, N.lor_0_r.
    eexists; split; [reflexivity|]. cbn [kernel]. by repeat eexists.
Qed.

End FinaliseBatchProps.

Lemma finaliseBatch_end_point_as_free_no_hit_witness :
  existsb GpuNdtMap.is_ndtHit
    (GpuNdtMap.enqueued N.succ ndt_batch
       (N.lor (N.lor kRfEndPointAsFree kRfStopOnFirstOccupied) kRfClearOnly))
  = false.
Proof.
  apply (finaliseBatch_end_point_as_free_no_hit N.succ ndt_batch
           (N.lor (N.lor kRfEndPointAsFree kRfStopOnFirstOccupied) kRfClearOnly)).
  reflexivity.
Defined.

(** C1 as stated fails: with [kRfClearOnly] as the only flag the batch gets
    the ray kernel with [kRfExcludeSample] added, so that it leaves the end
    point alone, and then the hit kernel. *)
Lemma finaliseBatch_clear_only_hits :
  has_flag kRfClearOnly kRfClearOnly = true ∧
  map GpuNdtMap.kernel (GpuNdtMap.enqueued N.succ ndt_batch kRfClearOnly)
  = [ GpuNdtMap.regionRayUpdateNdt 1 3 (32, 32, 32) 1 (- (2 # 5)) (17 # 20) 0
        (-2) (7 # 2) (N.lor kRfClearOnly kRfExcludeSample) (1 # 20);
      GpuNdtMap.ndtHit 1 3 (32, 32, 32) 1 (17 # 20) 0 (7 # 2) (1 # 20) ].
Proof. split; reflexivity. Qed.


(** ** Single precision: rounding keeps the order *)

Section Float32Props.
Import Float32.
Local Open Scope Q_scope.

Lemma pow2_pos (e : Z) : 0 < 2 ^ e.
Proof. apply Qpower_0_lt. reflexivity. Qed.

Lemma pow2_inject (k : Z) : (0 <= k)%Z → inject_Z (2 ^ k) == 2 ^ k.
Proof. intros Hk. by rewrite Zpower_Qpower. Qed.

Lemma pow2_add (a b : Z) : 2 ^ (a + b) == 2 ^ a * 2 ^ b.
Proof. apply Qpower_plus. discriminate. Qed.

Lemma pow2_le (a b : Z) : (a <= b)%Z → 2 ^ a <= 2 ^ b.
Proof. intros Hab. apply Qpower_le_compat_l; [done | discriminate]. Qed.

Lemma ilog2_spec (x : Q) : 0 < x → 2 ^ ilog2 x <= x ∧ x < 2 ^ (ilog2 x + 1).
Proof.
  intros Hx. unfold ilog2.
  set (ln := Z.log2 (Qnum x)). set (ld := Z.log2 (Z.pos (Qden x))).
  assert (0 < Qnum x)%Z as Hn by (destruct x as [n d]; unfold Qlt in Hx; simpl in *; lia).
  destruct (Z.log2_spec (Qnum x) Hn) as [Hn1 Hn2]. fold ln in Hn1, Hn2.
  destruct (Z.log2_spec (Z.pos (Qden x))) as [Hd1 Hd2]; [lia|]. fold ld in Hd1, Hd2.
  assert (0 <= ln)%Z as Hln by apply Z.log2_nonneg.
  assert (0 <= ld)%Z as Hld by apply Z.log2_nonneg.
  rewrite Zle_Qle, pow2_inject in Hn1, Hd1 by done.
  rewrite Zlt_Qlt, pow2_inject in Hn2, Hd2 by lia.
  replace (Z.succ ln) with (ln + 1)%Z in Hn2 by lia.
  replace (Z.succ ld) with (ld + 1)%Z in Hd2 by lia.
  rewrite pow2_add in Hn2, Hd2. change (2 ^ 1) with 2 in Hn2, Hd2.
  assert (x * inject_Z (Z.pos (Qden x)) == inject_Z (Qnum x)) as Hxd.
  { destruct x as [n d]. simpl. unfold Qeq, Qmult, inject_Z. simpl. lia. }
  set (N := inject_Z (Qnum x)) in *. set (D := inject_Z (Z.pos (Qden x))) in *.
  set (e := (ln - ld)%Z).
  assert (2 ^ e * 2 ^ ld == 2 ^ ln) as He
    by (rewrite <- pow2_add; subst e; by replace (ln - ld + ld)%Z with ln by lia).
  pose proof (pow2_pos e) as Hpe. pose proof (pow2_pos ld) as Hpd.
  pose proof (pow2_pos ln) as Hpn.
  assert (2 ^ (e + 1) == 2 * 2 ^ e) as He1
    by (rewrite pow2_add; change (2 ^ 1) with 2; ring).
  assert (2 * 2 ^ (e - 1) == 2 ^ e) as He0.
  { transitivity (2 ^ (e - 1) * 2 ^ 1); [change (2 ^ 1) with 2; ring|].
    rewrite <- pow2_add. by replace (e - 1 + 1)%Z with e by lia. }
  set (P := 2 ^ e) in *. set (A := 2 ^ ln) in *. set (B := 2 ^ ld) in *.
  assert (0 < D) by lra.
  assert (x < 2 * P) as Hup.
  { apply Qnot_le_lt. intros Hle.
    assert (2 * P * D <= x * D) by (apply Qmult_le_compat_r; lra).
    assert (P * B <= P * D) by (apply Qmult_le_l; lra).
    lra. }
  assert (P <= 2 * x) as Hlo.
  { apply Qnot_lt_le. intros Hlt.
    assert (2 * x * D < P * D) by (apply Qmult_lt_compat_r; lra).
    assert (P * D < P * (2 * B)) by (apply Qmult_lt_l; lra).
    lra. }
  destruct (Qle_bool P x) eqn:Hle.
  - apply Qle_bool_iff in Hle. split; [done|]. fold e. rewrite He1. done.
  - assert (x < P) as Hlt.
    { apply Qnot_le_lt. intros H'. apply Qle_bool_iff in H'. congruence. }
    fold e. replace (e - 1 + 1)%Z with e by lia. split; [|done].
    set (P0 := 2 ^ (e - 1)) in *. lra.
Qed.

Lemma ilog2_mono (x y : Q) : 0 < x → x <= y → (ilog2 x <= ilog2 y)%Z.
Proof.
  intros Hx Hxy.
  destruct (Z.le_gt_cases (ilog2 x) (ilog2 y)) as [|Hgt]; [done|]. exfalso.
  destruct (ilog2_spec x Hx) as [Hx1 _].
  destruct (ilog2_spec y) as [_ Hy2]; [lra|].
  pose proof (pow2_le (ilog2 y + 1) (ilog2 x)) as Hp. lra || (specialize (Hp ltac:(lia)); lra).
Qed.

Lemma round_even_bounds (x : Q) :
  (Qfloor x <= round_even x <= Qfloor x + 1)%Z.
Proof.
  unfold round_even.
  destruct (Qle_bool _ _); [|lia].
  destruct (Qle_bool _ _); [|lia].
  destruct (Z.even _); lia.
Qed.

Lemma round_even_Z (n : Z) : round_even (inject_Z n) = n.
Proof.
  unfold round_even. rewrite Qfloor_Z.
  destruct (Qle_bool (1 # 2) (inject_Z n - inject_Z n)) eqn:Hle; [|done].
  apply Qle_bool_iff in Hle. lra.
Qed.

Lemma round_even_mono (x y : Q) : x <= y → (round_even x <= round_even y)%Z.
Proof.
  intros Hxy.
  pose proof (Qfloor_resp_le x y Hxy) as Hf.
  pose proof (round_even_bounds x) as Hbx. pose proof (round_even_bounds y) as Hby.
  destruct (Z.eq_dec (Qfloor x) (Qfloor y)) as [Heq|Hne]; [|lia].
  unfold round_even in *. rewrite <- Heq in *.
  set (f := Qfloor x) in *.
  destruct (Qle_bool (1 # 2) (x - inject_Z f)) eqn:H1;
    destruct (Qle_bool (1 # 2) (y - inject_Z f)) eqn:H2;
    try destruct (Qle_bool (x - inject_Z f) (1 # 2)) eqn:H3;
    try destruct (Qle_bool (y - inject_Z f) (1 # 2)) eqn:H4;
    try destruct (Z.even f);
    try lia; exfalso;
    repeat match goal with
      | H : Qle_bool _ _ = true |- _ => apply Qle_bool_iff in H
      | H : Qle_bool ?a ?b = false |- _ =>
          assert (b < a)
            by (apply Qnot_le_lt; intros H'; apply Qle_bool_iff in H'; congruence);
          clear H
      end; lra.
Qed.

Lemma Qabs_pos_eq (x : Q) : 0 < x → Qabs x = x.
Proof.
  destruct x as [[|p|p] d]; unfold Qlt; simpl; intros H; try lia. reflexivity.
Qed.

Lemma round_pos_eq (x : Q) :
  0 < x →
  round x = inject_Z (round_even (x / 2 ^ (Z.max (ilog2 x) (-126) - 23)))
            * 2 ^ (Z.max (ilog2 x) (-126) - 23).
Proof.
  intros Hx. unfold round, ulp. rewrite Qabs_pos_eq by done.
  destruct (Qeq_bool x 0) eqn:H0; [|done].
  apply Qeq_bool_iff in H0. lra.
Qed.

Lemma round_bounds (x : Q) :
  0 < x →
  round x <= 2 ^ (Z.max (ilog2 x) (-126) + 1) ∧
  ((-126 <= ilog2 x)%Z → 2 ^ ilog2 x <= round x).
Proof.
  intros Hx. rewrite round_pos_eq by done.
  destruct (ilog2_spec x Hx) as [Hlo Hhi].
  set (e := Z.max (ilog2 x) (-126)).
  pose proof (pow2_pos (e - 23)) as Hq. set (q := 2 ^ (e - 23)) in *.
  assert (x / q * q == x) as Hxq by (field; lra).
  split.
  - assert (2 ^ (e + 1) == inject_Z (2 ^ 24) * q) as ->.
    { subst q. rewrite pow2_inject by done. rewrite <- pow2_add.
      by replace (24 + (e - 23))%Z with (e + 1)%Z by lia. }
    apply Qmult_le_compat_r; [|lra]. rewrite <- Zle_Qle.
    apply (Z.le_trans _ (round_even (inject_Z (2 ^ 24))));
      [|by rewrite round_even_Z].
    apply round_even_mono.
    apply Qle_shift_div_r; [done|].
    assert (inject_Z (2 ^ 24) * q == 2 ^ (e + 1)) as ->.
    { subst q. rewrite pow2_inject by done. rewrite <- pow2_add.
      by replace (24 + (e - 23))%Z with (e + 1)%Z by lia. }
    pose proof (pow2_le (ilog2 x + 1) (e + 1)) as Hp.
    specialize (Hp ltac:(subst e; lia)). lra.
  - intros Hnormal. assert (e = ilog2 x) as He by (subst e; lia).
    assert (2 ^ ilog2 x == inject_Z (2 ^ 23) * q) as Hpow.
    { subst q. rewrite pow2_inject by done. rewrite <- pow2_add.
      by replace (23 + (e - 23))%Z with (ilog2 x) by lia. }
    rewrite Hpow. apply Qmult_le_compat_r; [|lra]. rewrite <- Zle_Qle.
    apply (Z.le_trans _ (round_even (inject_Z (2 ^ 23))));
      [by rewrite round_even_Z|].
    apply round_even_mono.
    apply Qle_shift_div_l; [done|]. rewrite <- Hpow. done.
Qed.

Lemma round_nonneg (x : Q) : 0 <= x → 0 <= round x.
Proof.
  intros Hx. destruct (Qeq_bool x 0) eqn:H0.
  - unfold round. by rewrite H0.
  - assert (0 < x) as Hpos.
    { apply Qnot_le_lt. intros Hle. assert (x == 0) as Hz by lra.
      apply Qeq_bool_iff in Hz. congruence. }
    rewrite round_pos_eq by done.
    pose proof (pow2_pos (Z.max (ilog2 x) (-126) - 23)) as Hq.
    set (q := 2 ^ (Z.max (ilog2 x) (-126) - 23)) in *.
    apply Qmult_le_0_compat; [|lra].
    change 0 with (inject_Z 0). rewrite <- Zle_Qle.
    apply (Z.le_trans _ (round_even (inject_Z 0))); [by rewrite round_even_Z|].
    apply round_even_mono.
    apply Qle_shift_div_l; [done|]. change (inject_Z 0) with 0. lra.
Qed.

(** Rounding to [float] keeps the order of values that are not negative. *)
Lemma round_mono (x y : Q) : 0 <= x → x <= y → round x <= round y.
Proof.
  intros Hx Hxy. destruct (Qeq_bool x 0) eqn:H0.
  { unfold round at 1. rewrite H0. apply round_nonneg. lra. }
  assert (0 < x) as Hpos.
  { apply Qnot_le_lt. intros Hle. assert (x == 0) as Hz by lra.
    apply Qeq_bool_iff in Hz. congruence. }
  assert (0 < y) as Hposy by lra.
  pose proof (ilog2_mono x y Hpos Hxy) as Hlog.
  destruct (Z.eq_dec (Z.max (ilog2 x) (-126)) (Z.max (ilog2 y) (-126))) as [Heq|Hne].
  - rewrite !round_pos_eq by done. rewrite <- Heq.
    pose proof (pow2_pos (Z.max (ilog2 x) (-126) - 23)) as Hq.
    set (q := 2 ^ (Z.max (ilog2 x) (-126) - 23)) in *.
    apply Qmult_le_compat_r; [|lra]. rewrite <- Zle_Qle. apply round_even_mono.
    unfold Qdiv. apply Qmult_le_compat_r; [done|].
    apply Qlt_le_weak, Qinv_lt_0_compat. done.
  - destruct (round_bounds x Hpos) as [Hup _].
    destruct (round_bounds y Hposy) as [_ Hlow].
    specialize (Hlow ltac:(lia)).
    pose proof (pow2_le (Z.max (ilog2 x) (-126) + 1) (ilog2 y)) as Hp.
    specialize (Hp ltac:(lia)). lra.
Qed.

Lemma narrow_round (x r : Q) :
  narrow x = Some r → r == round x ∧ Qabs r <= FLT_MAX.
Proof.
  unfold narrow. destruct (Qle_bool _ _) eqn:Hle; [|done].
  intros [= <-]. apply Qle_bool_iff in Hle. split; [apply Qred_correct | done].
Qed.

(** A value between 0 and one that converts, converts, to a [float] between
    0 and that of the larger. *)
Lemma narrow_below (x y b : Q) :
  0 <= x → x <= y → narrow y = Some b →
  ∃ a, narrow x = Some a ∧ 0 <= a ∧ a <= b.
Proof.
  intros Hx Hxy Hy. apply narrow_round in Hy as [Hb Hmax].
  pose proof (round_nonneg x Hx) as H0. pose proof (round_mono x y Hx Hxy) as Hm.
  assert (Qred (round x) == round x) as Hred by apply Qred_correct.
  exists (Qred (round x)). unfold narrow.
  assert (Qle_bool (Qabs (Qred (round x))) FLT_MAX = true) as ->.
  { apply Qle_bool_iff. rewrite Hred, Qabs_pos by done.
    pose proof (Qle_Qabs b). lra. }
  split; [done|]. rewrite Hred. split; [done | lra].
Qed.

Lemma narrow_mono (x y a b : Q) :
  0 <= x → x <= y → narrow x = Some a → narrow y = Some b → a <= b.
Proof.
  intros Hx Hxy Ha Hb.
  destruct (narrow_below x y b Hx Hxy Hb) as (a' & Ha' & _ & Hle). congruence.
Qed.

End Float32Props.

(** 2^24 + 1 has no [float] of its own: it goes to 2^24. *)
Example narrow_16777217 : Float32.narrow 16777217 = Some 16777216%Q.
Proof. vm_compute. reflexivity. Qed.
(** ** Keys and line walking *)

Lemma Qfloor_unique (x : Q) (n : Z) :
  (inject_Z n <= x)%Q → (x < inject_Z (n + 1))%Q → Qfloor x = n.
Proof.
  intros Hlo Hhi.
  pose proof (Qfloor_le x) as Hf1. pose proof (Qlt_floor x) as Hf2.
  assert (Qfloor x < n + 1).
  { rewrite Zlt_Qlt. eapply Qle_lt_trans; eassumption. }
  assert (n < Qfloor x + 1).
  { rewrite Zlt_Qlt. eapply Qle_lt_trans; eassumption. }
  lia.
Qed.

Lemma Qfloor_half (i : Z) : Qfloor (inject_Z i + (1 # 2)) = i.
Proof.
  apply Qfloor_unique.
  - lra.
  - rewrite inject_Z_plus. change (inject_Z 1) with 1%Q. lra.
Qed.

Lemma to_i16_id (z : Z) : in_i16 z → to_i16 z = z.
Proof. unfold in_i16, to_i16. intros Hz. rewrite Z.mod_small; lia. Qed.

Lemma split_index (d region local : Z) :
  0 ≤ local < d → (region * d + local) / d = region ∧ (region * d + local) mod d = local.
Proof.
  intros Hl. split.
  - rewrite Z.add_comm, Z.div_add by lia. rewrite Z.div_small; lia.
  - rewrite Z.add_comm, Z.mod_add by lia. apply Z.mod_small; lia.
Qed.

Section KeyProps.
Variable m : OccupancyMapDetail.
Hypothesis resolution_pos : (0 < resolution m)%Q.

Lemma voxelIndex1_centre (a : Axis) (k : Key) :
  voxelIndex1 m a (voxelCentre m k) = axis_get a (indexOfKey m k).
Proof.
  unfold voxelIndex1.
  assert (∀ o i, Qfloor ((o + (inject_Z i + (1 # 2)) * resolution m - o) / resolution m) = i)
    as Hax.
  { intros o i. rewrite <- (Qfloor_half i) at 2. apply Qfloor_comp.
    field. lra. }
  unfold voxelCentre.
  destruct (origin m) as [[ox oy] oz], (indexOfKey m k) as [[ix iy] iz].
  destruct a; simpl; apply Hax.
Qed.

Lemma keyOfIndex_indexOfKey (k : Key) :
  valid_key (region_voxel_dimensions m) k → keyOfIndex m (indexOfKey m k) = k.
Proof.
  intros Hv. unfold keyOfIndex, indexOfKey.
  destruct k as [[[rx ry] rz] [[lx ly] lz]].
  destruct (region_voxel_dimensions m) as [[dx dy] dz].
  pose proof (Hv AxisX) as [Hrx Hlx]. pose proof (Hv AxisY) as [Hry Hly].
  pose proof (Hv AxisZ) as [Hrz Hlz]. simpl in *.
  destruct (split_index dx rx lx Hlx) as [-> ->].
  destruct (split_index dy ry ly Hly) as [-> ->].
  destruct (split_index dz rz lz Hlz) as [-> ->].
  by rewrite !to_i16_id.
Qed.

Lemma voxelKey_voxelCentre (k : Key) :
  valid_key (region_voxel_dimensions m) k → voxelKey m (voxelCentre m k) = k.
Proof.
  intros Hv. unfold voxelKey, voxelIndex. rewrite !voxelIndex1_centre.
  rewrite <- (keyOfIndex_indexOfKey k Hv) at 4. f_equal.
  by destruct (indexOfKey m k) as [[? ?] ?].
Qed.

Lemma indexOfKey_voxelKey (a : Axis) (p : dvec3) :
  representable m p →
  axis_get a (indexOfKey m (voxelKey m p)) = voxelIndex1 m a p.
Proof.
  intros Hr. unfold voxelKey, voxelIndex, keyOfIndex, indexOfKey.
  pose proof (Hr AxisX) as [Hdx Hx]. pose proof (Hr AxisY) as [Hdy Hy].
  pose proof (Hr AxisZ) as [Hdz Hz].
  destruct (region_voxel_dimensions m) as [[dx dy] dz]. simpl in *.
  rewrite !to_i16_id by done.
  destruct a; simpl.
  - pose proof (Z.div_mod (voxelIndex1 m AxisX p) dx). lia.
  - pose proof (Z.div_mod (voxelIndex1 m AxisY p) dy). lia.
  - pose proof (Z.div_mod (voxelIndex1 m AxisZ p) dz). lia.
Qed.

Lemma axis_get_voxelCentre (a : Axis) (k : Key) :
  axis_get a (voxelCentre m k)
  = (axis_get a (origin m)
     + (inject_Z (axis_get a (indexOfKey m k)) + (1 # 2)) * resolution m)%Q.
Proof.
  unfold voxelCentre.
  destruct (origin m) as [[? ?] ?], (indexOfKey m k) as [[? ?] ?].
  by destruct a.
Qed.

Lemma voxelCentre_voxelKey (a : Axis) (p : dvec3) :
  representable m p →
  (Qabs (axis_get a (voxelCentre m (voxelKey m p)) - axis_get a p)
     <= resolution m / 2)%Q.
Proof.
  intros Hr. rewrite axis_get_voxelCentre, indexOfKey_voxelKey by done.
  unfold voxelIndex1.
  set (o := axis_get a (origin m)). set (x := axis_get a p).
  set (r := resolution m) in *.
  pose proof (Qfloor_le ((x - o) / r)) as Hlo.
  pose proof (Qlt_floor ((x - o) / r)) as Hhi.
  set (i := Qfloor ((x - o) / r)) in *.
  rewrite inject_Z_plus in Hhi. change (inject_Z 1) with 1%Q in Hhi.
  assert ((x - o) / r * r == x - o)%Q as Hmul by (field; lra).
  assert (inject_Z i * r <= x - o)%Q as H1.
  { rewrite <- Hmul. apply Qmult_le_compat_r; lra. }
  assert (x - o < (inject_Z i + 1) * r)%Q as H2.
  { rewrite <- Hmul. apply Qmult_lt_compat_r; lra. }
  apply Qabs_Qle_condition.
  assert (r / 2 == r * (1 # 2))%Q as -> by (field).
  split; lra.
Qed.

End KeyProps.

(** C7. With a positive resolution, the key of the centre of the voxel of any
    key is that key, and for every point inside the representable range
    the centre of its voxel is within half the resolution of the point on
    each axis. *)
Theorem key_round_trip (m : OccupancyMapDetail) :
  (0 < resolution m)%Q →
  (∀ k, valid_key (region_voxel_dimensions m) k →
        voxelKey m (voxelCentre m k) = k) ∧
  (∀ p, representable m p →
        ∀ a, (Qabs (axis_get a (voxelCentre m (voxelKey m p)) - axis_get a p)
                <= resolution m / 2)%Q).
Proof.
  intros Hres. split.
  - intros k Hk. by apply voxelKey_voxelCentre.
  - intros p Hp a. by apply voxelCentre_voxelKey.
Qed.

Example walk_S3 :
  calculateSegmentKeys unit_map (pt 0 0 0) (pt 3 0 0) true
  = [key0 0 0 0; key0 1 0 0; key0 2 0 0; key0 3 0 0].
Proof. vm_compute. reflexivity. Qed.

Example walk_y :
  calculateSegmentKeys unit_map (pt 0 0 0) (pt 0 2 0) true
  = [key0 0 0 0; key0 0 1 0; key0 0 2 0].
Proof. vm_compute. reflexivity. Qed.

Example walk_diag :
  calculateSegmentKeys unit_map (1 # 2, 1 # 4, 1 # 2)%Q (- (5 # 2), 9 # 4, 1 # 2)%Q true
  = [ key0 0 0 0;
      {| regionKey := (-1, 0, 0); localKey := (31, 0, 0) |};
      {| regionKey := (-1, 0, 0); localKey := (31, 1, 0) |};
      {| regionKey := (-1, 0, 0); localKey := (30, 1, 0) |};
      {| regionKey := (-1, 0, 0); localKey := (29, 1, 0) |};
      {| regionKey := (-1, 0, 0); localKey := (29, 2, 0) |} ].
Proof. vm_compute. reflexivity. Qed.

Lemma key_round_trip_witness :
  voxelKey unit_map
    (voxelCentre unit_map {| regionKey := (-1, 0, 2); localKey := (31, 0, 7) |})
  = {| regionKey := (-1, 0, 2); localKey := (31, 0, 7) |} ∧
  (Qabs (axis_get AxisX
           (voxelCentre unit_map (voxelKey unit_map (- (7 # 3), 5 # 4, 100)%Q))
         - axis_get AxisX (- (7 # 3), 5 # 4, 100)%Q) <= resolution unit_map / 2)%Q.
Proof.
  destruct (key_round_trip unit_map) as [Hkey Hpoint]; [reflexivity|].
  split.
  - apply Hkey. intros []; vm_compute; intuition discriminate.
  - apply Hpoint. intros []; vm_compute; intuition discriminate.
Defined.


(** ** The line walker reaches the voxel of the end point *)

Section Walker.
Variable m : OccupancyMapDetail.

Lemma next_axis_live end_idx step t_delta cur t_max :
  cur ≠ end_idx →
  towards end_idx step t_delta cur t_max →
  axis_get (next_axis (live cur end_idx t_max)) cur
  ≠ axis_get (next_axis (live cur end_idx t_max)) end_idx.
Proof.
  intros Hne Hto.
  destruct cur as [[x y] z], end_idx as [[x1 y1] z1], t_max as [[tx ty] tz].
  pose proof (Hto AxisX) as HX. pose proof (Hto AxisY) as HY.
  pose proof (Hto AxisZ) as HZ. cbn [axis_get] in HX, HY, HZ.
  unfold live, next_axis. cbn [axis_get].
  destruct (decide (x = x1)) as [Hx|Hx]; destruct (decide (y = y1)) as [Hy|Hy];
    destruct (decide (z = z1)) as [Hz|Hz];
    try (destruct (HX Hx) as (_ & [? ->] & _));
    try (destruct (HY Hy) as (_ & [? ->] & _));
    try (destruct (HZ Hz) as (_ & [? ->] & _));
    cbn [t_le andb axis_get];
    repeat (match goal with |- context [Qle_bool ?a ?b] => destruct (Qle_bool a b) end;
            cbn [andb axis_get]);
    try done.
  congruence.
Qed.

Lemma manhattan_step end_idx cur a :
  axis_get a cur ≠ axis_get a end_idx →
  let cur' := axis_set a (axis_get a cur
                          + Z.sgn (axis_get a end_idx - axis_get a cur)) cur in
  manhattan cur end_idx = S (manhattan cur' end_idx) ∧
  manhattan cur cur' = 1%nat ∧
  (∀ b, axis_get b cur' ≠ axis_get b end_idx →
        axis_get b cur ≠ axis_get b end_idx ∧
        Z.sgn (axis_get b end_idx - axis_get b cur')
        = Z.sgn (axis_get b end_idx - axis_get b cur)).
Proof.
  destruct cur as [[x y] z], end_idx as [[x1 y1] z1].
  destruct a; cbn [axis_get axis_set manhattan]; intros Hne;
    (split_and!; [lia | lia |]);
    intros b; destruct b; cbn [axis_get]; lia.
Qed.

(** A walk with enough fuel is a path of unit steps from the current voxel
    to the end voxel, one step per voxel boundary between them; without the
    end point it is that path less its last voxel. *)
Lemma walk_loop_path end_idx step t_delta (fuel : nat) :
  ∀ cur t_max,
    towards end_idx step t_delta cur t_max →
    (manhattan cur end_idx ≤ fuel)%nat →
    let path := walk_loop fuel true end_idx step t_delta cur t_max in
    head path = Some cur ∧ last path = Some end_idx ∧
    length path = S (manhattan cur end_idx) ∧
    (∀ j i i', path !! j = Some i → path !! S j = Some i' → manhattan i i' = 1%nat) ∧
    walk_loop fuel false end_idx step t_delta cur t_max
    = take (manhattan cur end_idx) path.
Proof.
  induction fuel as [|fuel IH]; intros cur t_max Hto Hfuel; cbv zeta.
  - assert (cur = end_idx) as ->.
    { destruct cur as [[x y] z], end_idx as [[x1 y1] z1].
      cbn [manhattan] in Hfuel. f_equal; [f_equal|]; lia. }
    cbn [walk_loop]. destruct (decide (end_idx = end_idx)); [|done].
    assert (manhattan end_idx end_idx = 0%nat) as ->
      by (destruct end_idx as [[x y] z]; cbn [manhattan]; lia).
    split_and!; try done; intros j i i' _ Hj; by destruct j.
  - cbn [walk_loop]. destruct (decide (cur = end_idx)) as [->|Hne].
    { assert (manhattan end_idx end_idx = 0%nat) as ->
        by (destruct end_idx as [[x y] z]; cbn [manhattan]; lia).
      split_and!; try done; intros j i i' _ Hj; by destruct j. }
    set (a := next_axis (live cur end_idx t_max)).
    pose proof (next_axis_live _ _ _ _ _ Hne Hto) as Ha. fold a in Ha.
    destruct (Hto a Ha) as (Hstep & [tm Htm] & [td Htd]).
    rewrite Hstep.
    destruct (manhattan_step end_idx cur a Ha) as (Hdist & Hunit & Hkeep).
    set (cur' := axis_set a (axis_get a cur
                             + Z.sgn (axis_get a end_idx - axis_get a cur)) cur) in *.
    set (t_max' := axis_set a (t_add (axis_get a t_max) (axis_get a t_delta)) t_max).
    destruct (IH cur' t_max') as (Hhead & Hlast & Hlen & Hsteps & Hexcl).
    { intros b Hb. destruct (Hkeep b Hb) as [Hb0 Hsgn].
      destruct (Hto b Hb0) as (Hs & Hm & Hd). rewrite Hsgn.
      split_and!; [done | | done].
      subst t_max'. destruct a, b, t_max as [[tx ty] tz]; cbn [axis_get axis_set] in *;
        try done; rewrite Htm, Htd; by eexists. }
    { lia. }
    set (path := walk_loop fuel true end_idx step t_delta cur' t_max') in *.
    rewrite Hdist. split_and!.
    + done.
    + destruct path as [|i path]; [done|]. exact Hlast.
    + simpl. by rewrite Hlen.
    + intros [|j] i i' Hi Hi'.
      * simpl in Hi, Hi'. injection Hi as <-.
        destruct path as [|i0 path]; [done|]. simpl in Hhead, Hi'.
        injection Hhead as ->. by injection Hi' as <-.
      * simpl in Hi, Hi'. by eapply Hsteps.
    + rewrite Hexcl. done.
Qed.

Lemma sign_pos (d : Q) : (0 < d)%Q → sign d = 1.
Proof.
  unfold sign, Qlt. destruct d as [n q]. simpl. intros H. apply Z.sgn_pos. lia.
Qed.

Lemma sign_neg (d : Q) : (d < 0)%Q → sign d = -1.
Proof.
  unfold sign, Qlt. destruct d as [n q]. simpl. intros H. apply Z.sgn_neg. lia.
Qed.

Lemma voxelIndex1_mono (a : Axis) (p q : dvec3) :
  (0 < resolution m)%Q →
  (axis_get a p <= axis_get a q)%Q → voxelIndex1 m a p ≤ voxelIndex1 m a q.
Proof.
  intros Hres Hle. unfold voxelIndex1. apply Qfloor_resp_le.
  unfold Qdiv. apply Qmult_le_compat_r; [lra|].
  apply Qlt_le_weak, Qinv_lt_0_compat. done.
Qed.

Lemma towards_start (start end_ : dvec3) :
  (0 < resolution m)%Q →
  let dir := vsub end_ start in
  let i0 := voxelIndex m start in
  towards (voxelIndex m end_) (vec3_map sign dir)
    (t_delta1 m AxisX dir, t_delta1 m AxisY dir, t_delta1 m AxisZ dir) i0
    (t_max1 m AxisX start dir i0, t_max1 m AxisY start dir i0,
     t_max1 m AxisZ start dir i0).
Proof.
  intros Hres. cbv zeta. intros a Ha.
  assert (axis_get a (voxelIndex m start) = voxelIndex1 m a start) as Hi0
    by (by destruct a).
  assert (axis_get a (voxelIndex m end_) = voxelIndex1 m a end_) as Hi1
    by (by destruct a).
  assert (axis_get a (vsub end_ start) = (axis_get a end_ - axis_get a start)%Q) as Hd
    by (destruct a, start as [[? ?] ?], end_ as [[? ?] ?]; reflexivity).
  assert (axis_get a (vec3_map sign (vsub end_ start))
          = sign (axis_get a (vsub end_ start))) as Hs
    by (destruct a, start as [[? ?] ?], end_ as [[? ?] ?]; reflexivity).
  rewrite Hi0, Hi1 in *. rewrite Hs.
  assert (sign (axis_get a (vsub end_ start))
          = Z.sgn (voxelIndex1 m a end_ - voxelIndex1 m a start)
          ∧ sign (axis_get a (vsub end_ start)) ≠ 0) as [Hsgn Hnz].
  { rewrite Hd.
    destruct (Qlt_le_dec (axis_get a start) (axis_get a end_)) as [Hlt|Hge].
    - pose proof (voxelIndex1_mono a start end_ Hres (Qlt_le_weak _ _ Hlt)).
      rewrite sign_pos by lra. rewrite Z.sgn_pos by lia. done.
    - pose proof (voxelIndex1_mono a end_ start Hres Hge).
      destruct (Qlt_le_dec (axis_get a end_) (axis_get a start)) as [Hlt|Hle].
      + rewrite sign_neg by lra. rewrite Z.sgn_neg by lia. done.
      + pose proof (voxelIndex1_mono a start end_ Hres Hle). lia. }
  split; [done|].
  assert (is_Some (t_max1 m a start (vsub end_ start) (voxelIndex m start))
          ∧ is_Some (t_delta1 m a (vsub end_ start))) as [Hm Ht].
  { unfold t_max1, t_delta1.
    destruct (sign (axis_get a (vsub end_ start))); [done | |]; split; by eexists. }
  by destruct a.
Qed.

(** With a positive resolution the walk of a segment starts in the voxel
    of its start, ends in the voxel of its end, and goes there by steps to a
    neighbouring voxel, one per voxel boundary between the two. *)
Lemma segment_indices_path (start end_ : dvec3) :
  (0 < resolution m)%Q →
  let path := segment_indices m start end_ true in
  head path = Some (voxelIndex m start) ∧
  last path = Some (voxelIndex m end_) ∧
  length path = S (manhattan (voxelIndex m start) (voxelIndex m end_)) ∧
  (∀ j i i', path !! j = Some i → path !! S j = Some i' → manhattan i i' = 1%nat) ∧
  segment_indices m start end_ false
  = take (manhattan (voxelIndex m start) (voxelIndex m end_)) path.
Proof.
  intros Hres. unfold segment_indices.
  apply walk_loop_path; [by apply towards_start | done].
Qed.

Lemma calculateSegmentKeys_ends (start end_ : dvec3) :
  (0 < resolution m)%Q →
  head (calculateSegmentKeys m start end_ true) = Some (voxelKey m start) ∧
  last (calculateSegmentKeys m start end_ true) = Some (voxelKey m end_) ∧
  length (calculateSegmentKeys m start end_ true)
  = S (manhattan (voxelIndex m start) (voxelIndex m end_)) ∧
  calculateSegmentKeys m start end_ false
  = take (manhattan (voxelIndex m start) (voxelIndex m end_))
      (calculateSegmentKeys m start end_ true).
Proof.
  intros Hres.
  destruct (segment_indices_path start end_ Hres) as (Hhead & Hlast & Hlen & _ & Hexcl).
  unfold calculateSegmentKeys, voxelKey.
  split_and!.
  - destruct (segment_indices m start end_ true); [done|]. simpl in *. congruence.
  - rewrite fmap_last, Hlast. done.
  - by rewrite length_fmap.
  - by rewrite Hexcl, fmap_take.
Qed.

End Walker.

(** A segment whose end lies on voxel boundaries, walked against the x
    axis: the walk ends in the voxel of the end point. *)
Example walk_back :
  calculateSegmentKeys unit_map (pt 0 0 0) (pt (-3) 1 0) true
  = [ key0 0 0 0;
      {| regionKey := (-1, 0, 0); localKey := (31, 0, 0) |};
      {| regionKey := (-1, 0, 0); localKey := (30, 0, 0) |};
      {| regionKey := (-1, 0, 0); localKey := (29, 0, 0) |};
      {| regionKey := (-1, 0, 0); localKey := (29, 1, 0) |} ].
Proof. vm_compute. reflexivity. Qed.
(** ** Ray integration keeps values within the clamps *)

Lemma clamp_range (x lo hi : Q) :
  (lo <= hi)%Q → (lo <= clamp x lo hi ∧ clamp x lo hi <= hi)%Q.
Proof.
  intros Hle. unfold clamp, Qltb.
  destruct (Qle_bool lo x) eqn:H1; simpl.
  - apply Qle_bool_iff in H1.
    destruct (Qle_bool x hi) eqn:H2; simpl.
    + apply Qle_bool_iff in H2. split; lra.
    + split; lra.
  - split; lra.
Qed.

Lemma voxelValue_setVoxelValue (m : OccupancyMap) (k k' : Key) (v : Q) :
  voxelValue (setVoxelValue m k v) k'
  = if decide (k = k') then Some v else voxelValue m k'.
Proof.
  unfold voxelValue, setVoxelValue, chunkFor. cbn [chunks].
  destruct k as [r l], k' as [r' l']; cbn [regionKey localKey].
  destruct (decide (r = r')) as [<-|Hr].
  - rewrite lookup_insert_eq. cbn [occupancy].
    destruct (decide (l = l')) as [<-|Hl].
    + rewrite lookup_insert_eq. by rewrite decide_True.
    + rewrite lookup_insert_ne by done.
      rewrite decide_False by congruence.
      by destruct (chunks m !! r).
  - rewrite lookup_insert_ne by done. by rewrite decide_False by congruence.
Qed.

Lemma detail_integrateMiss flags k m : detail (integrateMiss flags k m) = detail m.
Proof.
  unfold integrateMiss.
  destruct (voxelValue m k); [done|]. by destruct (has_flag _ _).
Qed.

Lemma detail_integrateHit flags k m : detail (integrateHit flags k m) = detail m.
Proof.
  unfold integrateHit.
  destruct (voxelValue m k); [done|]. by destruct (has_flag _ _).
Qed.

Section Clamping.
Variable d : OccupancyMapDetail.
Hypothesis clamps_ordered : (min_voxel_value d <= max_voxel_value d)%Q.

Local Abbreviation inv := (clamped_with d).

Lemma inv_setVoxelValue m k x :
  inv m →
  inv (setVoxelValue m k (clamp x (min_voxel_value d) (max_voxel_value d))).
Proof.
  intros [Hd Hc]. split; [done|].
  intros k' v. rewrite voxelValue_setVoxelValue. cbn [detail setVoxelValue].
  rewrite Hd. case_decide.
  - intros [= <-]. by apply clamp_range.
  - intros Hv. apply Hc in Hv. by rewrite Hd in Hv.
Qed.

Lemma inv_integrateMiss flags k m : inv m → inv (integrateMiss flags k m).
Proof.
  intros Hi. unfold integrateMiss. rewrite (proj1 Hi).
  destruct (voxelValue m k); [by apply inv_setVoxelValue|].
  destruct (has_flag _ _); [done | by apply inv_setVoxelValue].
Qed.

Lemma inv_integrateHit flags k m : inv m → inv (integrateHit flags k m).
Proof.
  intros Hi. unfold integrateHit. rewrite (proj1 Hi).
  destruct (voxelValue m k); [by apply inv_setVoxelValue|].
  destruct (has_flag _ _); [done | by apply inv_setVoxelValue].
Qed.

Lemma inv_integrateTraversed flags keys at_origin m :
  inv m → inv (integrateTraversed flags at_origin keys m).1.
Proof.
  revert at_origin m. induction keys as [|k rest IH]; intros at_origin m Hi; simpl.
  - done.
  - destruct (at_origin && has_flag flags kRfExcludeOrigin); [by apply IH|].
    destruct (has_flag flags kRfStopOnFirstOccupied && isOccupied m k); [done|].
    apply IH. by apply inv_integrateMiss.
Qed.

Lemma inv_integrateEndPoint flags k m : inv m → inv (integrateEndPoint flags k m).
Proof.
  intros Hi. unfold integrateEndPoint.
  destruct (has_flag flags kRfExcludeSample); [done|].
  destruct (has_flag flags kRfStopOnFirstOccupied && isOccupied m k); [done|].
  destruct (has_flag flags kRfEndPointAsFree || has_flag flags kRfClearOnly).
  - by apply inv_integrateMiss.
  - by apply inv_integrateHit.
Qed.

Lemma inv_integrateRay flags s e m : inv m → inv (integrateRay flags s e m).
Proof.
  intros Hi. unfold integrateRay.
  pose proof (inv_integrateTraversed flags
                (calculateSegmentKeys (detail m) s e false) true m Hi) as Ht.
  destruct (integrateTraversed _ _ _ _) as [m1 stopped]; simpl in Ht.
  destruct stopped; [done|]. by apply inv_integrateEndPoint.
Qed.

Lemma inv_integratePairs flags rays m : inv m → inv (integratePairs flags rays m).
Proof.
  revert m. induction rays as [rays IH] using (induction_ltof1 _ (@length _)).
  unfold ltof in IH. intros m Hi.
  destruct rays as [|s [|e rest]]; [done | done |]. simpl.
  apply IH; [simpl; lia|]. by apply inv_integrateRay.
Qed.

Lemma inv_integrateRays m rays n flags :
  inv m → inv (integrateRays m rays n flags).1.
Proof.
  intros Hi. unfold integrateRays.
  destruct (Nat.odd n); [done|]. by apply inv_integratePairs.
Qed.

Lemma inv_integrateSequence calls m : inv m → inv (integrateSequence m calls).
Proof.
  unfold integrateSequence. revert m.
  induction calls as [|[rays flags] calls IH]; intros m Hi; simpl; [done|].
  apply IH. by apply inv_integrateRays.
Qed.

Lemma inv_emptyMap : inv (emptyMap d).
Proof. split; [done|]. intros k v. unfold voxelValue. simpl. by rewrite lookup_empty. Qed.

End Clamping.

(** C2. After any sequence of [integrateRays] calls, with any flags and any
    rays, on a map whose values are within the clamps (a new map in
    particular), every voxel either is UNOBSERVED (holds no value) or
    holds a value in [[min_value, max_value]]. *)
Theorem integrateRays_clamped (m : OccupancyMap) (calls : list (list dvec3 * N)) :
  (min_voxel_value (detail m) <= max_voxel_value (detail m))%Q →
  clamped m →
  ∀ k, match voxelValue (integrateSequence m calls) k with
       | None => True
       | Some v => (min_voxel_value (detail m) <= v ∧ v <= max_voxel_value (detail m))%Q
       end.
Proof.
  intros Hord Hc k.
  destruct (inv_integrateSequence (detail m) Hord calls m) as [Hd Hc']; [done|].
  destruct (voxelValue _ k) as [v|] eqn:Hv; [|done].
  apply Hc' in Hv. by rewrite Hd in Hv.
Qed.

Lemma integrateRays_clamped_witness :
  match voxelValue (integrateSequence (emptyMap unit_map) three_calls) (key0 3 0 0) with
  | None => True
  | Some v => (-2 <= v ∧ v <= 7 # 2)%Q
  end.
Proof.
  apply (integrateRays_clamped (emptyMap unit_map) three_calls).
  - vm_compute. discriminate.
  - apply inv_emptyMap.
Defined.

Example integrate_S1 :
  voxelValue (integrateSequence (emptyMap unit_map) [([pt 0 0 0; pt 3 0 0], kRfDefault)])
    <$> [key0 0 0 0; key0 1 0 0; key0 2 0 0; key0 3 0 0; key0 4 0 0]
  = [Some (- (2 # 5))%Q; Some (- (2 # 5))%Q; Some (- (2 # 5))%Q; Some (17 # 20); None].
Proof. vm_compute. reflexivity. Qed.

Example integrate_three_calls :
  voxelValue (integrateSequence (emptyMap unit_map) three_calls) (key0 3 0 0)
  = Some (680 # 400).
Proof. vm_compute. reflexivity. Qed.

Example integrate_S2_saturates :
  voxelValue (integrateSequence (emptyMap unit_map)
                (replicate 100 ([pt 0 0 0; pt 3 0 0], kRfDefault)))
    <$> [key0 0 0 0; key0 3 0 0]
  = [Some (-2)%Q; Some (7 # 2)].
Proof. vm_compute. reflexivity. Qed.

(** ** The test's CPU reference is ray integration with the default flags *)

Lemma has_flag_default f : has_flag kRfDefault f = false.
Proof. unfold has_flag, kRfDefault. by rewrite N.land_0_l. Qed.

Lemma integrateTraversed_default keys at_origin m :
  integrateTraversed kRfDefault at_origin keys m
  = (foldl (λ m key, integrateMiss kRfDefault key m) m keys, false).
Proof.
  revert at_origin m. induction keys as [|k keys IH]; intros at_origin m; [done|].
  cbn [integrateTraversed foldl]. rewrite !has_flag_default, andb_false_r.
  cbn [andb]. apply IH.
Qed.

Lemma detail_foldl_integrateMiss flags keys m :
  detail (foldl (λ m key, integrateMiss flags key m) m keys) = detail m.
Proof.
  revert m. induction keys as [|k keys IH]; intros m; [done|].
  cbn [foldl]. by rewrite IH, detail_integrateMiss.
Qed.

Lemma integrateEndPoint_default k m :
  integrateEndPoint kRfDefault k m = integrateHit kRfDefault k m.
Proof. unfold integrateEndPoint. by rewrite !has_flag_default. Qed.

Lemma GpuMapTest_integrateRays_pairs (n : nat) :
  ∀ rays m,
    length rays = (2 * n)%nat →
    GpuMapTest.integrateRays m rays = Some (integratePairs kRfDefault rays m).
Proof.
  induction n as [|n IH]; intros rays m Hlen.
  - by destruct rays.
  - destruct rays as [|s [|e rays]]; simpl in Hlen; try lia.
    cbn [GpuMapTest.integrateRays integratePairs]. unfold integrateRay.
    rewrite integrateTraversed_default, integrateEndPoint_default.
    rewrite detail_foldl_integrateMiss. apply IH. lia.
Qed.

(** On an even number of points the reference of the test is
    [integrateRays] with the default flags. *)
Lemma GpuMapTest_integrateRays_default (n : nat) rays m :
  length rays = (2 * n)%nat →
  GpuMapTest.integrateRays m rays
  = Some (integrateRays m rays (length rays) kRfDefault).1.
Proof.
  intros Hlen. rewrite (GpuMapTest_integrateRays_pairs n) by done.
  unfold integrateRays. rewrite Hlen at 1.
  rewrite Nat.odd_mul. cbn [Nat.odd Nat.even negb andb fst].
  by rewrite firstn_all.
Qed.

(** ** RayPattern::buildRays *)

Section BuildRays.
Import RayPattern.
Variables (position : dvec3) (rotation : dquat) (scaling : Q).

Local Abbreviation ray_end := (RayPattern.ray_end position rotation scaling).

Lemma foldl_pairs (pts : list dvec3) (out : list dvec3) :
  foldl (λ out point, out ++ [position; ray_end point]) out pts
  = out ++ flat_map (λ point, [position; ray_end point]) pts.
Proof.
  revert out. induction pts as [|p pts IH]; intros out; simpl.
  - by rewrite app_nil_r.
  - rewrite IH. by rewrite <- app_assoc.
Qed.

Lemma buildRays_flat imp rays :
  (buildRays imp rays position rotation scaling).1
  = flat_map (λ point, [position; ray_end point]) (points imp).
Proof. exact (foldl_pairs (points imp) []). Qed.

Lemma pairs_length (pts : list dvec3) :
  length (flat_map (λ point, [position; ray_end point]) pts) = (2 * length pts)%nat.
Proof. induction pts as [|p pts IH]; simpl; [done | lia]. Qed.

Lemma pairs_lookup (pts : list dvec3) (i : nat) (point : dvec3) :
  pts !! i = Some point →
  flat_map (λ point, [position; ray_end point]) pts !! (2 * i)%nat = Some position ∧
  flat_map (λ point, [position; ray_end point]) pts !! (2 * i + 1)%nat
    = Some (ray_end point).
Proof.
  revert i. induction pts as [|p pts IH]; intros i Hi; [done|].
  destruct i as [|i]; simpl in Hi.
  - inversion Hi; subst. by split.
  - destruct (IH i Hi) as [H0 H1].
    replace (2 * S i)%nat with (S (S (2 * i))) by lia.
    replace (S (S (2 * i)) + 1)%nat with (S (S (2 * i + 1))) by lia.
    by split.
Qed.

End BuildRays.

Lemma rotate_identity (v : dvec3) : veq (rotate quat_identity v) v.
Proof.
  destruct v as [[x y] z]. unfold rotate, quat_identity, veq; simpl.
  split_and!; ring.
Qed.

Lemma ray_end_identity (v : dvec3) :
  veq (RayPattern.ray_end (0, 0, 0)%Q quat_identity 1 v) v.
Proof.
  destruct v as [[x y] z]. unfold RayPattern.ray_end, rotate, quat_identity, veq; simpl.
  split_and!; ring.
Qed.

(** C4. For a pattern of [pointCount] stored offsets and any position,
    rotation and scaling, [buildRays] yields [2 * pointCount] points (and
    returns that count); entry [2 i] is [position] and entry [2 i + 1] is
    [position + scaling (rotation * offset_i)]; with the identity rotation,
    scaling 1 and position 0, entry [2 i + 1] is the stored offset. *)
Theorem buildRays_layout (imp : RayPattern.RayPatternDetail) (rays : list dvec3)
    (position : dvec3) (rotation : dquat) (scaling : Q) :
  let out := RayPattern.buildRays imp rays position rotation scaling in
  length out.1 = (2 * RayPattern.pointCount imp)%nat ∧
  out.2 = (2 * RayPattern.pointCount imp)%nat ∧
  (∀ i offset, RayPattern.points imp !! i = Some offset →
     out.1 !! (2 * i)%nat = Some position ∧
     out.1 !! (2 * i + 1)%nat
       = Some (vadd position (vscale scaling (rotate rotation offset)))) ∧
  (∀ i offset, RayPattern.points imp !! i = Some offset →
     ∃ e, (RayPattern.buildRays imp rays (0, 0, 0)%Q quat_identity 1).1
            !! (2 * i + 1)%nat = Some e ∧ veq e offset).
Proof.
  cbn zeta. split_and!.
  - rewrite buildRays_flat. apply pairs_length.
  - change (length (RayPattern.buildRays imp rays position rotation scaling).1
            = (2 * RayPattern.pointCount imp)%nat).
    rewrite buildRays_flat. apply pairs_length.
  - intros i offset Hi. rewrite buildRays_flat. by apply pairs_lookup.
  - intros i offset Hi. rewrite buildRays_flat.
    destruct (pairs_lookup (0, 0, 0)%Q quat_identity 1 _ i offset Hi) as [_ H1].
    eexists; split; [exact H1|]. apply ray_end_identity.
Qed.

Lemma buildRays_layout_witness :
  (RayPattern.buildRays star_pattern [] (pt 1 2 3)
     {| qw := 0; qx := 0; qy := 0; qz := 1 |} 2).1 !! 3%nat
  = Some (vadd (pt 1 2 3)
            (vscale 2 (rotate {| qw := 0; qx := 0; qy := 0; qz := 1 |} (pt 0 3 0)))).
Proof.
  destruct (buildRays_layout star_pattern [] (pt 1 2 3)
              {| qw := 0; qx := 0; qy := 0; qz := 1 |} 2) as (_ & _ & Hat & _).
  apply (Hat 1%nat (pt 0 3 0)). reflexivity.
Defined.

Example buildRays_star :
  (RayPattern.buildRays star_pattern [] (0, 0, 0)%Q quat_identity 1).2 = 6%nat.
Proof. reflexivity. Qed.

(** ** ClearingPattern::apply *)

(** C5. For every clearing pattern and every map, position, rotation and
    scaling, [apply] builds the ray set from the wrapped pattern with those
    transform arguments, keeps it as its ray set, and calls the map's
    [integrateRays] once, on that ray set, all of it, with the flags
    [kRfEndPointAsFree | kRfStopOnFirstOccupied | kRfClearOnly] and no
    other flag. *)
Theorem apply_integrates_pattern {Map : Type}
    (buildRays : RayPattern.RayPatternDetail → list dvec3 → dvec3 → dquat → Q
                 → list dvec3 * nat)
    (integrateRays : Map → list dvec3 → nat → N → Map)
    (imp : ClearingPattern.ClearingPatternDetail) (map : Map)
    (position : dvec3) (rotation : dquat) (scaling : Q) :
  let rays :=
    (buildRays (ClearingPattern.pattern imp) (ClearingPattern.ray_set imp)
       position rotation scaling).1 in
  let out :=
    ClearingPattern.apply buildRays integrateRays imp map position rotation scaling in
  ClearingPattern.ray_set out.1 = rays ∧
  ClearingPattern.pattern out.1 = ClearingPattern.pattern imp ∧
  ClearingPattern.has_pattern_ownership out.1
    = ClearingPattern.has_pattern_ownership imp ∧
  out.2 = integrateRays map rays (length rays) clearing_flags ∧
  ClearingPattern.apply buildRays (λ calls r n f, calls ++ [(r, n, f)]) imp []
    position rotation scaling
    = (out.1, [(rays, length rays, clearing_flags)]) ∧
  (has_flag clearing_flags kRfEndPointAsFree = true ∧
   has_flag clearing_flags kRfStopOnFirstOccupied = true ∧
   has_flag clearing_flags kRfClearOnly = true ∧
   has_flag clearing_flags kRfExcludeOrigin = false ∧
   has_flag clearing_flags kRfExcludeSample = false ∧
   has_flag clearing_flags kRfExcludeUnobserved = false).
Proof.
  cbn zeta. unfold ClearingPattern.apply.
  cbn [fst snd ClearingPattern.ray_set ClearingPattern.pattern
       ClearingPattern.has_pattern_ownership].
  split_and!; reflexivity.
Qed.

(** With the ray pattern of the spec the element count passed on is twice the
    number of pattern points. *)
Lemma apply_element_count {Map : Type}
    (integrateRays : Map → list dvec3 → nat → N → Map)
    (imp : ClearingPattern.ClearingPatternDetail) (map : Map)
    (position : dvec3) (rotation : dquat) (scaling : Q) :
  (ClearingPattern.apply RayPattern.buildRays integrateRays imp map
     position rotation scaling).2
  = integrateRays map
      (RayPattern.buildRays (ClearingPattern.pattern imp)
         (ClearingPattern.ray_set imp) position rotation scaling).1
      (2 * RayPattern.pointCount (ClearingPattern.pattern imp))%nat
      clearing_flags.
Proof.
  unfold ClearingPattern.apply. cbn [snd].
  by rewrite buildRays_flat, pairs_length.
Qed.
(** ** Scenario S4: a clearing ray halts at the first occupied voxel *)

Lemma voxelValue_integrateMiss_ne flags k k' m :
  k ≠ k' → voxelValue (integrateMiss flags k m) k' = voxelValue m k'.
Proof.
  intros Hne. unfold integrateMiss.
  destruct (voxelValue m k).
  - rewrite voxelValue_setVoxelValue. by rewrite decide_False.
  - destruct (has_flag _ _); [done|].
    rewrite voxelValue_setVoxelValue. by rewrite decide_False.
Qed.

Lemma isOccupied_integrateMiss_ne flags k k' m :
  k ≠ k' → isOccupied (integrateMiss flags k m) k' = isOccupied m k'.
Proof.
  intros Hne. unfold isOccupied.
  by rewrite voxelValue_integrateMiss_ne, detail_integrateMiss.
Qed.

(** One step of the traversal under the clearing flags. *)
Lemma integrateTraversed_clearing at_origin k rest m :
  integrateTraversed clearing_flags at_origin (k :: rest) m
  = if isOccupied m k then (m, true)
    else integrateTraversed clearing_flags false rest
           (integrateMiss clearing_flags k m).
Proof.
  cbn [integrateTraversed].
  change (has_flag clearing_flags kRfExcludeOrigin) with false.
  change (has_flag clearing_flags kRfStopOnFirstOccupied) with true.
  by rewrite andb_false_r.
Qed.

Lemma single_ray_set rays :
  (RayPattern.buildRays single_ray_pattern rays (0, 0, 0)%Q quat_identity 1).1
  = [(0, 0, 0)%Q; (5, 0, 0)%Q].
Proof. reflexivity. Qed.

Lemma single_ray_keys hit miss lo hi threshold :
  calculateSegmentKeys (scenario_detail hit miss lo hi threshold)
    (0, 0, 0)%Q (5, 0, 0)%Q false
  = [key0 0 0 0; key0 1 0 0; key0 2 0 0; key0 3 0 0; key0 4 0 0].
Proof. vm_compute. reflexivity. Qed.

(** C6. The clearing pattern with the single offset (5, 0, 0), applied at
    position (0, 0, 0) with the identity rotation and scaling 1 to a map
    (resolution 1) whose only occupied voxels are (2, 0, 0) and (4, 0, 0) of
    region (0, 0, 0): afterwards voxel (2, 0, 0) holds the value it held and is
    still occupied, and voxel (4, 0, 0) holds the value it held. *)
Theorem clearing_pattern_halts_at_first_occupied
    (m : OccupancyMap) (hit miss lo hi threshold : Q) :
  detail m = scenario_detail hit miss lo hi threshold →
  (∀ k, isOccupied m k = true ↔ k = key0 2 0 0 ∨ k = key0 4 0 0) →
  let m' :=
    (ClearingPattern.apply RayPattern.buildRays OccupancyMap_integrateRays
       (ClearingPattern.create single_ray_pattern false) m
       (0, 0, 0)%Q quat_identity 1).2 in
  voxelValue m' (key0 2 0 0) = voxelValue m (key0 2 0 0) ∧
  isOccupied m' (key0 2 0 0) = true ∧
  voxelValue m' (key0 4 0 0) = voxelValue m (key0 4 0 0) ∧
  isOccupied m' (key0 4 0 0) = true.
Proof.
  intros Hd Hocc.
  assert (isOccupied m (key0 0 0 0) = false) as H0.
  { apply not_true_is_false. intros H. apply Hocc in H as [?|?]; discriminate. }
  assert (isOccupied m (key0 1 0 0) = false) as H1.
  { apply not_true_is_false. intros H. apply Hocc in H as [?|?]; discriminate. }
  assert (isOccupied m (key0 2 0 0) = true) as H2 by (apply Hocc; by left).
  assert (isOccupied m (key0 4 0 0) = true) as H4 by (apply Hocc; by right).
  cbn zeta. unfold ClearingPattern.apply, OccupancyMap_integrateRays.
  cbn [snd ClearingPattern.pattern ClearingPattern.ray_set ClearingPattern.create].
  rewrite single_ray_set. fold clearing_flags.
  unfold integrateRays. cbn [length Nat.odd Nat.even negb take fst integratePairs].
  unfold integrateRay. rewrite Hd, single_ray_keys.
  rewrite integrateTraversed_clearing, H0.
  rewrite integrateTraversed_clearing, isOccupied_integrateMiss_ne, H1 by done.
  rewrite integrateTraversed_clearing, !isOccupied_integrateMiss_ne, H2 by done.
  unfold isOccupied in *.
  rewrite !detail_integrateMiss, !voxelValue_integrateMiss_ne by done.
  by split_and!.
Qed.

Lemma two_obstacles_occupied k :
  isOccupied two_obstacles k = true ↔ k = key0 2 0 0 ∨ k = key0 4 0 0.
Proof.
  unfold isOccupied, two_obstacles.
  rewrite !voxelValue_setVoxelValue.
  destruct (decide (key0 4 0 0 = k)) as [<-|H4]; [by intuition|].
  destruct (decide (key0 2 0 0 = k)) as [<-|H2]; [by intuition|].
  unfold voxelValue, emptyMap; cbn [chunks]. rewrite lookup_empty.
  split; [done|]. intros [?|?]; congruence.
Defined.

Lemma clearing_pattern_halts_at_first_occupied_witness :
  voxelValue
    (ClearingPattern.apply RayPattern.buildRays OccupancyMap_integrateRays
       (ClearingPattern.create single_ray_pattern false) two_obstacles
       (0, 0, 0)%Q quat_identity 1).2 (key0 2 0 0)
  = voxelValue two_obstacles (key0 2 0 0).
Proof.
  apply (clearing_pattern_halts_at_first_occupied two_obstacles
           (17 # 20) (- (2 # 5)) (-2) (7 # 2) 0).
  - reflexivity.
  - exact two_obstacles_occupied.
Defined.

Example clearing_pattern_S4_values :
  map (voxelValue
         (ClearingPattern.apply RayPattern.buildRays OccupancyMap_integrateRays
            (ClearingPattern.create single_ray_pattern false) two_obstacles
            (0, 0, 0)%Q quat_identity 1).2)
      [key0 0 0 0; key0 1 0 0; key0 2 0 0; key0 3 0 0; key0 4 0 0; key0 5 0 0]
  = [Some (- (2 # 5))%Q; Some (- (2 # 5))%Q; Some (17 # 20); None; Some (17 # 10); None].
Proof. vm_compute. reflexivity. Qed.

(** ** LineKeysQueryGpu::onExecute, CPU fall back *)

Section CpuLoop.
Import LineKeysQueryGpu.
Variable walk : OccupancyMap → dvec3 → dvec3 → bool → list Key.

Lemma segments_length (pts : list dvec3) (n : nat) :
  length pts = (2 * n)%nat → length (segments pts) = n.
Proof.
  revert pts. induction n as [|n IH]; intros pts Hlen.
  - by destruct pts.
  - destruct pts as [|a [|b rest]]; simpl in Hlen; try lia.
    simpl. f_equal. apply IH. lia.
Qed.

Lemma cpu_loop_spec (n : nat) :
  ∀ (rest : list dvec3) (i0 : nat) (d : LineKeysQueryDetailGpu),
    length rest = (2 * n)%nat →
    (i0 + n ≤ length (resultIndices d))%nat →
    (i0 + n ≤ length (resultCounts d))%nat →
    ∃ d', cpu_loop walk (2 * i0) rest d = Some d' ∧
      map d' = map d ∧ rays d' = rays d ∧ query_flags d' = query_flags d ∧
      gpuOk d' = gpuOk d ∧ inflight d' = inflight d ∧
      number_of_results d' = number_of_results d ∧
      intersected_voxels d'
        = intersected_voxels d ++ concat (segment_keys walk (map d) <$> segments rest) ∧
      length (resultIndices d') = length (resultIndices d) ∧
      length (resultCounts d') = length (resultCounts d) ∧
      (∀ j, (j < i0)%nat → resultIndices d' !! j = resultIndices d !! j) ∧
      (∀ j, (j < i0)%nat → resultCounts d' !! j = resultCounts d !! j) ∧
      (∀ j, (j < n)%nat →
         resultCounts d' !! (i0 + j)%nat = counts_of walk (map d) rest !! j) ∧
      (∀ j, (j < n)%nat →
         resultIndices d' !! (i0 + j)%nat
         = Some (length (intersected_voxels d)
                 + sum_list (take j (counts_of walk (map d) rest)))%nat).
Proof.
  induction n as [|n IH]; intros rest i0 d Hlen Hidx Hcnt.
  - destruct rest; [|done]. exists d. simpl.
    rewrite app_nil_r. split_and!; try done; intros j Hj; lia.
  - destruct rest as [|a [|b rest]]; simpl in Hlen; try lia.
    cbn [cpu_loop].
    replace (2 * i0 / 2)%nat with i0
      by (rewrite Nat.mul_comm, Nat.div_mul; lia).
    replace (2 * i0 + 2)%nat with (2 * S i0)%nat by lia.
    set (keys := walk (map d) a b true).
    set (d1 := with_results d _ _ _ _).
    destruct (IH rest (S i0) d1) as (d' & Hrun & Hmap & Hrays & Hqf & Hok & Hin
      & Hnum & Hiv & Hli & Hlc & Hpi & Hpc & Hc & Hi).
    { lia. }
    { subst d1. cbn [resultIndices with_results]. rewrite length_insert. lia. }
    { subst d1. cbn [resultCounts with_results]. rewrite length_insert. lia. }
    exists d'. split; [exact Hrun|].
    subst d1. cbn [map rays query_flags gpuOk inflight number_of_results
      intersected_voxels resultIndices resultCounts with_results] in *.
    rewrite length_insert in Hli, Hlc.
    split_and!; try done.
    + rewrite Hiv. cbn [segments fmap list_fmap concat].
      by rewrite <- app_assoc.
    + intros j Hj. rewrite Hpi by lia. apply list_lookup_insert_ne. lia.
    + intros j Hj. rewrite Hpc by lia. apply list_lookup_insert_ne. lia.
    + intros j Hj. destruct j as [|j].
      * rewrite Nat.add_0_r, Hpc by lia.
        rewrite list_lookup_insert_eq by lia. done.
      * replace (i0 + S j)%nat with (S i0 + j)%nat by lia.
        rewrite Hc by lia. done.
    + intros j Hj. destruct j as [|j].
      * rewrite Nat.add_0_r, Hpi by lia.
        rewrite list_lookup_insert_eq by lia. simpl. f_equal. lia.
      * replace (i0 + S j)%nat with (S i0 + j)%nat by lia.
        rewrite Hi by lia. f_equal. rewrite length_app.
        unfold counts_of. cbn [segments fmap list_fmap take sum_list sum_list_with].
        change (segment_keys walk (map d) (a, b)) with keys. unfold id. lia.
Qed.

Lemma cpu_loop_map (pts : list dvec3) :
  ∀ i d d', cpu_loop walk i pts d = Some d' → map d' = map d.
Proof.
  induction pts as [pts IH] using (induction_ltof1 _ (@length _)).
  unfold ltof in IH. intros i d d'.
  destruct pts as [|a [|b pts]]; cbn [cpu_loop]; [by intros [= ->] | done |].
  intros Hrun. apply IH in Hrun; [|simpl; lia]. by rewrite Hrun.
Qed.

Lemma length_resize n v : length (resize n v) = n.
Proof.
  unfold resize. rewrite length_app, length_take, length_replicate. lia.
Qed.

End CpuLoop.

Section OnExecuteProps.
Import LineKeysQueryGpu.
Variable walk : OccupancyMap → dvec3 → dvec3 → bool → list Key.
Variable kQfGpuEvaluate : N.
Variable LineKeysQuery_onExecute : LineKeysQueryDetailGpu → LineKeysQueryDetailGpu * bool.
Variable line_key_bound : Q → dvec3 → dvec3 → nat.
Variable calculateLines :
  list Key → nat → list dvec3 → nat → Z * Z * Z → Q → option (list Key).

(** The run of [onExecute] on the CPU fall back path: GPU evaluation asked
    for, no GPU to be had. *)
Lemma onExecute_fallback (d : LineKeysQueryDetailGpu) (n : nat) :
  has_flag (query_flags d) kQfGpuEvaluate = true →
  gpuOk d = false →
  length (rays d) = (2 * n)%nat →
  ∃ d',
    onExecute walk kQfGpuEvaluate LineKeysQuery_onExecute false
      line_key_bound calculateLines d = Some (d', true) ∧
    map d' = map d ∧ rays d' = rays d ∧
    length (resultIndices d') = n ∧
    length (resultCounts d') = n ∧
    number_of_results d' = n ∧
    resultCounts d' = counts_of walk (map d) (rays d) ∧
    (∀ i, (i < n)%nat →
       resultIndices d' !! i
       = Some (length (intersected_voxels d)
               + sum_list (take i (resultCounts d')))%nat) ∧
    intersected_voxels d'
      = intersected_voxels d ++ concat (segment_keys walk (map d) <$> segments (rays d)).
Proof.
  intros Hflag Hgpu Hlen. unfold onExecute, initialiseGpu.
  rewrite Hflag, Hgpu. cbn [negb fst].  rewrite Hgpu.
  cbn [rays with_results].
  replace (length (rays d) / 2)%nat with n
    by (rewrite Hlen, Nat.mul_comm, Nat.div_mul; lia).
  set (d0 := with_results d _ _ _ _).
  destruct (cpu_loop_spec walk n (rays d) 0 d0) as (d' & Hrun & Hmap & Hrays & _ & _ & _
    & _ & Hiv & Hli & Hlc & _ & _ & Hc & Hi).
  { done. }
  { subst d0. cbn [resultIndices with_results]. rewrite length_resize. lia. }
  { subst d0. cbn [resultCounts with_results]. rewrite length_resize. lia. }
  change (2 * 0)%nat with 0%nat in Hrun. rewrite Hrun.
  subst d0. cbn [map rays intersected_voxels resultIndices resultCounts
    with_results] in *.
  rewrite length_resize in Hli, Hlc.
  assert (resultCounts d' = counts_of walk (map d) (rays d)) as Hcounts.
  { apply list_eq. intros j. destruct (decide (j < n)%nat) as [Hj|Hj].
    - by apply Hc.
    - rewrite !lookup_ge_None_2; [done | |lia].
      unfold counts_of. rewrite length_fmap, (segments_length _ n); [lia|done]. }
  eexists. split; [reflexivity|].
  cbn [map rays intersected_voxels resultIndices resultCounts
    number_of_results with_results].
  split_and!; try done.
  intros i Hi'. rewrite Hcounts. by apply Hi.
Qed.

Lemma lineKeysQueryGpu_map d d' ok :
  lineKeysQueryGpu line_key_bound calculateLines d = Some (d', ok) → map d' = map d.
Proof.
  unfold lineKeysQueryGpu.
  destruct (max_keys_loop _ _ _ _) as [max_keys|]; [|done].
  destruct (upload_points _) as [uploaded|]; [|done].
  destruct (Float32.narrow _) as [resolution_f|]; [|done].
  destruct (calculateLines _ _ _ _ _ _); by intros [= <- <-].
Qed.

Lemma read_loop_map lines_left :
  ∀ i offset d d', read_loop lines_left i offset d = Some d' → map d' = map d.
Proof.
  induction lines_left as [|lines_left IH]; intros i offset d d'; cbn [read_loop].
  - by intros [= ->].
  - destruct (linesOut d !! offset) as [slot|]; [|done].
    destruct (_ <? 0); [done|].
    destruct (_ =? 0).
    + intros Hrun. apply IH in Hrun. by rewrite Hrun.
    + destruct (_ <? _)%nat; [done|].
      intros Hrun. apply IH in Hrun. by rewrite Hrun.
Qed.


Lemma readGpuResults_map d d' ok :
  readGpuResults d = Some (d', ok) → map d' = map d.
Proof.
  unfold readGpuResults.
  destruct (read_loop _ _ _ _) as [d1|] eqn:Hrun; [|done].
  intros [= <- <-]. apply read_loop_map in Hrun.
  cbn [map with_results with_gpu] in *. done.
Qed.



(** Whatever path [onExecute] takes, the map comes out as it went in,
    provided the base class path leaves it alone. *)
Lemma onExecute_map gpu_available (d d' : LineKeysQueryDetailGpu) (ok : bool) :
  (∀ q, map (LineKeysQuery_onExecute q).1 = map q) →
  onExecute walk kQfGpuEvaluate LineKeysQuery_onExecute gpu_available
    line_key_bound calculateLines d = Some (d', ok) →
  map d' = map d.
Proof.
  intros Hbase. unfold onExecute.
  destruct (negb (has_flag (query_flags d) kQfGpuEvaluate)).
  { specialize (Hbase d). destruct (LineKeysQuery_onExecute d) as [q b].
    intros [= <- <-]. exact Hbase. }
  assert (map (initialiseGpu gpu_available d).1 = map d) as Hinit.
  { unfold initialiseGpu. destruct (gpuOk d); [done|]. by destruct gpu_available. }
  set (d1 := (initialiseGpu gpu_available d).1) in *.
  destruct (gpuOk d1).
  { destruct (lineKeysQueryGpu _ _ d1) as [[d2 [|]]|] eqn:Hgpu; [| |done].
    - intros Hread. apply readGpuResults_map in Hread.
      apply lineKeysQueryGpu_map in Hgpu. congruence.
    - intros [= <- <-]. apply lineKeysQueryGpu_map in Hgpu. congruence. }
  cbn [rays with_results].
  destruct (cpu_loop walk 0 (rays d1) _) as [d2|] eqn:Hrun; [|done].
  intros [= <- <-]. cbn [map with_results].
  apply cpu_loop_map in Hrun. by rewrite Hrun.
Qed.

(** An asynchronous query that started is in flight. *)
Lemma onExecuteAsync_inflight gpu_available (d d' : LineKeysQueryDetailGpu) :
  onExecuteAsync kQfGpuEvaluate gpu_available line_key_bound calculateLines d
    = Some (d', true) →
  inflight d' = true ∧ map d' = map d.
Proof.
  unfold onExecuteAsync.
  destruct (has_flag _ _); [|done].
  assert (map (initialiseGpu gpu_available d).1 = map d) as Hinit.
  { unfold initialiseGpu. destruct (gpuOk d); [done|]. by destruct gpu_available. }
  destruct (gpuOk _); [|done].
  unfold lineKeysQueryGpu.
  destruct (max_keys_loop _ _ _ _); [|done].
  destruct (upload_points _) as [uploaded|]; [|done].
  destruct (Float32.narrow _) as [resolution_f|]; [|done].
  destruct (calculateLines _ _ _ _ _ _); [|done].
  intros [= <-]. by split.
Qed.

End OnExecuteProps.




(** C9. Executing the query over any batch of segments leaves the occupancy
    map as it was: the region table with every chunk in it, and so every
    voxel value, is the same after the run, on the GPU path and on the CPU
    fall back (and on the base class path, outside this file, given that it
    does not write to the map); the CPU fall back always completes such a
    run. *)
Theorem onExecute_leaves_map_unchanged
    (walk : OccupancyMap → dvec3 → dvec3 → bool → list Key) (kQfGpuEvaluate : N)
    (LineKeysQuery_onExecute :
       LineKeysQueryGpu.LineKeysQueryDetailGpu
       → LineKeysQueryGpu.LineKeysQueryDetailGpu * bool)
    (line_key_bound : Q → dvec3 → dvec3 → nat)
    (calculateLines :
       list Key → nat → list dvec3 → nat → Z * Z * Z → Q → option (list Key)) :
  (∀ q, LineKeysQueryGpu.map (LineKeysQuery_onExecute q).1 = LineKeysQueryGpu.map q) →
  (∀ gpu_available d d' ok,
     LineKeysQueryGpu.onExecute walk kQfGpuEvaluate LineKeysQuery_onExecute
       gpu_available line_key_bound calculateLines d = Some (d', ok) →
     LineKeysQueryGpu.map d' = LineKeysQueryGpu.map d ∧
     chunks (LineKeysQueryGpu.map d') = chunks (LineKeysQueryGpu.map d) ∧
     ∀ k, voxelValue (LineKeysQueryGpu.map d') k
          = voxelValue (LineKeysQueryGpu.map d) k) ∧
  (∀ d n,
     has_flag (LineKeysQueryGpu.query_flags d) kQfGpuEvaluate = true →
     LineKeysQueryGpu.gpuOk d = false →
     length (LineKeysQueryGpu.rays d) = (2 * n)%nat →
     ∃ d',
       LineKeysQueryGpu.onExecute walk kQfGpuEvaluate LineKeysQuery_onExecute false
         line_key_bound calculateLines d = Some (d', true) ∧
       LineKeysQueryGpu.map d' = LineKeysQueryGpu.map d).
Proof.
  intros Hbase. split.
  - intros gpu_available d d' ok Hrun.
    apply (onExecute_map _ _ _ _ _ _ _ _ _ Hbase) in Hrun.
    rewrite Hrun. by split_and!.
  - intros d n Hflag Hok Hlen.
    destruct (onExecute_fallback walk kQfGpuEvaluate LineKeysQuery_onExecute
                line_key_bound calculateLines d n Hflag Hok Hlen)
      as (d' & Hrun & Hmap & _).
    by exists d'.
Qed.

Lemma onExecute_leaves_map_unchanged_witness :
  ∃ d',
    LineKeysQueryGpu.onExecute OccupancyMap_calculateSegmentKeys 4 no_base_query
      false some_key_bound failing_kernel (S5_query 4)
      = Some (d', true) ∧
    LineKeysQueryGpu.map d' = emptyMap unit_map.
Proof.
  destruct (onExecute_leaves_map_unchanged OccupancyMap_calculateSegmentKeys 4
              no_base_query some_key_bound failing_kernel) as [_ Hrun];
    [reflexivity |].
  apply (Hrun (S5_query 4) 2%nat); reflexivity.
Defined.

(** The GPU path on the batch of S5 with a kernel that reports two keys per
    line: start indices and counts line up in the same way. *)
Example onExecute_gpu_path :
  (λ r, (LineKeysQueryGpu.resultIndices r.1, LineKeysQueryGpu.resultCounts r.1,
         length (LineKeysQueryGpu.intersected_voxels r.1), LineKeysQueryGpu.inflight r.1,
         LineKeysQueryGpu.map r.1, r.2))
    <$> LineKeysQueryGpu.onExecute OccupancyMap_calculateSegmentKeys 4 no_base_query
          true some_key_bound two_key_kernel (S5_query 4)
  = Some ([0; 2]%nat, [2; 2]%nat, 4%nat, false, emptyMap unit_map, true).
Proof. vm_compute. reflexivity. Qed.

(** ** LineKeysQueryGpu::onWaitAsync *)

Section OnWaitAsyncProps.
Import LineKeysQueryGpu.
Context {World : Type}.
Variable inflight_in : World → bool.
Variable now : World → Z.
Variable ticks_per_ms : Z.
Variable pass : World → World.

Lemma iter_pass_r (k : nat) (w : World) :
  Nat.iter k pass (pass w) = Nat.iter (S k) pass w.
Proof. induction k as [|k IH]; [done|]. simpl in *. by rewrite IH. Qed.

(** The loop only watches: the world at its exit is the world it entered,
    moved on by the world itself. *)
Lemma wait_loop_watches polls timeout_ms start_time w w' :
  wait_loop inflight_in now ticks_per_ms pass polls timeout_ms start_time w = Some w' →
  ∃ k, w' = Nat.iter k pass w.
Proof.
  revert w. induction polls as [|polls IH]; intros w; cbn [wait_loop].
  - destruct (inflight_in w); [done|]. intros [= <-]. by exists 0%nat.
  - destruct (inflight_in w); [|intros [= <-]; by exists 0%nat].
    destruct (_ && _).
    + intros [= <-]. by exists 1%nat.
    + intros Hrun. apply IH in Hrun as [k ->]. exists (S (S k)).
      by rewrite !iter_pass_r.
Qed.

(** With a timeout other than [~0u], the loop ends once the clock stays
    past the deadline. *)
Lemma wait_loop_times_out (n : nat) timeout_ms start_time :
  timeout_ms ≠ 4294967295%N →
  ∀ w,
    (∀ k, (n ≤ k)%nat →
       ticks_per_ms * Z.of_N timeout_ms ≤ now (Nat.iter k pass w) - start_time) →
    is_Some (wait_loop inflight_in now ticks_per_ms pass (S n) timeout_ms start_time w).
Proof.
  intros Hne. apply N.eqb_neq in Hne.
  induction n as [|n IH]; intros w Hclock; cbn [wait_loop].
  - destruct (inflight_in w); [|done]. rewrite Hne. cbn [negb andb].
    specialize (Hclock 1%nat). simpl in Hclock.
    destruct (Z.leb_spec (ticks_per_ms * Z.of_N timeout_ms) (now (pass w) - start_time));
      [done | lia].
  - destruct (inflight_in w); [|done]. destruct (_ && _); [done|].
    apply IH. intros k Hk. rewrite !iter_pass_r. apply Hclock. lia.
Qed.

(** The loop ends, whatever the timeout, once the query stays completed. *)
Lemma wait_loop_completes (n : nat) timeout_ms start_time :
  ∀ w,
    (∀ k, (n ≤ k)%nat → inflight_in (Nat.iter k pass w) = false) →
    is_Some (wait_loop inflight_in now ticks_per_ms pass (S n) timeout_ms start_time w).
Proof.
  induction n as [|n IH]; intros w Hdone.
  - pose proof (Hdone 0%nat (le_n _)) as H0. simpl in H0.
    cbn [wait_loop]. by rewrite H0.
  - change (wait_loop inflight_in now ticks_per_ms pass (S (S n)) timeout_ms start_time w)
      with (if inflight_in w
            then let w1 := pass w in
                 if negb (timeout_ms =? 4294967295)%N
                    && (ticks_per_ms * Z.of_N timeout_ms <=? now w1 - start_time)
                 then Some w1
                 else wait_loop inflight_in now ticks_per_ms pass (S n)
                        timeout_ms start_time (pass w1)
            else Some w).
    destruct (inflight_in w); [|done]. cbn zeta. destruct (_ && _); [done|].
    apply IH. intros k Hk. rewrite !iter_pass_r. apply Hdone. lia.
Qed.

Lemma iter_pass_2 (k : nat) (w : World) :
  Nat.iter k pass (pass (pass w)) = Nat.iter (k + 2) pass w.
Proof.
  rewrite !iter_pass_r. replace (k + 2)%nat with (S (S k)) by lia. done.
Qed.

(** The looks the loop takes: the condition is evaluated at the even moves
    of the world, the clock read at the odd ones.  The loop goes round for
    as long as it sees the query in flight and the deadline not reached; it
    ends the first time it sees the query completed, or the deadline
    reached (never so for [~0u]). *)
Lemma wait_loop_trace polls timeout_ms start_time :
  ∀ w w',
    wait_loop inflight_in now ticks_per_ms pass polls timeout_ms start_time w = Some w' →
    ∃ j,
      (∀ i, (i < j)%nat →
         inflight_in (Nat.iter (2 * i) pass w) = true ∧
         (timeout_ms = 4294967295%N ∨
          now (Nat.iter (2 * i + 1) pass w) - start_time
          < ticks_per_ms * Z.of_N timeout_ms)) ∧
      ((w' = Nat.iter (2 * j) pass w ∧ inflight_in w' = false) ∨
       (w' = Nat.iter (2 * j + 1) pass w ∧
        inflight_in (Nat.iter (2 * j) pass w) = true ∧
        timeout_ms ≠ 4294967295%N ∧
        ticks_per_ms * Z.of_N timeout_ms ≤ now w' - start_time)).
Proof.
  induction polls as [|polls IH]; intros w w'; cbn [wait_loop].
  - destruct (inflight_in w) eqn:Hin; [done|]. intros [= <-].
    exists 0%nat. split; [intros i Hi; lia|]. by left.
  - destruct (inflight_in w) eqn:Hin.
    2:{ intros [= <-]. exists 0%nat. split; [intros i Hi; lia|]. by left. }
    destruct (N.eqb_spec timeout_ms 4294967295) as [Heq|Hne]; cbn [negb andb].
    + intros Hrun. apply IH in Hrun as (j & Hbefore & Hexit).
      exists (S j). split.
      * intros [|i] Hi; [split; [done | by left]|].
        replace (2 * S i)%nat with (2 * i + 2)%nat by lia.
        replace (2 * i + 2 + 1)%nat with (2 * i + 1 + 2)%nat by lia.
        rewrite <- !iter_pass_2. apply Hbefore. lia.
      * replace (2 * S j)%nat with (2 * j + 2)%nat by lia.
        replace (2 * j + 2 + 1)%nat with (2 * j + 1 + 2)%nat by lia.
        rewrite <- !iter_pass_2. exact Hexit.
    + destruct (Z.leb_spec (ticks_per_ms * Z.of_N timeout_ms) (now (pass w) - start_time))
        as [Hdl|Hdl].
      * intros [= <-]. exists 0%nat. split; [intros i Hi; lia|]. right. by split_and!.
      * intros Hrun. apply IH in Hrun as (j & Hbefore & Hexit).
        exists (S j). split.
        -- intros [|i] Hi; [split; [done | by right]|].
           replace (2 * S i)%nat with (2 * i + 2)%nat by lia.
           replace (2 * i + 2 + 1)%nat with (2 * i + 1 + 2)%nat by lia.
           rewrite <- !iter_pass_2. apply Hbefore. lia.
        -- replace (2 * S j)%nat with (2 * j + 2)%nat by lia.
           replace (2 * j + 2 + 1)%nat with (2 * j + 1 + 2)%nat by lia.
           rewrite <- !iter_pass_2. exact Hexit.
Qed.

End OnWaitAsyncProps.

(** C8 (amended). For every timeout, the flag [wait] returns is true exactly
    when the query is no longer in flight at the time of return, and the wait
    itself changes nothing (it does not cancel the query).  For every timeout
    other than [~0u] the wait returns once the timeout has elapsed, with false
    if the query is still in flight then; for every timeout it returns once
    the query has completed.  It does not return before: at every look
    before the last it saw the query in flight and the deadline not
    reached, and at the last it saw the query completed or, the timeout not
    being [~0u], the clock at or past the deadline.  With the timeout [~0u]
    it keeps waiting for as long as the query is in flight: if the query
    never completes, the wait never returns. *)
Theorem onWaitAsync_completion_flag {World : Type}
    (inflight_in : World → bool) (now : World → Z) (ticks_per_ms : Z)
    (pass : World → World) :
  (∀ polls timeout_ms w b w',
     LineKeysQueryGpu.onWaitAsync inflight_in now ticks_per_ms pass polls timeout_ms w
       = Some (b, w') →
     (b = true ↔ inflight_in w' = false) ∧ ∃ k, w' = Nat.iter k pass w) ∧
  (∀ timeout_ms w n,
     timeout_ms ≠ 4294967295%N →
     (∀ k, (n ≤ k)%nat →
        ticks_per_ms * Z.of_N timeout_ms ≤ now (Nat.iter k pass w) - now w) →
     ∃ polls w',
       LineKeysQueryGpu.onWaitAsync inflight_in now ticks_per_ms pass polls timeout_ms w
         = Some (negb (inflight_in w'), w')) ∧
  (∀ timeout_ms w n,
     (∀ k, (n ≤ k)%nat → inflight_in (Nat.iter k pass w) = false) →
     ∃ polls w',
       LineKeysQueryGpu.onWaitAsync inflight_in now ticks_per_ms pass polls timeout_ms w
         = Some (negb (inflight_in w'), w')) ∧
  (∀ polls timeout_ms w b w',
     LineKeysQueryGpu.onWaitAsync inflight_in now ticks_per_ms pass polls timeout_ms w
       = Some (b, w') →
     ∃ j last,
       w' = pass last ∧
       (∀ i, (i < j)%nat →
          inflight_in (Nat.iter (2 * i + 1) pass w) = true ∧
          (timeout_ms = 4294967295%N ∨
           now (Nat.iter (2 * i + 2) pass w) - now w
           < ticks_per_ms * Z.of_N timeout_ms)) ∧
       ((last = Nat.iter (2 * j + 1) pass w ∧ inflight_in last = false) ∨
        (last = Nat.iter (2 * j + 2) pass w ∧
         inflight_in (Nat.iter (2 * j + 1) pass w) = true ∧
         timeout_ms ≠ 4294967295%N ∧
         ticks_per_ms * Z.of_N timeout_ms ≤ now last - now w))) ∧
  (∀ w,
     (∀ k, inflight_in (Nat.iter k pass w) = true) →
     ∀ polls,
       LineKeysQueryGpu.onWaitAsync inflight_in now ticks_per_ms pass polls 4294967295 w
       = None).
Proof.
  assert (∀ polls timeout_ms w b w',
     LineKeysQueryGpu.onWaitAsync inflight_in now ticks_per_ms pass polls timeout_ms w
       = Some (b, w') →
     ∃ j last,
       w' = pass last ∧
       (∀ i, (i < j)%nat →
          inflight_in (Nat.iter (2 * i + 1) pass w) = true ∧
          (timeout_ms = 4294967295%N ∨
           now (Nat.iter (2 * i + 2) pass w) - now w
           < ticks_per_ms * Z.of_N timeout_ms)) ∧
       ((last = Nat.iter (2 * j + 1) pass w ∧ inflight_in last = false) ∨
        (last = Nat.iter (2 * j + 2) pass w ∧
         inflight_in (Nat.iter (2 * j + 1) pass w) = true ∧
         timeout_ms ≠ 4294967295%N ∧
         ticks_per_ms * Z.of_N timeout_ms ≤ now last - now w))) as Htrace.
  { intros polls timeout_ms w b w'. unfold LineKeysQueryGpu.onWaitAsync.
    destruct (LineKeysQueryGpu.wait_loop _ _ _ _ _ _ _ _) as [w1|] eqn:Hloop; [|done].
    intros [= <- <-].
    apply wait_loop_trace in Hloop as (j & Hbefore & Hexit).
    exists j, w1. split; [done|].
    assert (∀ k, Nat.iter k pass (pass w) = Nat.iter (k + 1) pass w) as Hshift.
    { intros k. rewrite iter_pass_r. f_equal. lia. }
    setoid_rewrite Hshift in Hbefore. rewrite !Hshift in Hexit.
    split.
    - intros i Hi. destruct (Hbefore i Hi) as [H1 H2].
      replace (2 * i + 2)%nat with (2 * i + 1 + 1)%nat by lia. done.
    - replace (2 * j + 2)%nat with (2 * j + 1 + 1)%nat by lia. exact Hexit. }
  split_and!.
  - intros polls timeout_ms w b w'. unfold LineKeysQueryGpu.onWaitAsync.
    destruct (LineKeysQueryGpu.wait_loop _ _ _ _ _ _ _ _) as [w1|] eqn:Hloop; [|done].
    intros [= <- <-]. split.
    + by destruct (inflight_in (pass w1)).
    + apply wait_loop_watches in Hloop as [k ->]. exists (S (S k)).
      by rewrite iter_pass_r.
  - intros timeout_ms w n Hne Hclock.
    destruct (wait_loop_times_out inflight_in now ticks_per_ms pass n timeout_ms
                (now w) Hne (pass w)) as [w1 Hloop].
    { intros k Hk. rewrite iter_pass_r. apply Hclock. lia. }
    exists (S n), (pass w1). unfold LineKeysQueryGpu.onWaitAsync. by rewrite Hloop.
  - intros timeout_ms w n Hdone.
    destruct (wait_loop_completes inflight_in now ticks_per_ms pass n timeout_ms
                (now w) (pass w)) as [w1 Hloop].
    { intros k Hk. rewrite iter_pass_r. apply Hdone. lia. }
    exists (S n), (pass w1). unfold LineKeysQueryGpu.onWaitAsync. by rewrite Hloop.
  - exact Htrace.
  - intros w Hstuck polls.
    destruct (LineKeysQueryGpu.onWaitAsync _ _ _ _ _ _ _) as [[b w']|] eqn:Hrun; [|done].
    apply Htrace in Hrun as (j & last & _ & _ & [[-> Hdone]|(_ & _ & Hne & _)]).
    + rewrite Hstuck in Hdone. done.
    + done.
Qed.

Lemma iter_S_0 (k : nat) : Nat.iter k S 0%nat = k.
Proof. induction k as [|k IH]; [done|]. simpl. by rewrite IH. Qed.

Lemma onWaitAsync_completion_flag_witness :
  ∃ polls w',
    LineKeysQueryGpu.onWaitAsync stuck_inflight ms_clock 1 S polls 3 0%nat
      = Some (negb (stuck_inflight w'), w').
Proof.
  destruct (onWaitAsync_completion_flag stuck_inflight ms_clock 1 S) as (_ & Htimeout & _).
  apply (Htimeout 3%N 0%nat 3%nat).
  - discriminate.
  - intros k Hk. rewrite iter_S_0. unfold ms_clock. lia.
Defined.

Example onWaitAsync_times_out :
  LineKeysQueryGpu.onWaitAsync stuck_inflight ms_clock 1 S 10 3 0%nat = Some (false, 5%nat).
Proof. reflexivity. Qed.

Example onWaitAsync_completes :
  LineKeysQueryGpu.onWaitAsync done_at_5 ms_clock 1 S 10 100 0%nat = Some (true, 6%nat).
Proof. reflexivity. Qed.

Lemma wait_loop_forever (polls : nat) (start_time : Z) (w : nat) :
  LineKeysQueryGpu.wait_loop stuck_inflight fast_clock 1 S polls 4294967295 start_time w
  = None.
Proof.
  revert w. induction polls as [|polls IH]; intros w; [done|].
  cbn [LineKeysQueryGpu.wait_loop]. unfold stuck_inflight at 1.
  change (4294967295 =? 4294967295)%N with true. cbn [negb andb]. apply IH.
Qed.

(** C8 as stated fails for the timeout [~0u]: with the query in flight and the
    clock past the timeout at the first look (and ever after), the wait does
    not return false; it does not return. *)
Lemma onWaitAsync_no_timeout_at_sentinel :
  1 * Z.of_N 4294967295 ≤ fast_clock 1 - fast_clock 0 ∧
  ¬ ∃ polls r,
      LineKeysQueryGpu.onWaitAsync stuck_inflight fast_clock 1 S polls 4294967295 0%nat
        = Some r.
Proof.
  split; [vm_compute; discriminate|].
  intros (polls & r & Hrun). unfold LineKeysQueryGpu.onWaitAsync in Hrun.
  by rewrite wait_loop_forever in Hrun.
Qed.

(** * Further properties of the code *)

(** ** nextPow2 (ohmgpu/LineKeysQueryGpu.cpp) *)

Section NextPow2.
Import LineKeysQueryGpu.

Lemma smeared_start x : smeared x 1 x.
Proof.
  intros i Hi. split.
  - intros Hb. exists 0. split; [lia|]. by rewrite Z.add_0_r.
  - intros (j & Hj & Hb). by replace (i + j) with i in Hb by lia.
Qed.

Lemma smeared_double x n y :
  0 < n → smeared x n y → smeared x (2 * n) (Z.lor y (Z.shiftr y n)).
Proof.
  intros Hn Hy i Hi.
  rewrite Z.lor_spec, Z.shiftr_spec, orb_true_iff by lia.
  rewrite (Hy i Hi), (Hy (i + n)) by lia. split.
  - intros [(j & Hj & Hb)|(j & Hj & Hb)].
    + exists j. split; [lia | done].
    + exists (n + j). split; [lia|]. by rewrite Z.add_assoc.
  - intros (j & Hj & Hb). destruct (Z.lt_ge_cases j n) as [Hlt|Hge].
    + left. exists j. split; [lia | done].
    + right. exists (j - n). split; [lia|].
      by replace (i + n + (j - n)) with (i + j) by lia.
Qed.

(** The five or-shift steps fill every bit below the highest one. *)
Lemma smear_ones (x : Z) :
  0 < x < 2 ^ 32 →
  let v := Z.lor x (Z.shiftr x 1) in
  let v := Z.lor v (Z.shiftr v 2) in
  let v := Z.lor v (Z.shiftr v 4) in
  let v := Z.lor v (Z.shiftr v 8) in
  let v := Z.lor v (Z.shiftr v 16) in
  v = Z.ones (Z.log2 x + 1).
Proof.
  intros Hx. cbv zeta.
  pose proof (smeared_start x) as H1.
  apply (smeared_double _ 1) in H1; [|lia].
  apply (smeared_double _ 2) in H1; [|lia].
  apply (smeared_double _ 4) in H1; [|lia].
  apply (smeared_double _ 8) in H1; [|lia].
  apply (smeared_double _ 16) in H1; [|lia].
  change (2 * 1) with 1 in H1. change (2 * 2) with 4 in H1.
  change (2 * 4) with 8 in H1. change (2 * 8) with 16 in H1.
  change (2 * 16) with 32 in H1. change (2 * 1) with 2 in H1.
  assert (0 ≤ Z.log2 x < 32) as Hp.
  { split; [apply Z.log2_nonneg|]. apply Z.log2_lt_pow2; lia. }
  apply Z.bits_inj'. intros i Hi.
  destruct (Z.lt_ge_cases i (Z.log2 x + 1)) as [Hlow|Hhigh].
  - rewrite Z.ones_spec_low by lia.
    apply H1; [done|].
    exists (Z.log2 x - i). split; [lia|].
    replace (i + (Z.log2 x - i)) with (Z.log2 x) by lia.
    apply Z.bit_log2. lia.
  - rewrite Z.ones_spec_high by lia.
    apply not_true_is_false. intros Hb. apply H1 in Hb as (j & Hj & Hb); [|done].
    rewrite Z.bits_above_log2 in Hb; [done | lia | lia].
Qed.

Lemma nextPow2_smear (v : Z) :
  0 < u32 (v - 1) →
  nextPow2 v = u32 (Z.ones (Z.log2 (u32 (v - 1)) + 1) + 1).
Proof.
  intros Hx. unfold nextPow2. cbv zeta. f_equal. f_equal.
  apply smear_ones. split; [done|]. unfold u32. apply Z.mod_pos_bound. lia.
Qed.

End NextPow2.

(** X1. For [1 <= v <= 2^31], [nextPow2 v] is the least power of two that is
    not below [v]: it is a power of two, at least [v] and less than [2 v]. *)
Theorem nextPow2_least_power (v : Z) :
  1 ≤ v ≤ 2 ^ 31 →
  ∃ k, 0 ≤ k ≤ 31 ∧ LineKeysQueryGpu.nextPow2 v = 2 ^ k ∧
       v ≤ 2 ^ k ∧ 2 ^ k < 2 * v.
Proof.
  intros Hv.
  destruct (Z.eq_dec v 1) as [->|Hne].
  { exists 0. split; [lia|]. split; [reflexivity | lia]. }
  assert (LineKeysQueryGpu.u32 (v - 1) = v - 1) as Hu.
  { unfold LineKeysQueryGpu.u32. apply Z.mod_small. lia. }
  rewrite nextPow2_smear by (rewrite Hu; lia). rewrite Hu.
  set (p := Z.log2 (v - 1)).
  assert (2 ^ p ≤ v - 1 < 2 ^ (p + 1)) as Hlog.
  { replace (p + 1) with (Z.succ p) by lia. apply Z.log2_spec. lia. }
  assert (0 ≤ p) as Hp0 by apply Z.log2_nonneg.
  assert (p < 31) as Hp.
  { apply Z.log2_lt_pow2; lia. }
  exists (p + 1). rewrite Z.ones_equiv.
  assert (2 ^ (p + 1) ≤ 2 ^ 31) as Hle by (apply Z.pow_le_mono_r; lia).
  assert (2 ^ (p + 1) = 2 * 2 ^ p) as Hpow by (rewrite Z.pow_add_r; lia).
  split; [lia|]. split.
  - unfold LineKeysQueryGpu.u32. rewrite Z.mod_small; lia.
  - lia.
Qed.

Lemma nextPow2_least_power_witness :
  ∃ k, 0 ≤ k ≤ 31 ∧ LineKeysQueryGpu.nextPow2 1000 = 2 ^ k ∧
       1000 ≤ 2 ^ k ∧ 2 ^ k < 2 * 1000.
Proof. apply (nextPow2_least_power 1000). vm_compute. split; discriminate. Defined.

(** X2. Outside that range the 32 bit arithmetic wraps: [nextPow2] is 0 for
    0 and for every [v] above [2^31]. *)
Theorem nextPow2_wraps_to_zero (v : Z) :
  v = 0 ∨ 2 ^ 31 < v < 2 ^ 32 → LineKeysQueryGpu.nextPow2 v = 0.
Proof.
  intros Hv.
  assert (2 ^ 31 ≤ LineKeysQueryGpu.u32 (v - 1) < 2 ^ 32) as Hx.
  { destruct Hv as [->|Hv].
    - vm_compute. split; [discriminate | reflexivity].
    - unfold LineKeysQueryGpu.u32. rewrite Z.mod_small; lia. }
  rewrite nextPow2_smear by lia.
  assert (Z.log2 (LineKeysQueryGpu.u32 (v - 1)) = 31) as ->.
  { apply Z.log2_unique; [lia|]. exact Hx. }
  reflexivity.
Qed.

Lemma nextPow2_wraps_to_zero_witness :
  LineKeysQueryGpu.nextPow2 3000000000 = 0.
Proof. apply nextPow2_wraps_to_zero. right. vm_compute. split; reflexivity. Defined.

(** ** LineKeysQueryGpu: sizing, reading results, asynchronous start *)

Lemma slice_concat {A} (L : list (list A)) (i : nat) (l : list A) (pre post : list A) :
  L !! i = Some l →
  slice (length pre + sum_list (take i (length <$> L))) (length l)
    (pre ++ concat L ++ post) = l.
Proof.
  unfold slice. revert i pre. induction L as [|l0 L IH]; intros i pre Hi; [done|].
  destruct i as [|i]; simpl in Hi.
  - inversion Hi; subst. simpl. rewrite Nat.add_0_r, drop_app_length.
    rewrite <- app_assoc. by rewrite take_app_length.
  - cbn [fmap list_fmap take sum_list sum_list_with concat].
    specialize (IH i (pre ++ l0) Hi). rewrite length_app in IH.
    rewrite <- !app_assoc in IH. rewrite <- app_assoc.
    unfold id. by rewrite Nat.add_assoc.
Qed.

Section LineKeysExtra.
Import LineKeysQueryGpu.
Variable walk : OccupancyMap → dvec3 → dvec3 → bool → list Key.
Variable kQfGpuEvaluate : N.
Variable LineKeysQuery_onExecute : LineKeysQueryDetailGpu → LineKeysQueryDetailGpu * bool.
Variable line_key_bound : Q → dvec3 → dvec3 → nat.
Variable calculateLines :
  list Key → nat → list dvec3 → nat → Z * Z * Z → Q → option (list Key).





Lemma length_concat_sum {A} (L : list (list A)) :
  length (concat L) = sum_list (length <$> L).
Proof.
  induction L as [|l L IH]; [done|]. simpl. rewrite length_app, IH. done.
Qed.

Lemma counts_of_lengths m pts :
  counts_of walk m pts = length <$> (segment_keys walk m <$> segments pts).
Proof. unfold counts_of. by rewrite <- list_fmap_compose. Qed.

(** What the CPU fall back leaves of the query besides the results. *)
Lemma onExecute_fallback_state (d d' : LineKeysQueryDetailGpu) (ok : bool) :
  has_flag (query_flags d) kQfGpuEvaluate = true →
  gpuOk d = false →
  onExecute walk kQfGpuEvaluate LineKeysQuery_onExecute false
    line_key_bound calculateLines d = Some (d', ok) →
  query_flags d' = query_flags d ∧ gpuOk d' = false ∧ inflight d' = inflight d.
Proof.
  intros Hflag Hgpu. unfold onExecute, initialiseGpu.
  rewrite Hflag, Hgpu. cbn [negb fst]. rewrite Hgpu. cbn [rays with_results].
  set (d0 := with_results d _ _ _ _).
  assert (∀ pts i q q', cpu_loop walk i pts q = Some q' →
            query_flags q' = query_flags q ∧ gpuOk q' = gpuOk q
            ∧ inflight q' = inflight q) as Hloop.
  { intros pts. induction pts as [pts IH] using (induction_ltof1 _ (@length _)).
    unfold ltof in IH. intros i q q'.
    destruct pts as [|a [|b pts]]; cbn [cpu_loop]; [by intros [= ->] | done |].
    intros Hrun. apply IH in Hrun; [|simpl; lia]. exact Hrun. }
  destruct (cpu_loop walk 0 (rays d) d0) as [d1|] eqn:Hrun; [|done].
  intros [= <- <-]. apply Hloop in Hrun as (H1 & H2 & H3).
  cbn [query_flags gpuOk inflight with_results] in *. by rewrite H1, H2, H3.
Qed.

(** X4. On the CPU fall back the keys of line [i] are found in the key list
    at [resultIndices[i]], [resultCounts[i]] of them: that slice is the walk
    of the segment, end point included, whatever the key list held on
    entry; what it held on entry is still at its front. *)
Theorem onExecute_fallback_line_keys (d : LineKeysQueryDetailGpu) (n i : nat)
    (s : dvec3 * dvec3) :
  has_flag (query_flags d) kQfGpuEvaluate = true →
  gpuOk d = false →
  length (rays d) = (2 * n)%nat →
  segments (rays d) !! i = Some s →
  ∃ d' start,
    onExecute walk kQfGpuEvaluate LineKeysQuery_onExecute false
      line_key_bound calculateLines d = Some (d', true) ∧
    resultIndices d' !! i = Some start ∧
    resultCounts d' !! i = Some (length (walk (map d) s.1 s.2 true)) ∧
    slice start (length (walk (map d) s.1 s.2 true)) (intersected_voxels d')
    = walk (map d) s.1 s.2 true ∧
    take (length (intersected_voxels d)) (intersected_voxels d')
    = intersected_voxels d.
Proof.
  intros Hflag Hgpu Hlen Hseg.
  destruct (onExecute_fallback walk kQfGpuEvaluate LineKeysQuery_onExecute
              line_key_bound calculateLines d n Hflag Hgpu Hlen)
    as (d' & Hrun & _ & _ & _ & _ & _ & Hc & Hi & Hv).
  assert (i < n)%nat as Hin.
  { apply lookup_lt_Some in Hseg. by rewrite (segments_length _ n) in Hseg. }
  exists d', (length (intersected_voxels d)
              + sum_list (take i (resultCounts d')))%nat.
  split_and!; [done | by apply Hi | | |].
  - rewrite Hc. unfold counts_of. rewrite list_lookup_fmap, Hseg. done.
  - rewrite Hc, Hv, counts_of_lengths.
    rewrite <- (app_nil_r (concat _)).
    apply (slice_concat _ i (walk (map d) s.1 s.2 true)).
    rewrite list_lookup_fmap, Hseg. done.
  - rewrite Hv. by rewrite take_app_length.
Qed.

(** X5. [onReset] empties the index and count arrays but not the key list,
    so a query run again after it appends: on the CPU fall back the second
    run reports the same counts, every start index moves up by the number of
    keys of the first run, and the key list holds the keys of the batch
    twice. *)
Theorem onExecute_after_onReset_appends (d : LineKeysQueryDetailGpu) (n : nat)
    (hard_reset : bool) :
  has_flag (query_flags d) kQfGpuEvaluate = true →
  gpuOk d = false →
  length (rays d) = (2 * n)%nat →
  ∃ d1 d2,
    onExecute walk kQfGpuEvaluate LineKeysQuery_onExecute false
      line_key_bound calculateLines d = Some (d1, true) ∧
    onExecute walk kQfGpuEvaluate LineKeysQuery_onExecute false
      line_key_bound calculateLines (onReset d1 hard_reset) = Some (d2, true) ∧
    resultCounts d2 = resultCounts d1 ∧
    (∀ i start, resultIndices d1 !! i = Some start →
       resultIndices d2 !! i = Some (start + sum_list (resultCounts d1))%nat) ∧
    intersected_voxels d2
    = intersected_voxels d1
      ++ drop (length (intersected_voxels d)) (intersected_voxels d1).
Proof.
  intros Hflag Hgpu Hlen.
  destruct (onExecute_fallback walk kQfGpuEvaluate LineKeysQuery_onExecute
              line_key_bound calculateLines d n Hflag Hgpu Hlen)
    as (d1 & Hrun1 & Hmap1 & Hrays1 & Hli1 & _ & _ & Hc1 & Hi1 & Hv1).
  destruct (onExecute_fallback_state d d1 true Hflag Hgpu Hrun1)
    as (Hqf & Hgpu1 & _).
  destruct (onExecute_fallback walk kQfGpuEvaluate LineKeysQuery_onExecute
              line_key_bound calculateLines (onReset d1 hard_reset) n)
    as (d2 & Hrun2 & _ & _ & _ & _ & _ & Hc2 & Hi2 & Hv2).
  { cbn [onReset query_flags with_results]. by rewrite Hqf. }
  { exact Hgpu1. }
  { cbn [onReset rays with_results]. by rewrite Hrays1. }
  cbn [onReset map rays intersected_voxels with_results] in Hc2, Hi2, Hv2.
  rewrite Hmap1, Hrays1 in Hc2, Hv2.
  exists d1, d2. split_and!; [done | done | congruence | |].
  - intros i start Hstart.
    assert (i < n)%nat as Hin by (apply lookup_lt_Some in Hstart; lia).
    rewrite Hi1 in Hstart by done. injection Hstart as <-.
    rewrite Hi2 by done. f_equal.
    rewrite Hc2, <- Hc1. rewrite Hv1 at 1.
    rewrite length_app, length_concat_sum, <- counts_of_lengths, <- Hc1. lia.
  - rewrite Hv2. f_equal. rewrite Hv1. by rewrite drop_app_length.
Qed.

(** The loop of [readGpuResults] on a readable buffer: it completes, and
    the keys it appends are, line by line, the key slots of the buffer. *)
Lemma read_loop_layout (lines_left : nat) :
  ∀ (i : nat) (d : LineKeysQueryDetailGpu),
    (i + lines_left ≤ length (resultIndices d))%nat →
    (i + lines_left ≤ length (resultCounts d))%nat →
    (∀ j, (j < lines_left)%nat →
       ∃ c, gpu_line_count d (i + j) = Some c ∧ 0 ≤ c ∧
            (S ((i + j) * maxKeysPerLine d) + Z.to_nat c ≤ length (linesOut d))%nat) →
    ∃ d' L,
      read_loop lines_left i (i * maxKeysPerLine d) d = Some d' ∧
      linesOut d' = linesOut d ∧ maxKeysPerLine d' = maxKeysPerLine d ∧
      gpuOk d' = gpuOk d ∧ linePoints d' = linePoints d ∧
      length L = lines_left ∧
      intersected_voxels d' = intersected_voxels d ++ concat L ∧
      length (resultIndices d') = length (resultIndices d) ∧
      length (resultCounts d') = length (resultCounts d) ∧
      (∀ j, (j < i)%nat → resultIndices d' !! j = resultIndices d !! j) ∧
      (∀ j, (j < i)%nat → resultCounts d' !! j = resultCounts d !! j) ∧
      (∀ j l, L !! j = Some l →
         ∃ c, gpu_line_count d (i + j) = Some c ∧
              l = gpu_line_keys d (i + j) (Z.to_nat c) ∧
              length l = Z.to_nat c ∧
              resultCounts d' !! (i + j)%nat = Some (Z.to_nat c) ∧
              resultIndices d' !! (i + j)%nat
              = Some (length (intersected_voxels d)
                      + sum_list (take j (length <$> L)))%nat).
Proof.
  induction lines_left as [|n IH]; intros i d Hli Hlc Hread.
  - exists d, []. cbn [read_loop]. rewrite app_nil_r.
    split_and!; try done.
  - destruct (Hread 0%nat) as (c & Hc & Hc0 & Hbound); [lia|].
    rewrite Nat.add_0_r in Hc, Hbound.
    set (keys := gpu_line_keys d i (Z.to_nat c)).
    assert (length keys = Z.to_nat c) as Hkeys.
    { subst keys. unfold gpu_line_keys, line_keys, slice.
      rewrite length_take, length_drop. lia. }
    set (d2 := with_results d
                 (<[i := length (intersected_voxels d)]> (resultIndices d))
                 (<[i := Z.to_nat c]> (resultCounts d))
                 (intersected_voxels d ++ keys) (number_of_results d)).
    destruct (IH (S i) d2) as (d' & L & Hrun & Hlo & Hmk & Hok & Hlp & HL & Hiv
      & Hl1 & Hl2 & Hpi & Hpc & Hline).
    { subst d2. cbn [resultIndices with_results]. rewrite length_insert. lia. }
    { subst d2. cbn [resultCounts with_results]. rewrite length_insert. lia. }
    { intros j Hj. destruct (Hread (S j)) as (c' & Hc' & Hc0' & Hb'); [lia|].
      replace (i + S j)%nat with (S i + j)%nat in Hc', Hb' by lia.
      exists c'. split_and!; done. }
    assert (read_loop (S n) i (i * maxKeysPerLine d) d = Some d') as Hrun'.
    { cbn [read_loop]. unfold gpu_line_count, line_count in Hc.
      destruct (linesOut d !! (i * maxKeysPerLine d)%nat) as [slot|] eqn:Hslot;
        [|done].
      assert (axis_get AxisX (regionKey slot) = c) as Hc' by (by injection Hc).
      cbv zeta. rewrite Hc'.
      destruct (Z.ltb_spec c 0) as [|_]; [lia|].
      replace (i * maxKeysPerLine d + maxKeysPerLine d)%nat
        with (S i * maxKeysPerLine d2)%nat by (subst d2; simpl; lia).
      destruct (Z.eqb_spec c 0) as [Hz|Hnz].
      - rewrite <- Hrun. f_equal. subst d2. f_equal.
        destruct keys; [by rewrite app_nil_r|]. simpl in Hkeys. lia.
      - change (take (Z.to_nat c) (drop (S (i * maxKeysPerLine d)) (linesOut d)))
          with keys.
        destruct (Nat.ltb_spec (length keys) (Z.to_nat c)) as [|_]; [lia|].
        exact Hrun. }
    subst d2. cbn [linesOut maxKeysPerLine gpuOk linePoints intersected_voxels
      resultIndices resultCounts with_results] in *.
    rewrite length_insert in Hl1, Hl2.
    exists d', (keys :: L). split_and!; try done.
    + simpl. by rewrite HL.
    + rewrite Hiv. cbn [concat]. by rewrite <- app_assoc.
    + intros j Hj. rewrite Hpi by lia. apply list_lookup_insert_ne. lia.
    + intros j Hj. rewrite Hpc by lia. apply list_lookup_insert_ne. lia.
    + intros [|j] l Hl.
      * injection Hl as <-. exists c. rewrite Nat.add_0_r.
        split_and!; try done.
        -- rewrite Hpc by lia. apply list_lookup_insert_eq. lia.
        -- rewrite Hpi by lia. rewrite list_lookup_insert_eq by lia.
           simpl. f_equal. lia.
      * simpl in Hl. destruct (Hline j l Hl) as (c' & H1 & H2 & H3 & H4 & H5).
        replace (i + S j)%nat with (S i + j)%nat by lia.
        exists c'. split_and!; try done.
        rewrite H5. f_equal. rewrite length_app.
        cbn [fmap list_fmap take sum_list sum_list_with]. unfold id. lia.
Qed.

(** The run of [readGpuResults] on a readable buffer. *)
Lemma readGpuResults_run (d : LineKeysQueryDetailGpu) :
  readable (linesOut d) (maxKeysPerLine d) (length (rays d) / 2) →
  ∃ d',
    readGpuResults d = Some (d', true) ∧
    inflight d' = false ∧
    number_of_results d' = (length (rays d) / 2)%nat ∧
    linesOut d' = linesOut d ∧ maxKeysPerLine d' = maxKeysPerLine d ∧
    gpuOk d' = gpuOk d ∧
    take (length (intersected_voxels d)) (intersected_voxels d')
    = intersected_voxels d ∧
    ∀ i, (i < length (rays d) / 2)%nat →
      ∃ c start,
        gpu_line_count d i = Some c ∧
        resultCounts d' !! i = Some (Z.to_nat c) ∧
        resultIndices d' !! i = Some start ∧
        slice start (Z.to_nat c) (intersected_voxels d')
        = gpu_line_keys d i (Z.to_nat c).
Proof.
  intros Hread. unfold readGpuResults. cbv zeta.
  set (n := (length (rays d) / 2)%nat) in *.
  set (d0 := with_results d (resize n (resultIndices d)) (resize n (resultCounts d))
               (intersected_voxels d) (number_of_results d)).
  destruct (read_loop_layout n 0 d0) as (d1 & L & Hrun & Hlo & Hmk & Hok & _ & HL & Hiv
    & _ & _ & _ & _ & Hline).
  { subst d0. cbn [resultIndices with_results]. rewrite length_resize. lia. }
  { subst d0. cbn [resultCounts with_results]. rewrite length_resize. lia. }
  { intros j Hj. exact (Hread j Hj). }
  change (0 * maxKeysPerLine d0)%nat with 0%nat in Hrun. rewrite Hrun.
  subst d0. cbn [linesOut maxKeysPerLine gpuOk intersected_voxels with_results] in *.
  eexists. split; [reflexivity|].
  cbn [inflight number_of_results linesOut maxKeysPerLine gpuOk intersected_voxels resultIndices
       resultCounts with_results with_gpu].
  split_and!; try done.
  - rewrite Hiv. by rewrite take_app_length.
  - intros i Hi. destruct (lookup_lt_is_Some_2 L i) as [l Hl]; [lia|].
    destruct (Hline i l Hl) as (c & H1 & H2 & H3 & H4 & H5).
    simpl in H1, H2, H4, H5.
    exists c, (length (intersected_voxels d) + sum_list (take i (length <$> L)))%nat.
    split_and!; try done.
    rewrite Hiv, <- (app_nil_r (concat L)). rewrite <- H3 at 1.
    rewrite (slice_concat L i l) by done. exact H2.
Qed.

(** X6. [readGpuResults] on a buffer that holds, for each line, a count that
    is not negative and that many key slots: it succeeds, clears [inflight],
    leaves the buffer alone and keeps what the key list held; for line [i]
    it records the count of slot [i * maxKeysPerLine], and the slice of the
    key list at [resultIndices[i]] is the key slots that follow the count. *)
Theorem readGpuResults_layout (d : LineKeysQueryDetailGpu) :
  readable (linesOut d) (maxKeysPerLine d) (length (rays d) / 2) →
  ∃ d',
    readGpuResults d = Some (d', true) ∧
    inflight d' = false ∧
    number_of_results d' = (length (rays d) / 2)%nat ∧
    linesOut d' = linesOut d ∧
    take (length (intersected_voxels d)) (intersected_voxels d')
    = intersected_voxels d ∧
    ∀ i, (i < length (rays d) / 2)%nat →
      ∃ c start,
        gpu_line_count d i = Some c ∧
        resultCounts d' !! i = Some (Z.to_nat c) ∧
        resultIndices d' !! i = Some start ∧
        slice start (Z.to_nat c) (intersected_voxels d')
        = gpu_line_keys d i (Z.to_nat c).
Proof.
  intros Hread.
  destruct (readGpuResults_run d Hread) as (d' & Hrun & H1 & H2 & H3 & _ & _ & H4 & H5).
  exists d'. by split_and!.
Qed.

(** [initialiseGpu] touches nothing but the GPU members. *)
Lemma initialiseGpu_frame gpu_available (d : LineKeysQueryDetailGpu) :
  let d1 := (initialiseGpu gpu_available d).1 in
  map d1 = map d ∧ rays d1 = rays d ∧ query_flags d1 = query_flags d ∧
  intersected_voxels d1 = intersected_voxels d ∧
  resultIndices d1 = resultIndices d ∧ resultCounts d1 = resultCounts d ∧
  number_of_results d1 = number_of_results d ∧ inflight d1 = inflight d.
Proof.
  unfold initialiseGpu. destruct (gpuOk d); [done|]. by destruct gpu_available.
Qed.



(** X8. [onExecuteAsync] starts the kernel and reads nothing back: map,
    rays, flags and results are as before.  It succeeds only when GPU
    evaluation is asked for, and then the GPU is set up and the query is in
    flight; when it fails, [inflight] is as before; without the flag, or
    without a GPU to be had, it fails and changes nothing. *)
Theorem onExecuteAsync_effects (gpu_available : bool)
    (d d' : LineKeysQueryDetailGpu) (ok : bool) :
  onExecuteAsync kQfGpuEvaluate gpu_available line_key_bound calculateLines d
  = Some (d', ok) →
  (map d' = map d ∧ rays d' = rays d ∧ query_flags d' = query_flags d ∧
   intersected_voxels d' = intersected_voxels d ∧
   resultIndices d' = resultIndices d ∧ resultCounts d' = resultCounts d ∧
   number_of_results d' = number_of_results d) ∧
  (ok = true →
     has_flag (query_flags d) kQfGpuEvaluate = true ∧
     gpuOk d' = true ∧ inflight d' = true) ∧
  (ok = false → inflight d' = inflight d) ∧
  (has_flag (query_flags d) kQfGpuEvaluate = false
   ∨ (gpuOk d = false ∧ gpu_available = false) →
   d' = d ∧ ok = false).
Proof.
  unfold onExecuteAsync.
  destruct (has_flag (query_flags d) kQfGpuEvaluate) eqn:Hflag.
  2:{ intros [= <- <-]. split_and!; try done. }
  destruct (initialiseGpu_frame gpu_available d)
    as (Hmap & Hrays & Hqf & Hiv & Hidx & Hcnt & Hnum & Hin).
  assert (gpuOk d = false → gpu_available = false →
          (initialiseGpu gpu_available d).1 = d
          ∧ gpuOk (initialiseGpu gpu_available d).1 = false) as Hnone.
  { intros H1 H2. unfold initialiseGpu. by rewrite H1, H2. }
  set (d1 := (initialiseGpu gpu_available d).1) in *.
  destruct (gpuOk d1) eqn:Hok.
  - unfold lineKeysQueryGpu.
    destruct (max_keys_loop _ _ _ _) as [max_keys|]; [|done].
    destruct (upload_points _) as [uploaded|]; [|done].
    destruct (Float32.narrow _) as [resolution_f|]; [|done].
    destruct (calculateLines _ _ _ _ _ _);
      intros [= <- <-];
      cbn [map rays query_flags intersected_voxels resultIndices resultCounts
           number_of_results gpuOk inflight with_gpu];
      (split_and!; [done .. | | |]);
      try done;
      try (intros [[=]|[H1 H2]]; destruct (Hnone H1 H2); congruence).
  - intros [= <- <-]. split_and!; try done.
    intros [[=]|[H1 H2]]. by destruct (Hnone H1 H2).
Qed.

End LineKeysExtra.


(** A point beyond the 24 bits of a [float] significand is uploaded as its
    nearest [float]: 16777217 goes up as 16777216. *)
Example upload_points_narrows :
  LineKeysQueryGpu.upload_points
    (LineKeysQueryGpu.with_results (S5_query 4) [] [] [] 0)
  = Some [pt 0 0 0; pt 3 0 0; pt 0 0 0; pt 0 2 0] ∧
  Float32.narrow3 (pt 16777217 0 0) = Some (pt 16777216 0 0).
Proof. split; reflexivity. Qed.


Lemma onExecute_fallback_line_keys_witness :
  ∃ d' start,
    LineKeysQueryGpu.onExecute OccupancyMap_calculateSegmentKeys 4 no_base_query
      false some_key_bound failing_kernel (S5_query 4) = Some (d', true) ∧
    LineKeysQueryGpu.resultIndices d' !! 1%nat = Some start ∧
    slice start
      (length (OccupancyMap_calculateSegmentKeys (emptyMap unit_map)
                 (pt 0 0 0) (pt 0 2 0) true))
      (LineKeysQueryGpu.intersected_voxels d')
    = OccupancyMap_calculateSegmentKeys (emptyMap unit_map) (pt 0 0 0) (pt 0 2 0) true.
Proof.
  destruct (onExecute_fallback_line_keys OccupancyMap_calculateSegmentKeys 4
              no_base_query some_key_bound failing_kernel (S5_query 4) 2 1
              (pt 0 0 0, pt 0 2 0))
    as (d' & start & Hrun & Hi & _ & Hslice & _);
    [reflexivity | reflexivity | reflexivity | reflexivity |].
  exists d', start. split_and!; [exact Hrun | exact Hi | exact Hslice].
Defined.

Lemma onExecute_after_onReset_appends_witness :
  ∃ d1 d2,
    LineKeysQueryGpu.onExecute OccupancyMap_calculateSegmentKeys 4 no_base_query
      false some_key_bound failing_kernel (S5_query 4) = Some (d1, true) ∧
    LineKeysQueryGpu.onExecute OccupancyMap_calculateSegmentKeys 4 no_base_query
      false some_key_bound failing_kernel (LineKeysQueryGpu.onReset d1 true)
    = Some (d2, true) ∧
    LineKeysQueryGpu.resultCounts d2 = LineKeysQueryGpu.resultCounts d1.
Proof.
  destruct (onExecute_after_onReset_appends OccupancyMap_calculateSegmentKeys 4
              no_base_query some_key_bound failing_kernel (S5_query 4) 2 true)
    as (d1 & d2 & Hrun1 & Hrun2 & Hc & _);
    [reflexivity | reflexivity | reflexivity |].
  exists d1, d2. split_and!; [exact Hrun1 | exact Hrun2 | exact Hc].
Defined.

Lemma kernel_done_query_readable :
  readable (LineKeysQueryGpu.linesOut kernel_done_query)
    (LineKeysQueryGpu.maxKeysPerLine kernel_done_query)
    (length (LineKeysQueryGpu.rays kernel_done_query) / 2).
Proof.
  intros i Hi. change (i < 2)%nat in Hi.
  destruct i as [|[|i]]; [| |lia];
    (exists 2; split_and!; [reflexivity | lia | simpl; lia]).
Qed.

Lemma readGpuResults_layout_witness :
  ∃ d',
    LineKeysQueryGpu.readGpuResults kernel_done_query = Some (d', true) ∧
    LineKeysQueryGpu.inflight d' = false ∧
    ∃ c start,
      gpu_line_count kernel_done_query 1 = Some c ∧
      LineKeysQueryGpu.resultIndices d' !! 1%nat = Some start ∧
      slice start (Z.to_nat c) (LineKeysQueryGpu.intersected_voxels d')
      = gpu_line_keys kernel_done_query 1 (Z.to_nat c).
Proof.
  destruct (readGpuResults_layout kernel_done_query kernel_done_query_readable)
    as (d' & Hrun & Hin & _ & _ & _ & Hline).
  exists d'. split_and!; [exact Hrun | exact Hin |].
  destruct (Hline 1%nat) as (c & start & Hc & _ & Hi & Hs); [simpl; lia|].
  exists c, start. split_and!; [exact Hc | exact Hi | exact Hs].
Defined.



Lemma onExecuteAsync_effects_witness :
  ∃ d',
    LineKeysQueryGpu.onExecuteAsync 4 true some_key_bound two_key_kernel (S5_query 4)
    = Some (d', true) ∧
    LineKeysQueryGpu.inflight d' = true ∧
    LineKeysQueryGpu.intersected_voxels d' = [].
Proof.
  eexists. split; [reflexivity|].
  match goal with
  | |- LineKeysQueryGpu.inflight ?q = true ∧ _ =>
      destruct (onExecuteAsync_effects 4 some_key_bound two_key_kernel true
                  (S5_query 4) q true eq_refl)
        as ((_ & _ & _ & Hiv & _) & Hok & _)
  end.
  destruct (Hok eq_refl) as (_ & _ & Hin).
  split; [exact Hin | exact Hiv].
Defined.

Section OnWaitAsyncExtra.
Import LineKeysQueryGpu.
Context {World : Type}.
Variable inflight_in : World → bool.
Variable now : World → Z.
Variable ticks_per_ms : Z.
Variable pass : World → World.

(** How the loop is left: the query seen completed, or the clock seen past
    the deadline right after a sleep. *)
Lemma wait_loop_exit polls timeout_ms start_time :
  ∀ w w',
    wait_loop inflight_in now ticks_per_ms pass polls timeout_ms start_time w = Some w' →
    inflight_in w' = false ∨
    (timeout_ms ≠ 4294967295%N ∧
     ticks_per_ms * Z.of_N timeout_ms ≤ now w' - start_time ∧
     ∃ k, w' = Nat.iter (S k) pass w).
Proof.
  induction polls as [|polls IH]; intros w w'; cbn [wait_loop].
  - destruct (inflight_in w) eqn:Hin; [done|]. intros [= <-]. by left.
  - destruct (inflight_in w) eqn:Hin; [|intros [= <-]; by left].
    destruct (N.eqb_spec timeout_ms 4294967295) as [Heq|Hne]; cbn [negb andb].
    + intros Hrun. apply IH in Hrun as [?|(Hne & _)]; [by left | done].
    + destruct (Z.leb_spec (ticks_per_ms * Z.of_N timeout_ms) (now (pass w) - start_time)).
      * intros [= <-]. right. split_and!; [done | done | by exists 0%nat].
      * intros Hrun. apply IH in Hrun as [?|(_ & Hdl & k & ->)]; [by left|].
        right. split_and!; [done | done |]. exists (S (S k)).
        by rewrite !iter_pass_r.
Qed.

(** X16. Given that a completed query stays completed, [onWaitAsync]
    reports false only after a timeout: the timeout is not [~0u], and at
    some look after a sleep the clock was at or past the deadline.  With the
    timeout [~0u] it reports nothing but true. *)
Theorem onWaitAsync_false_is_timeout (polls : nat) (timeout_ms : N) (w w' : World) :
  (∀ v, inflight_in v = false → inflight_in (pass v) = false) →
  onWaitAsync inflight_in now ticks_per_ms pass polls timeout_ms w = Some (false, w') →
  timeout_ms ≠ 4294967295%N ∧
  ∃ k, ticks_per_ms * Z.of_N timeout_ms ≤ now (Nat.iter (S (S k)) pass w) - now w ∧
       w' = Nat.iter (S (S (S k))) pass w.
Proof.
  intros Hstable. unfold onWaitAsync.
  destruct (wait_loop _ _ _ _ _ _ _ _) as [w1|] eqn:Hloop; [|done].
  intros [= Hflag <-]. apply negb_false_iff in Hflag.
  apply wait_loop_exit in Hloop as [Hdone|(Hne & Hdl & k & ->)].
  - apply Hstable in Hdone. congruence.
  - split; [done|]. exists k. rewrite iter_pass_r in Hdl |- *. split; [exact Hdl|].
    done.
Qed.

End OnWaitAsyncExtra.

Lemma onWaitAsync_false_is_timeout_witness :
  ∃ k, 1 * Z.of_N 3 ≤ ms_clock (Nat.iter (S (S k)) S 0%nat) - ms_clock 0%nat.
Proof.
  destruct (onWaitAsync_false_is_timeout stuck_inflight ms_clock 1 S 10 3 0%nat 5%nat)
    as (_ & k & Hk & _); [discriminate | reflexivity |].
  exists k. exact Hk.
Defined.

Section AsyncNeverCompletes.
Import LineKeysQueryGpu.
Context {World : Type}.
Variable query : World → LineKeysQueryDetailGpu.
Variable now : World → Z.
Variable ticks_per_ms : Z.
Variable pass : World → World.

Lemma wait_loop_stuck (polls : nat) (timeout_ms : N) (start_time : Z) :
  (∀ v, inflight (query (pass v)) = inflight (query v)) →
  ∀ w,
    inflight (query w) = true →
    match wait_loop (λ v, inflight (query v)) now ticks_per_ms pass polls timeout_ms
            start_time w with
    | Some w' => inflight (query w') = true ∧ timeout_ms ≠ 4294967295%N
    | None => True
    end.
Proof.
  intros Hkeep. induction polls as [|polls IH]; intros w Hin; cbn [wait_loop].
  - by rewrite Hin.
  - rewrite Hin. destruct (N.eqb_spec timeout_ms 4294967295) as [Heq|Hne];
      cbn [negb andb].
    + specialize (IH (pass (pass w))). rewrite !Hkeep in IH. specialize (IH Hin).
      destruct (wait_loop _ _ _ _ _ _ _ _); [|done]. by destruct IH.
    + destruct (_ <=? _).
      * split; [|done]. by rewrite Hkeep.
      * apply IH. by rewrite !Hkeep.
Qed.

(** X27. Nothing in the asynchronous path reads the results back or clears
    [inflight]: [onExecuteAsync] sets the flag, and only [readGpuResults],
    which [onExecute] alone calls, clears it.  So when no one else writes the
    flag, a wait after a successful [onExecuteAsync] never reports
    completion: with a timeout it returns false, with [~0u] it does not
    return. *)
Theorem onWaitAsync_after_onExecuteAsync (kQfGpuEvaluate : N) (gpu_available : bool)
    (line_key_bound : Q → dvec3 → dvec3 → nat)
    (calculateLines :
       list Key → nat → list dvec3 → nat → Z * Z * Z → Q → option (list Key))
    (d : LineKeysQueryDetailGpu) (w : World) :
  (∀ v, inflight (query (pass v)) = inflight (query v)) →
  onExecuteAsync kQfGpuEvaluate gpu_available line_key_bound calculateLines d
  = Some (query w, true) →
  (∀ polls timeout_ms b w',
     onWaitAsync (λ v, inflight (query v)) now ticks_per_ms pass polls timeout_ms w
     = Some (b, w') →
     b = false ∧ timeout_ms ≠ 4294967295%N) ∧
  (∀ polls,
     onWaitAsync (λ v, inflight (query v)) now ticks_per_ms pass polls 4294967295 w
     = None).
Proof.
  intros Hkeep Hrun.
  assert (inflight (query w) = true) as Hin.
  { unfold onExecuteAsync in Hrun.
    destruct (has_flag _ _); [|done].
    destruct (gpuOk _); [|done].
    unfold lineKeysQueryGpu in Hrun.
    destruct (max_keys_loop _ _ _ _); [|done].
    destruct (upload_points _) as [uploaded|]; [|done].
    destruct (Float32.narrow _) as [resolution_f|]; [|done].
    destruct (calculateLines _ _ _ _ _ _); [|done].
    injection Hrun as <-. done. }
  assert (∀ polls timeout_ms b w',
            onWaitAsync (λ v, inflight (query v)) now ticks_per_ms pass polls timeout_ms w
            = Some (b, w') →
            b = false ∧ timeout_ms ≠ 4294967295%N) as Hwait.
  { intros polls timeout_ms b w'. unfold onWaitAsync.
    pose proof (wait_loop_stuck polls timeout_ms (now w) Hkeep (pass w)) as Hloop.
    rewrite Hkeep in Hloop. specialize (Hloop Hin).
    destruct (wait_loop _ _ _ _ _ _ _ _) as [w1|]; [|done].
    destruct Hloop as [Hin1 Hne]. intros [= <- <-].
    by rewrite Hkeep, Hin1. }
  split; [exact Hwait|].
  intros polls.
  destruct (onWaitAsync _ _ _ _ polls 4294967295 w) as [[b w']|] eqn:Hrun'; [|done].
  by destruct (Hwait _ _ _ _ Hrun') as [_ Hne].
Qed.

End AsyncNeverCompletes.

Lemma onWaitAsync_after_onExecuteAsync_witness :
  LineKeysQueryGpu.onWaitAsync
    (λ v : nat, LineKeysQueryGpu.inflight async_started) ms_clock 1 S 10 4294967295 0%nat
  = None.
Proof.
  destruct (onWaitAsync_after_onExecuteAsync (λ _ : nat, async_started) ms_clock 1 S
              4 true some_key_bound two_key_kernel (S5_query 4) 0%nat)
    as [_ Hnever]; [reflexivity | reflexivity |].
  apply Hnever.
Defined.

(** ** GpuNdtMap::finaliseBatch: buffers, kernels and events *)



Section FinaliseBatchExtra.
Import GpuNdtMap.
Variable beginBatch : N → N.

Lemma upload_events_only (buf_idx size k : nat) :
  KernelEvent k ∉
    [KeyUpload buf_idx; RayUpload buf_idx; RegionKeyUpload buf_idx] ++
    flat_map (λ i, [OffsetUpload buf_idx i; VoxelUpload buf_idx i]) (seq 0 size).
Proof.
  intros Hin. apply elem_of_app in Hin as [Hin|Hin].
  - repeat (apply elem_of_cons in Hin as [Hin|Hin]; [done|]).
    by apply elem_of_nil in Hin.
  - apply list_elem_of_In, in_flat_map in Hin as (i & _ & Hin).
    simpl in Hin. destruct Hin as [Hin|[Hin|[]]]; done.
Qed.

(** X9. Double buffering: a batch is finalised on the buffer
    [next_buffers_index], whose region count is then reset, and the index
    moves to the other buffer; two calls in a row use the two buffers in
    turn, bring the index back and leave both region counts at zero.  The
    ray counts are not reset. *)
Theorem finaliseBatch_double_buffering (imp : GpuNdtMapDetail) (f1 f2 : N) :
  well_buffered imp →
  let imp1 := finaliseBatch beginBatch imp f1 in
  let imp2 := finaliseBatch beginBatch imp1 f2 in
  well_buffered imp1 ∧
  next_buffers_index imp1 ≠ next_buffers_index imp ∧
  next_buffers_index imp2 = next_buffers_index imp ∧
  region_counts imp1 !! next_buffers_index imp = Some 0%N ∧
  region_counts imp1 !! next_buffers_index imp1
  = region_counts imp !! next_buffers_index imp1 ∧
  region_counts imp2 = [0%N; 0%N] ∧
  ray_counts imp2 = ray_counts imp ∧
  Forall (λ l, buf_idx_of l = next_buffers_index imp) (enqueued beginBatch imp f1) ∧
  Forall (λ l, buf_idx_of l = next_buffers_index imp1) (enqueued beginBatch imp1 f2).
Proof.
  intros (Hidx & Hrc & Hyc & Hev). cbv zeta.
  assert (∀ q f, Forall (λ l, buf_idx_of l = next_buffers_index q)
                   (enqueued beginBatch q f)) as Hbuf.
  { intros q f. unfold enqueued, finaliseBatch.
    destruct (negb (has_flag f (N.lor kRfExcludeSample kRfEndPointAsFree)));
      cbn [gpu_queue]; rewrite <- ?app_assoc, drop_app_length;
      repeat constructor. }
  split_and!; try apply Hbuf.
  - unfold well_buffered, finaliseBatch.
    destruct (negb (has_flag f1 _));
      cbn [next_buffers_index region_counts ray_counts region_update_events];
      rewrite !length_insert; split_and!; try done; lia.
  - unfold finaliseBatch. destruct (negb (has_flag f1 _));
      cbn [next_buffers_index]; lia.
  - unfold finaliseBatch. destruct (negb (has_flag f1 _)), (negb (has_flag f2 _));
      cbn [next_buffers_index]; lia.
  - unfold finaliseBatch. destruct (negb (has_flag f1 _));
      cbn [region_counts next_buffers_index];
      apply list_lookup_insert_eq; lia.
  - unfold finaliseBatch. destruct (negb (has_flag f1 _));
      cbn [region_counts next_buffers_index];
      apply list_lookup_insert_ne; lia.
  - destruct (region_counts imp) as [|a [|b [|]]] eqn:Hcounts; try done.
    unfold finaliseBatch. rewrite Hcounts.
    destruct (negb (has_flag f1 _)), (negb (has_flag f2 _));
      cbn [region_counts next_buffers_index];
      destruct (next_buffers_index imp) as [|[|]]; try lia; reflexivity.
  - unfold finaliseBatch. by destruct (negb (has_flag f1 _)), (negb (has_flag f2 _)).
Qed.


Lemma finaliseBatch_step_waits (imp : GpuNdtMapDetail) (flags : N) :
  waits_on_earlier (gpu_queue imp) →
  waits_on_earlier (gpu_queue (finaliseBatch beginBatch imp flags)) ∧
  take (length (gpu_queue imp)) (gpu_queue (finaliseBatch beginBatch imp flags))
  = gpu_queue imp ∧
  (length (gpu_queue imp) + 1
   ≤ length (gpu_queue (finaliseBatch beginBatch imp flags))
   ≤ length (gpu_queue imp) + 2)%nat.
Proof.
  intros Hq. unfold finaliseBatch.
  destruct (negb (has_flag flags (N.lor kRfExcludeSample kRfEndPointAsFree)));
    cbn [gpu_queue]; rewrite <- ?app_assoc.
  - split_and!; [| by rewrite take_app_length | rewrite length_app; simpl; lia
                 | rewrite length_app; simpl; lia].
    intros p l k Hl Hk.
    apply lookup_app_Some in Hl as [Hl|[Hp Hl]]; [by eapply Hq|].
    destruct (p - length (gpu_queue imp))%nat as [|[|r]] eqn:Hr; simpl in Hl;
      [| |done]; injection Hl as <-; cbn [wait_for] in Hk.
    + by apply upload_events_only in Hk.
    + apply list_elem_of_singleton in Hk. injection Hk as ->. lia.
  - split_and!; [| by rewrite take_app_length | rewrite length_app; simpl; lia
                 | rewrite length_app; simpl; lia].
    intros p l k Hl Hk.
    apply lookup_app_Some in Hl as [Hl|[Hp Hl]]; [by eapply Hq|].
    destruct (p - length (gpu_queue imp))%nat as [|r] eqn:Hr; simpl in Hl;
      [|done]; injection Hl as <-; cbn [wait_for] in Hk.
    by apply upload_events_only in Hk.
Qed.

(** X11. Over any sequence of batches the queue only grows, by one or two
    kernels a batch, and stays free of a kernel that waits for itself or for
    a later one. *)
Theorem finaliseBatch_waits_on_earlier (imp : GpuNdtMapDetail) (batches : list N) :
  waits_on_earlier (gpu_queue imp) →
  let imp' := foldl (finaliseBatch beginBatch) imp batches in
  waits_on_earlier (gpu_queue imp') ∧
  take (length (gpu_queue imp)) (gpu_queue imp') = gpu_queue imp ∧
  (length (gpu_queue imp) + length batches
   ≤ length (gpu_queue imp')
   ≤ length (gpu_queue imp) + 2 * length batches)%nat.
Proof.
  cbv zeta. revert imp. induction batches as [|f batches IH]; intros imp Hq.
  - simpl. split_and!; [done | by rewrite firstn_all | lia | lia].
  - cbn [foldl].
    destruct (finaliseBatch_step_waits imp f Hq) as (Hq1 & Hpre1 & Hlen1).
    destruct (IH _ Hq1) as (Hq2 & Hpre2 & Hlen2).
    split_and!; [done | | simpl; lia | simpl; lia].
    rewrite <- Hpre1 at 2. rewrite <- Hpre2 at 1.
    rewrite take_take. f_equal. lia.
Qed.

End FinaliseBatchExtra.

Lemma ndt_batch_well_buffered : well_buffered ndt_batch.
Proof. unfold well_buffered. simpl. lia. Qed.

Lemma finaliseBatch_double_buffering_witness :
  GpuNdtMap.region_counts
    (GpuNdtMap.finaliseBatch N.succ (GpuNdtMap.finaliseBatch N.succ ndt_batch 0) 4)
  = [0%N; 0%N].
Proof.
  destruct (finaliseBatch_double_buffering N.succ ndt_batch 0 4 ndt_batch_well_buffered)
    as (_ & _ & _ & _ & _ & H & _).
  exact H.
Defined.

Lemma empty_queue_waits_on_earlier : waits_on_earlier (GpuNdtMap.gpu_queue ndt_batch).
Proof. intros p l k Hl. done. Qed.

Lemma finaliseBatch_waits_on_earlier_witness :
  waits_on_earlier
    (GpuNdtMap.gpu_queue (foldl (GpuNdtMap.finaliseBatch N.succ) ndt_batch [0%N; 1%N; 4%N])).
Proof.
  destruct (finaliseBatch_waits_on_earlier N.succ ndt_batch [0%N; 1%N; 4%N]
              empty_queue_waits_on_earlier) as (H & _).
  exact H.
Defined.

(** ** GpuMapDetail::findRegion: which entry is returned *)

Section FindRegionExtra.
Import GpuMapDetail.

(** Where the loop of [findRegion] stops when the entry is there. *)
Lemma findRegion_scan regions h key j :
  grouped regions →
  regions !! j = Some (h, key) →
  let r := advance (length regions) regions h key (find regions h) in
  findRegion regions h key = r ∧ (find regions h ≤ r)%nat ∧ (r ≤ j)%nat ∧
  (∀ i e, (i < find regions h)%nat → regions !! i = Some e → e.1 ≠ h) ∧
  (∀ i, (find regions h ≤ i < r)%nat → ∃ k, regions !! i = Some (h, k) ∧ k ≠ key).
Proof.
  intros Hg Hj. cbv zeta.
  destruct (find_spec regions h) as (F1 & F2 & F3).
  pose proof (lookup_lt_Some _ _ _ Hj) as Hjlt.
  assert (find regions h ≤ j)%nat as Hfj.
  { destruct (decide (find regions h ≤ j)%nat) as [|Hn]; [done|].
    exfalso. apply (F2 j (h, key)); [lia | done | done]. }
  destruct (advance_spec (length regions) regions h key (find regions h))
    as (A1 & A2 & A3); [lia|].
  set (r := advance (length regions) regions h key (find regions h)) in *.
  assert (r ≤ j)%nat as Hrj.
  { destruct (decide (r ≤ j)%nat) as [|Hn]; [done|].
    destruct (A2 j) as (k & Hk & Hne); [lia|].
    rewrite Hj in Hk. by inversion Hk; subst. }
  split_and!; try done.
  pose proof (findRegion_complete regions h key j Hg Hj) as Hfound.
  unfold findRegion in *. fold r in Hfound |- *.
  destruct (regions !! r) as [[h' k']|] eqn:Hr.
  - destruct (bool_decide (h' = h) && bool_decide (k' = key)); [done|].
    unfold end_ in Hfound. apply lookup_lt_Some in Hfound. lia.
  - unfold end_ in Hfound. apply lookup_lt_Some in Hfound. lia.
Qed.

(** X12. When the multimap holds the wanted (hash, region) more than once,
    [findRegion] returns the first of them in iteration order: no entry
    before the one returned is a match.  The entries it steps over are those
    of the same hash and another region, from where [find] lands. *)
Theorem findRegion_first regions region_hash region_key j :
  grouped regions →
  regions !! j = Some (region_hash, region_key) →
  (findRegion regions region_hash region_key ≤ j)%nat ∧
  (∀ i, (i < findRegion regions region_hash region_key)%nat →
     regions !! i ≠ Some (region_hash, region_key)) ∧
  (∀ i, (find regions region_hash ≤ i < findRegion regions region_hash region_key)%nat →
     ∃ k, regions !! i = Some (region_hash, k) ∧ k ≠ region_key).
Proof.
  intros Hg Hj.
  destruct (findRegion_scan regions region_hash region_key j Hg Hj)
    as (-> & Hfr & Hrj & Hbefore & Hgroup).
  split_and!; [done | | done].
  intros i Hi Hl.
  destruct (decide (i < find regions region_hash)%nat) as [Hlt|Hge].
  - by apply (Hbefore i _ Hlt Hl).
  - destruct (Hgroup i) as (k & Hk & Hne); [lia|]. congruence.
Qed.

End FindRegionExtra.

Lemma findRegion_first_witness :
  (GpuMapDetail.findRegion clash_regions 7%N (1, 0, 0)%Z ≤ 2)%nat.
Proof.
  apply (findRegion_first clash_regions 7%N (1, 0, 0) 2 clash_regions_grouped).
  reflexivity.
Defined.

(** ** GpuMapTest: the CPU reference and the batching of the rays *)

Lemma detail_integrateHit_default k m : detail (integrateHit kRfDefault k m) = detail m.
Proof. apply detail_integrateHit. Qed.

Lemma GpuMapTest_integrateRays_total (n : nat) :
  ∀ rays m, length rays = (2 * n)%nat →
    ∃ m', GpuMapTest.integrateRays m rays = Some m' ∧ detail m' = detail m.
Proof.
  induction n as [|n IH]; intros rays m Hlen.
  - destruct rays; [|done]. by exists m.
  - destruct rays as [|s [|e rays]]; simpl in Hlen; try lia.
    cbn [GpuMapTest.integrateRays].
    destruct (IH rays (integrateHit kRfDefault
                         (voxelKey (detail (foldl (λ m key, integrateMiss kRfDefault key m) m
                            (calculateSegmentKeys (detail m) s e false))) e)
                         (foldl (λ m key, integrateMiss kRfDefault key m) m
                            (calculateSegmentKeys (detail m) s e false))))
      as (m' & Hrun & Hd); [lia|].
    exists m'. split; [exact Hrun|].
    by rewrite Hd, detail_integrateHit_default, detail_foldl_integrateMiss.
Qed.

Lemma GpuMapTest_integrateRays_odd (n : nat) :
  ∀ rays m, length rays = S (2 * n) → GpuMapTest.integrateRays m rays = None.
Proof.
  induction n as [|n IH]; intros rays m Hlen.
  - by destruct rays as [|s [|e rays]].
  - destruct rays as [|s [|e rays]]; simpl in Hlen; try lia.
    cbn [GpuMapTest.integrateRays]. apply IH. lia.
Qed.

(** X13. The CPU reference [gpumap::integrateRays] of the GPU map test is
    defined exactly on an even number of points, keeps the map parameters,
    and integrating a batch that is split after an even number of points
    gives the map of integrating the whole: the first part, then the rest
    into the map the first part left. *)
Theorem GpuMapTest_integrateRays_batches (m : OccupancyMap) (rays1 rays2 : list dvec3)
    (n : nat) :
  length rays1 = (2 * n)%nat →
  (∃ m1, GpuMapTest.integrateRays m rays1 = Some m1 ∧ detail m1 = detail m ∧
         GpuMapTest.integrateRays m (rays1 ++ rays2)
         = GpuMapTest.integrateRays m1 rays2) ∧
  (is_Some (GpuMapTest.integrateRays m (rays1 ++ rays2))
   ↔ Nat.Even (length rays2)).
Proof.
  intros Hlen.
  assert (∃ m1, GpuMapTest.integrateRays m rays1 = Some m1 ∧ detail m1 = detail m ∧
            GpuMapTest.integrateRays m (rays1 ++ rays2)
            = GpuMapTest.integrateRays m1 rays2) as (m1 & Hrun & Hd & Happ).
  { revert rays1 m Hlen. induction n as [|n IH]; intros rays1 m Hlen.
    - destruct rays1; [|done]. by exists m.
    - destruct rays1 as [|s [|e rays1]]; simpl in Hlen; try lia.
      cbn [GpuMapTest.integrateRays app].
      set (m0 := integrateHit _ _ _).
      destruct (IH rays1 m0) as (m1 & Hrun & Hd & Happ); [lia|].
      exists m1. split_and!; [done | | done].
      rewrite Hd. subst m0.
      by rewrite detail_integrateHit_default, detail_foldl_integrateMiss. }
  split; [by exists m1|].
  rewrite Happ. split.
  - intros [m2 Hm2]. destruct (Nat.Even_or_Odd (length rays2)) as [|[k Hk]]; [done|].
    rewrite (GpuMapTest_integrateRays_odd k) in Hm2; [done | lia].
  - intros [k Hk].
    destruct (GpuMapTest_integrateRays_total k rays2 m1 Hk) as (m2 & Hm2 & _).
    by exists m2.
Qed.

Lemma GpuMapTest_integrateRays_batches_witness :
  ∃ m1,
    GpuMapTest.integrateRays (emptyMap unit_map) [pt 0 0 0; pt 3 0 0] = Some m1 ∧
    GpuMapTest.integrateRays (emptyMap unit_map)
      ([pt 0 0 0; pt 3 0 0] ++ [pt 0 0 0; pt 0 2 0])
    = GpuMapTest.integrateRays m1 [pt 0 0 0; pt 0 2 0].
Proof.
  destruct (GpuMapTest_integrateRays_batches (emptyMap unit_map)
              [pt 0 0 0; pt 3 0 0] [pt 0 0 0; pt 0 2 0] 1)
    as ((m1 & Hrun & _ & Happ) & _); [reflexivity|].
  exists m1. split; [exact Hrun | exact Happ].
Defined.

Section BatchLoop.
Import GpuMapTestBatches.
Local Open Scope N_scope.

Lemma batch_loop_done fuel rays_size step i :
  rays_size ≤ i → batch_loop fuel rays_size step i = Some [].
Proof.
  intros Hi. destruct fuel; simpl;
    destruct (N.ltb_spec i rays_size); try lia; done.
Qed.

Lemma batch_loop_spec (rays : list dvec3) (step : N) :
  1 ≤ step →
  N.of_nat (length rays) < 2 ^ 32 →
  ∀ (fuel : nat) (i : N),
    (N.to_nat (N.of_nat (length rays) - i) ≤ fuel)%nat →
    (i < N.of_nat (length rays) → i + step < 2 ^ 64) →
    ∃ calls,
      batch_loop fuel (N.of_nat (length rays)) step i = Some calls ∧
      concat (batch_of rays <$> calls) = drop (N.to_nat i) rays ∧
      Forall (λ call, 1 ≤ call.2 ≤ step ∧ i ≤ call.1
                      ∧ call.1 + call.2 ≤ N.of_nat (length rays)) calls ∧
      (N.even step = true → N.even (N.of_nat (length rays)) = true →
       N.even i = true →
       Forall (λ call, N.even call.1 = true ∧ N.even call.2 = true) calls).
Proof.
  intros Hstep Hsize.
  set (size := N.of_nat (length rays)) in *.
  induction fuel as [|fuel IH]; intros i Hfuel Hwrap.
  - rewrite batch_loop_done by lia. exists []. split_and!; try done.
    simpl. rewrite drop_ge; [done|]. subst size. lia.
  - destruct (N.lt_ge_cases i size) as [Hlt|Hge].
    2:{ rewrite batch_loop_done by lia. exists []. split_and!; try done.
        simpl. rewrite drop_ge; [done|]. subst size. lia. }
    specialize (Hwrap Hlt).
    cbn [batch_loop]. destruct (N.ltb_spec i size) as [_|]; [|lia].
    assert (size_t (i + step) = i + step) as ->
      by (unfold size_t; apply N.mod_small; lia).
    assert (unsigned (N.min step (size - i)) = N.min step (size - i)) as ->
      by (unfold unsigned; apply N.mod_small; lia).
    destruct (IH (i + step)) as (calls & Hrun & Hcat & Hall & Heven).
    { lia. }
    { intros Hlt'. assert (step < 2 ^ 32) by lia.
      assert (2 ^ 32 + 2 ^ 32 + 2 ^ 32 < 2 ^ 64) by (vm_compute; reflexivity). lia. }
    rewrite Hrun. eexists. split; [reflexivity|].
    split_and!.
    + cbn [fmap list_fmap concat]. rewrite Hcat.
      unfold batch_of, slice. cbn [fst snd].
      destruct (N.le_gt_cases step (size - i)) as [Hfull|Hlast].
      * rewrite N.min_l by done.
        replace (N.to_nat (i + step)) with (N.to_nat i + N.to_nat step)%nat by lia.
        rewrite <- drop_drop. apply take_drop.
      * rewrite N.min_r by lia.
        rewrite (drop_ge rays (N.to_nat (i + step))) by (subst size; lia).
        rewrite app_nil_r. apply take_ge. rewrite length_drop. subst size. lia.
    + constructor.
      * cbn [fst snd]. lia.
      * eapply Forall_impl; [exact Hall|]. intros call. simpl. lia.
    + intros Hes Hez Hei. constructor.
      * cbn [fst snd]. split; [done|].
        destruct (N.le_gt_cases step (size - i)) as [Hfull|Hlast].
        -- by rewrite N.min_l.
        -- rewrite N.min_r by lia. rewrite N.even_sub by lia.
           by rewrite Hez, Hei.
      * apply Heven; try done. rewrite N.even_add. by rewrite Hei, Hes.
Qed.

(** X14. The loop of [gpuMapTest] hands the rays over in batches that follow
    one another without gap or overlap and make up the whole array; a batch
    has at least one point and at most [2 * batch_size], and batches of an
    even number of points start at even positions and have an even number
    of points.  A [batch_size] of zero gives the single batch of all rays. *)
Theorem gpuMapTest_batches_partition (rays : list dvec3) (batch_size : N) :
  N.of_nat (length rays) < 2 ^ 32 →
  batch_size < 2 ^ 63 →
  batch_size ≠ 0 ∨ 2 ≤ N.of_nat (length rays) →
  ∃ calls,
    (∀ fuel, (length rays ≤ fuel)%nat →
       gpuMapTest_batches fuel rays batch_size = Some calls) ∧
    concat (batch_of rays <$> calls) = rays ∧
    Forall (λ call, 1 ≤ call.2 ∧
              call.2 ≤ 2 * (if batch_size =? 0 then N.of_nat (length rays) / 2
                            else batch_size)) calls ∧
    (N.even (N.of_nat (length rays)) = true →
     Forall (λ call, N.even call.1 = true ∧ N.even call.2 = true) calls) ∧
    (batch_size = 0 → N.even (N.of_nat (length rays)) = true →
     calls = [(0, N.of_nat (length rays))]).
Proof.
  intros Hsize Hbatch Hsome. unfold gpuMapTest_batches. cbv zeta.
  set (size := N.of_nat (length rays)) in *.
  set (bs := if batch_size =? 0 then size / 2 else batch_size).
  assert (1 ≤ bs ∧ bs < 2 ^ 63) as [Hbs1 Hbs2].
  { subst bs. destruct (N.eqb_spec batch_size 0) as [->|Hne].
    - destruct Hsome as [|Hsome]; [done|].
      assert (1 ≤ size / 2) by (apply N.div_le_lower_bound; lia).
      assert (size / 2 ≤ size) by (apply N.Div0.div_le_upper_bound; lia).
      assert (2 ^ 32 < 2 ^ 63) by (vm_compute; reflexivity). lia.
    - lia. }
  assert (size_t (bs * 2) = bs * 2) as Hstep.
  { unfold size_t. apply N.mod_small.
    assert (2 ^ 63 * 2 = 2 ^ 64) by (vm_compute; reflexivity). lia. }
  rewrite Hstep.
  destruct (batch_loop_spec rays (bs * 2) ltac:(lia) Hsize (length rays) 0)
    as (calls & Hrun & Hcat & Hall & Heven).
  { subst size. lia. }
  { intros _. assert (2 ^ 63 * 2 = 2 ^ 64) by (vm_compute; reflexivity). lia. }
  exists calls. split_and!.
  - intros fuel Hfuel.
    destruct (batch_loop_spec rays (bs * 2) ltac:(lia) Hsize fuel 0)
      as (calls' & Hrun' & _).
    { subst size. lia. }
    { intros _. assert (2 ^ 63 * 2 = 2 ^ 64) by (vm_compute; reflexivity). lia. }
    fold size in Hrun'. rewrite Hrun'.
    clear -Hrun Hrun' Hfuel. fold size in Hrun.
    revert calls calls' Hrun Hrun'. generalize 0 at 1 2.
    generalize (length rays) at 1 as f1. revert fuel Hfuel.
    intros fuel _ f1. revert fuel.
    induction f1 as [|f1 IH]; intros fuel i calls calls'; destruct fuel as [|fuel];
      cbn [batch_loop]; destruct (i <? size); try congruence.
    destruct (batch_loop f1 _ _ _) as [c1|] eqn:H1; [|done].
    destruct (batch_loop fuel _ _ _) as [c2|] eqn:H2; [|done].
    simpl. intros [= <-] [= <-]. f_equal. f_equal.
    specialize (IH fuel _ c1 c2 H1 H2). congruence.
  - by rewrite Hcat.
  - eapply Forall_impl; [exact Hall|]. intros call. simpl. lia.
  - intros Hez. apply Heven; try done. by rewrite N.even_mul, orb_true_r.
  - intros -> Hez. subst bs. simpl in *.
    apply N.even_spec in Hez as [k Hk].
    assert (size / 2 = k) as Hhalf by (rewrite Hk, N.mul_comm, N.div_mul; lia).
    rewrite Hhalf in *. 
    destruct (length rays) as [|len] eqn:Hl.
    { subst size. simpl in *. lia. }
    cbn [batch_loop] in Hrun. destruct (N.ltb_spec 0 size) as [_|]; [|lia].
    rewrite batch_loop_done in Hrun
      by (unfold size_t; rewrite N.mod_small; lia).
    simpl in Hrun. injection Hrun as <-.
    f_equal. f_equal. unfold unsigned. rewrite N.mod_small; lia.
Qed.

(** X15. With the default [batch_size] of zero and a single point the step
    of the loop is zero: [gpuMapTest] never leaves the loop. *)
Theorem gpuMapTest_batches_single_point (rays : list dvec3) (fuel : nat) :
  length rays = 1%nat →
  gpuMapTest_batches fuel rays 0 = None.
Proof.
  intros Hlen. unfold gpuMapTest_batches. rewrite Hlen.
  change (batch_loop fuel 1 0 0 = None).
  induction fuel as [|fuel IH]; [done|].
  cbn [batch_loop]. change (size_t (0 + 0)) with 0. by rewrite IH.
Qed.

End BatchLoop.

Lemma gpuMapTest_batches_partition_witness :
  ∃ calls,
    GpuMapTestBatches.gpuMapTest_batches 4
      [pt 0 0 0; pt 3 0 0; pt 0 0 0; pt 0 2 0] 1 = Some calls ∧
    concat (GpuMapTestBatches.batch_of [pt 0 0 0; pt 3 0 0; pt 0 0 0; pt 0 2 0] <$> calls)
    = [pt 0 0 0; pt 3 0 0; pt 0 0 0; pt 0 2 0].
Proof.
  destruct (gpuMapTest_batches_partition [pt 0 0 0; pt 3 0 0; pt 0 0 0; pt 0 2 0] 1)
    as (calls & Hrun & Hcat & _); [reflexivity | reflexivity | left; discriminate |].
  exists calls. split; [apply Hrun; simpl; lia | exact Hcat].
Defined.

Lemma gpuMapTest_batches_single_point_witness :
  GpuMapTestBatches.gpuMapTest_batches 1000 [pt 0 0 0] 0 = None.
Proof. apply gpuMapTest_batches_single_point. reflexivity. Defined.

(** ** OhmUtil: memory sizes, delimited integers, durations *)

Section MemoryDisplay.
Import OhmUtil.
Local Open Scope N_scope.

Lemma scale_loop_spec (B : N) :
  ∀ (fuel u : nat) (b p : N),
    (7 ≤ u + fuel)%nat →
    b = B / 1024 ^ N.of_nat u →
    ((0 < u)%nat → p = B / 1024 ^ N.of_nat (u - 1) ∧ 1024 < p) →
    ∃ b' p' u',
      scale_loop fuel b p u = Some (b', p', u') ∧
      (u ≤ u')%nat ∧
      b' = B / 1024 ^ N.of_nat u' ∧
      ((0 < u')%nat → p' = B / 1024 ^ N.of_nat (u' - 1) ∧ 1024 < p') ∧
      (b' ≤ 1024 ∨ (7 ≤ u')%nat).
Proof.
  induction fuel as [|fuel IH]; intros u b p Hfuel Hb Hp.
  - cbn [scale_loop]. change (length unit_suffix) with 7%nat.
    destruct (Nat.ltb_spec u 7) as [|Hu]; [lia|]. rewrite andb_false_r.
    exists b, p, u. split_and!; try done. by right.
  - cbn [scale_loop]. change (length unit_suffix) with 7%nat. unfold kKibiSize.
    destruct (N.ltb_spec 1024 b) as [Hbig|Hsmall]; cbn [andb].
    2:{ exists b, p, u. split_and!; try done. by left. }
    destruct (Nat.ltb_spec u 7) as [Hu|Hu].
    2:{ exists b, p, u. split_and!; try done. by right. }
    destruct (IH (S u) (b / 1024) b) as (b' & p' & u' & Hrun & Hle & Hb' & Hp' & Hend).
    { lia. }
    { rewrite Hb, N.Div0.div_div. f_equal.
      replace (N.of_nat (S u)) with (N.succ (N.of_nat u)) by lia.
      by rewrite N.pow_succ_r', N.mul_comm. }
    { intros _. replace (S u - 1)%nat with u by lia. done. }
    exists b', p', u'. split_and!; try done. lia.
Qed.

Lemma places_loop_digits (r : N) :
  r < 1024 →
  places_loop 3 0 r [0; 0; 0] false
  = ([r / 100 mod 10; r / 10 mod 10; r mod 10], negb (r =? 0)).
Proof.
  intros Hr.
  assert (forallb (λ r, bool_decide
            (places_loop 3 0 r [0; 0; 0] false
             = ([r / 100 mod 10; r / 10 mod 10; r mod 10], negb (r =? 0))))
            (N.of_nat <$> seq 0 1024) = true) as Hall
    by (vm_compute; reflexivity).
  rewrite forallb_forall in Hall.
  assert (In r (N.of_nat <$> seq 0 1024)) as Hin.
  { apply list_elem_of_In, list_elem_of_fmap. exists (N.to_nat r).
    split; [lia|]. apply list_elem_of_In, in_seq. lia. }
  apply Hall in Hin. by apply bool_decide_eq_true in Hin.
Qed.

(** The run of [makeMemoryDisplayString] on a 64 bit value. *)
Lemma makeMemoryDisplayString_run (bytes : N) :
  bytes < 2 ^ 64 →
  ∃ (u : nat) (suffix : string),
    (u ≤ 6)%nat ∧ unit_suffix !! u = Some suffix ∧
    bytes / 1024 ^ N.of_nat u ≤ 1024 ∧
    (u = 0%nat ↔ bytes ≤ 1024) ∧
    ((0 < u)%nat → 1 ≤ bytes / 1024 ^ N.of_nat u
                   ∧ 1024 < bytes / 1024 ^ N.of_nat (u - 1)) ∧
    makeMemoryDisplayString bytes
    = Some (show (bytes / 1024 ^ N.of_nat u)
            +:+ (if (0 <? u)%nat then
                   let r := (bytes / 1024 ^ N.of_nat (u - 1)) mod 1024 in
                   if r =? 0 then EmptyString
                   else "." +:+ places_out [r / 100 mod 10; r / 10 mod 10; r mod 10]
                 else EmptyString)
            +:+ " " +:+ suffix).
Proof.
  intros Hbytes. unfold makeMemoryDisplayString.
  destruct (scale_loop_spec bytes 8 0 bytes 0)
    as (b' & p' & u & Hrun & _ & Hb' & Hp' & Hend).
  { lia. }
  { simpl. by rewrite N.div_1_r. }
  { lia. }
  rewrite Hrun.
  assert (u ≤ 6)%nat as Hu.
  { destruct (decide (u ≤ 6)%nat) as [|Hn]; [done|]. exfalso.
    destruct Hp' as [Hp' Hbig]; [lia|].
    assert (bytes / 1024 ^ N.of_nat (u - 1) ≤ bytes / 1024 ^ 6) as Hmono.
    { apply N.div_le_compat_l. split; [by vm_compute|].
      apply N.pow_le_mono_r; lia. }
    assert (bytes / 1024 ^ 6 < 16).
    { apply N.Div0.div_lt_upper_bound. exact Hbytes. }
    lia. }
  assert (b' ≤ 1024) as Hsmall by (destruct Hend; [done | lia]).
  destruct (lookup_lt_is_Some_2 unit_suffix u) as [suffix Hsuffix];
    [change (length unit_suffix) with 7%nat; lia|].
  exists u, suffix. rewrite Hsuffix, <- Hb'.
  split_and!; try done.
  - split.
    + intros ->. simpl in Hb'. rewrite N.div_1_r in Hb'. lia.
    + intros Hle. destruct u as [|u]; [done|]. destruct Hp' as [Hp' Hbig]; [lia|].
      assert (bytes / 1024 ^ N.of_nat (S u - 1) ≤ bytes)
        by (apply N.Div0.div_le_upper_bound;
            assert (1 ≤ 1024 ^ N.of_nat (S u - 1)) by (apply N.lt_pred_le, N.neq_0_lt_0, N.pow_nonzero; done);
            nia).
      lia.
  - intros Hpos. destruct Hp' as [Hp' Hbig]; [done|]. split; [|by rewrite <- Hp'].
    rewrite Hb'. replace (N.of_nat u) with (N.succ (N.of_nat (u - 1))) by lia.
    rewrite N.pow_succ_r', N.mul_comm, <- N.Div0.div_div, <- Hp'.
    apply N.div_le_lower_bound; lia.
  - destruct (Nat.ltb_spec 0 u) as [Hpos|Hzero].
    + destruct Hp' as [Hp' _]; [done|]. rewrite <- Hp'. cbv zeta.
      unfold kKibiSize.
      assert (p' mod 1024 < 1024) as Hr by (apply N.mod_lt; done).
      assert (u64 (p' mod 1024 * 1024) / 1024 = p' mod 1024) as ->.
      { unfold u64. rewrite N.mod_small.
        - apply N.div_mul. done.
        - assert (1024 * 1024 < 2 ^ 64) by (vm_compute; reflexivity). nia. }
      rewrite places_loop_digits by done.
      by destruct (p' mod 1024 =? 0).
    + done.
Qed.

(** X17. For every 64 bit byte count [makeMemoryDisplayString] gives a
    string; the unit it picks is one of the seven of the table (the index
    stays at most 6), the number before the unit is the byte count divided
    by 1024 to the unit's power, rounded down, and is at most 1024; counts
    up to 1024 inclusive are shown in bytes, and with a larger unit the
    number shown is at least 1. *)
Theorem makeMemoryDisplayString_unit (bytes : N) :
  bytes < 2 ^ 64 →
  ∃ (u : nat) (suffix fraction : string),
    (u ≤ 6)%nat ∧ unit_suffix !! u = Some suffix ∧
    makeMemoryDisplayString bytes
    = Some (show (bytes / 1024 ^ N.of_nat u) +:+ fraction +:+ " " +:+ suffix) ∧
    bytes / 1024 ^ N.of_nat u ≤ 1024 ∧
    (u = 0%nat ↔ bytes ≤ 1024) ∧
    (u = 0%nat → fraction = EmptyString) ∧
    ((0 < u)%nat → 1 ≤ bytes / 1024 ^ N.of_nat u).
Proof.
  intros Hbytes.
  destruct (makeMemoryDisplayString_run bytes Hbytes)
    as (u & suffix & Hu & Hsuffix & Hle & Hzero & Hpos & Hrun).
  exists u, suffix. eexists. split_and!; try done.
  - by intros ->.
  - intros H. by apply Hpos.
Qed.

(** X18. With a unit above bytes, what follows the number is not a decimal
    fraction: it is empty when the last division by 1024 left no remainder,
    and otherwise a point followed by the hundreds, tens and ones digit of
    that remainder, in this order, up to the first digit that is zero.  So
    1536 bytes read [1.512 KiB] and 1029 bytes read [1. KiB]. *)
Theorem makeMemoryDisplayString_fraction (bytes : N) (u : nat) (suffix : string) :
  bytes < 2 ^ 64 →
  (0 < u)%nat →
  unit_suffix !! u = Some suffix →
  1024 < bytes / 1024 ^ N.of_nat (u - 1) →
  bytes / 1024 ^ N.of_nat u ≤ 1024 →
  let r := (bytes / 1024 ^ N.of_nat (u - 1)) mod 1024 in
  makeMemoryDisplayString bytes
  = Some (show (bytes / 1024 ^ N.of_nat u)
          +:+ (if r =? 0 then EmptyString
               else "." +:+ places_out [r / 100 mod 10; r / 10 mod 10; r mod 10])
          +:+ " " +:+ suffix).
Proof.
  intros Hbytes Hu Hsuffix Hprev Hwhole. cbv zeta.
  destruct (makeMemoryDisplayString_run bytes Hbytes)
    as (u' & suffix' & Hu' & Hsuffix' & Hle' & Hzero' & Hpos' & Hrun).
  assert (u' = u) as ->.
  { destruct (decide (u' = 0%nat)) as [->|Hne].
    - assert (bytes ≤ 1024) by (by apply Hzero').
      assert (bytes / 1024 ^ N.of_nat (u - 1) ≤ bytes)
        by (apply N.Div0.div_le_upper_bound;
            assert (1 ≤ 1024 ^ N.of_nat (u - 1))
              by (apply N.lt_pred_le, N.neq_0_lt_0, N.pow_nonzero; done);
            nia).
      lia.
    - destruct Hpos' as [_ Hprev']; [lia|].
      destruct (Nat.lt_trichotomy u' u) as [Hlt|[->|Hgt]]; [exfalso | done | exfalso].
      + assert (bytes / 1024 ^ N.of_nat (u - 1) ≤ bytes / 1024 ^ N.of_nat u').
        { apply N.div_le_compat_l. split.
          - apply N.neq_0_lt_0, N.pow_nonzero. done.
          - apply N.pow_le_mono_r; lia. }
        lia.
      + assert (bytes / 1024 ^ N.of_nat (u' - 1) ≤ bytes / 1024 ^ N.of_nat u).
        { apply N.div_le_compat_l. split.
          - apply N.neq_0_lt_0, N.pow_nonzero. done.
          - apply N.pow_le_mono_r; lia. }
        lia. }
  rewrite Hrun. destruct (Nat.ltb_spec 0 u); [|lia].
  rewrite Hsuffix in Hsuffix'. injection Hsuffix' as <-. done.
Qed.

End MemoryDisplay.

Lemma makeMemoryDisplayString_unit_witness :
  ∃ (u : nat) (suffix fraction : string),
    OhmUtil.unit_suffix !! u = Some suffix ∧
    OhmUtil.makeMemoryDisplayString 1048576
    = Some (OhmUtil.show (1048576 / 1024 ^ N.of_nat u)%N +:+ fraction +:+ " " +:+ suffix).
Proof.
  destruct (makeMemoryDisplayString_unit 1048576)
    as (u & suffix & fraction & _ & Hs & Hrun & _); [reflexivity|].
  exists u, suffix, fraction. split; [exact Hs | exact Hrun].
Defined.

Lemma makeMemoryDisplayString_fraction_witness :
  OhmUtil.makeMemoryDisplayString 1536 = Some "1.512 KiB"%string.
Proof.
  apply (makeMemoryDisplayString_fraction 1536 1 "KiB");
    [reflexivity | lia | reflexivity | reflexivity | vm_compute; discriminate].
Defined.

Lemma string_app_nil_r (s : string) : s +:+ EmptyString = s.
Proof.
  induction s as [|c s IH]; [done|].
  change (String c (s +:+ EmptyString) = String c s). by rewrite IH.
Qed.

Lemma string_app_assoc (s1 s2 s3 : string) : (s1 +:+ s2) +:+ s3 = s1 +:+ (s2 +:+ s3).
Proof.
  induction s1 as [|c s1 IH]; [done|].
  change (String c ((s1 +:+ s2) +:+ s3) = String c (s1 +:+ (s2 +:+ s3))).
  by rewrite IH.
Qed.

Section DelimitedInteger.
Import OhmUtil.
Local Open Scope N_scope.
Variable delimiter : ascii.

Lemma delimit_loop_acc (fuel : nat) :
  ∀ t r str,
    delimit_loop fuel t r delimiter str
    = (λ s, s +:+ str) <$> delimit_loop fuel t r delimiter EmptyString.
Proof.
  induction fuel as [|fuel IH]; intros t r str; cbn [delimit_loop].
  - by destruct (_ || _).
  - destruct (_ || _); [|done].
    rewrite IH. rewrite (IH _ _ (_ +:+ EmptyString)).
    destruct (delimit_loop fuel _ _ _ _) as [s|]; [|done].
    unfold fmap, option_fmap, option_map.
    by rewrite string_app_nil_r, string_app_assoc.
Qed.

Lemma delimit_loop_mono (f1 : nat) :
  ∀ f2 t r str s,
    (f1 ≤ f2)%nat →
    delimit_loop f1 t r delimiter str = Some s →
    delimit_loop f2 t r delimiter str = Some s.
Proof.
  induction f1 as [|f1 IH]; intros f2 t r str s Hle; cbn [delimit_loop].
  - destruct (_ || _) eqn:Hc; [done|]. intros [= <-].
    destruct f2; cbn [delimit_loop]; by rewrite Hc.
  - destruct f2 as [|f2]; [lia|]. cbn [delimit_loop].
    destruct (_ || _); [|done]. apply IH. lia.
Qed.

Lemma log2_div_1000 (n : N) : 1000 ≤ n → N.log2 (n / 1000) < N.log2 n.
Proof.
  intros Hn.
  assert (0 < n / 1000) by (apply N.div_str_pos; lia).
  apply N.log2_lt_pow2; [done|].
  destruct (N.log2_spec n) as [_ Hup]; [lia|].
  rewrite N.pow_succ_r' in Hup.
  apply N.Div0.div_lt_upper_bound. lia.
Qed.

Lemma delimit_loop_total (fuel : nat) :
  ∀ t r str,
    r = 0 ∧ t = 0 ∨ N.log2 (r * 1000 + t) < N.of_nat fuel →
    is_Some (delimit_loop fuel t r delimiter str).
Proof.
  induction fuel as [|fuel IH]; intros t r str Hfuel; cbn [delimit_loop].
  - destruct Hfuel as [[-> ->]|]; [done | lia].
  - destruct (_ || _); [|done]. apply IH. unfold kThousand.
    destruct (N.eq_dec r 0) as [->|Hr]; [by left|]. right.
    destruct Hfuel as [[-> _]|Hfuel]; [done|].
    replace (r / 1000 * 1000 + r mod 1000) with r
      by (pose proof (N.div_mod' r 1000); lia).
    apply N.log2_lt_pow2 in Hfuel; [|lia].
    apply N.log2_lt_pow2; [lia|].
    replace (N.of_nat (S fuel)) with (N.succ (N.of_nat fuel)) in Hfuel by lia.
    rewrite N.pow_succ_r' in Hfuel. lia.
Qed.

(** The groups of three, as a recursion on the integer. *)
Lemma delimetedInteger_step (n : N) :
  1000 ≤ n →
  ∃ s, delimetedInteger (n / 1000) delimiter = Some s ∧
       delimetedInteger n delimiter
       = Some (s +:+ String delimiter (pad 3 "0" (show (n mod 1000)))).
Proof.
  intros Hn.
  assert (0 < n / 1000) as Hr by (apply N.div_str_pos; lia).
  destruct (delimit_loop_total (S (N.to_nat (N.log2 (n / 1000))))
              ((n / 1000) mod 1000) (n / 1000 / 1000) EmptyString) as [s Hs].
  { right.
    replace (n / 1000 / 1000 * 1000 + (n / 1000) mod 1000) with (n / 1000)
      by (pose proof (N.div_mod' (n / 1000) 1000); lia).
    lia. }
  exists s. split; [exact Hs|].
  unfold delimetedInteger. cbn [delimit_loop]. unfold kThousand.
  destruct (N.ltb_spec 0 (n / 1000)) as [_|]; [|lia]. cbn [orb].
  destruct (N.eqb_spec (n / 1000) 0) as [|_]; [lia|]. cbn [negb].
  rewrite delimit_loop_acc.
  rewrite (delimit_loop_mono (S (N.to_nat (N.log2 (n / 1000))))
             (N.to_nat (N.log2 n)) _ _ _ s); [| |exact Hs].
  - unfold fmap, option_fmap, option_map. by rewrite string_app_nil_r.
  - pose proof (log2_div_1000 n Hn). lia.
Qed.

Lemma delimetedInteger_small (n : N) :
  0 < n < 1000 → delimetedInteger n delimiter = Some (show n).
Proof.
  intros Hn. unfold delimetedInteger, kThousand.
  rewrite N.mod_small, N.div_small by lia.
  cbn [delimit_loop]. destruct (N.ltb_spec 0 n) as [_|]; [|lia].
  cbn [orb N.eqb negb]. unfold kThousand.
  change (0 mod 1000) with 0. change (0 / 1000) with 0.
  rewrite string_app_nil_r.
  destruct (N.to_nat (N.log2 n)); reflexivity.
Qed.

(** X19. [delimetedInteger] builds the string from the least significant
    group, and what it gives is the grouping by thousands read from the
    front: nothing at all for 0 (not the digit 0), the plain decimal digits
    below 1000, and from 1000 on the string of the integer divided by 1000,
    the delimiter, and the last three digits with leading zeros kept. *)
Theorem delimetedInteger_groups :
  delimetedInteger 0 delimiter = Some EmptyString ∧
  (∀ n, 0 < n < 1000 → delimetedInteger n delimiter = Some (show n)) ∧
  (∀ n, 1000 ≤ n →
     ∃ s, delimetedInteger (n / 1000) delimiter = Some s ∧
          delimetedInteger n delimiter
          = Some (s +:+ String delimiter (pad 3 "0" (show (n mod 1000))))).
Proof.
  split_and!; [reflexivity | apply delimetedInteger_small | apply delimetedInteger_step].
Qed.

Lemma read_digits_acc (s : string) :
  ∀ acc, read_digits s acc = acc * 10 ^ N.of_nat (digit_count s) + read_digits s 0.
Proof.
  induction s as [|c s IH]; intros acc; cbn [read_digits digit_count].
  - simpl. lia.
  - destruct (digit_of c) as [v|].
    + rewrite IH, (IH (0 * 10 + v)).
      replace (N.of_nat (1 + digit_count s)) with (N.succ (N.of_nat (digit_count s)))
        by lia.
      rewrite N.pow_succ_r'. lia.
    + simpl. apply IH.
Qed.

Lemma read_digits_app (s1 s2 : string) :
  ∀ acc, read_digits (s1 +:+ s2) acc = read_digits s2 (read_digits s1 acc).
Proof.
  induction s1 as [|c s1 IH]; intros acc; [done|].
  change (String c s1 +:+ s2) with (String c (s1 +:+ s2)).
  cbn [read_digits]. by destruct (digit_of c).
Qed.

Lemma read_digits_group (t : N) :
  t < 1000 →
  read_digits (show t) 0 = t ∧
  read_digits (pad 3 "0" (show t)) 0 = t ∧
  digit_count (pad 3 "0" (show t)) = 3%nat.
Proof.
  intros Ht.
  assert (forallb (λ t, (read_digits (show t) 0 =? t)
                        && (read_digits (pad 3 "0" (show t)) 0 =? t)
                        && (digit_count (pad 3 "0" (show t)) =? 3)%nat)
            (N.of_nat <$> seq 0 1000) = true) as Hall
    by (vm_compute; reflexivity).
  rewrite forallb_forall in Hall.
  assert (In t (N.of_nat <$> seq 0 1000)) as Hin.
  { apply list_elem_of_In, list_elem_of_fmap. exists (N.to_nat t).
    split; [lia|]. apply list_elem_of_In, in_seq. lia. }
  apply Hall in Hin. apply andb_true_iff in Hin as [Hin H3].
  apply andb_true_iff in Hin as [H1 H2].
  apply N.eqb_eq in H1, H2. apply Nat.eqb_eq in H3. done.
Qed.

(** X20. With a delimiter that is not a decimal digit, the digits of the
    string [delimetedInteger] gives, read in order with the delimiters
    skipped, are the integer again. *)
Theorem delimetedInteger_round_trip (n : N) :
  digit_of delimiter = None →
  ∃ s, delimetedInteger n delimiter = Some s ∧ read_digits s 0 = n.
Proof.
  intros Hd. induction n as [n IH] using (well_founded_induction N.lt_wf_0).
  destruct (N.lt_ge_cases n 1000) as [Hsmall|Hbig].
  - destruct (N.eq_dec n 0) as [->|Hn].
    + by exists EmptyString.
    + exists (show n). split; [apply delimetedInteger_small; lia|].
      by apply read_digits_group.
  - destruct (delimetedInteger_step n Hbig) as (s & Hs & Hrun).
    destruct (IH (n / 1000)) as (s' & Hs' & Hval).
    { apply N.div_lt; lia. }
    rewrite Hs in Hs'. injection Hs' as <-.
    eexists. split; [exact Hrun|].
    rewrite read_digits_app. cbn [read_digits]. rewrite Hd, Hval.
    rewrite read_digits_acc.
    destruct (read_digits_group (n mod 1000)) as (_ & -> & ->);
      [apply N.mod_lt; done|].
    change (10 ^ N.of_nat 3) with 1000.
    pose proof (N.div_mod' n 1000). lia.
Qed.

End DelimitedInteger.

Lemma delimetedInteger_round_trip_witness :
  ∃ s, OhmUtil.delimetedInteger 1234567 "," = Some s ∧ OhmUtil.read_digits s 0 = 1234567%N.
Proof. apply delimetedInteger_round_trip. reflexivity. Defined.

Section LogDuration.
Import OhmUtil.

Local Ltac div_lia := zify; Z.to_euclidean_division_equations; lia.

Lemma pad3_length (t : N) : (t < 1000)%N → String.length (pad 3 "0" (show t)) = 3%nat.
Proof.
  intros Ht.
  assert (forallb (λ t, (String.length (pad 3 "0" (show t)) =? 3)%nat)
            (N.of_nat <$> seq 0 1000) = true) as Hall
    by (vm_compute; reflexivity).
  rewrite forallb_forall in Hall.
  assert (In t (N.of_nat <$> seq 0 1000)) as Hin.
  { apply list_elem_of_In, list_elem_of_fmap. exists (N.to_nat t).
    split; [lia|]. apply list_elem_of_In, in_seq. lia. }
  apply Hall in Hin. by apply Nat.eqb_eq in Hin.
Qed.

Lemma logDuration_run (out : ostream) (d : Z) :
  (- 2 ^ 63 < d < 2 ^ 63)%Z →
  logDuration out d
  = Some (logged out (if (d <? 0)%Z then "-" else EmptyString) (Z.to_N (Z.abs d))).
Proof.
  intros Hd. unfold logDuration, logged, kThousand.
  destruct (Z.eqb_spec d (- 2 ^ 63)) as [|_]; [lia|].
  assert (Z.to_N (if negb (d <? 0)%Z then d else (d * -1)%Z) = Z.to_N (Z.abs d)) as ->.
  { destruct (Z.ltb_spec d 0); cbn [negb]; f_equal; lia. }
  set (a := Z.to_N (Z.abs d)).
  set (sign := if (d <? 0)%Z then _ else _).
  assert ((if negb (d <? 0)%Z then EmptyString else "-"%string) = sign) as ->
    by (subst sign; by destruct (d <? 0)%Z).
  destruct (negb (a / 1000000000 =? 0)%N);
    [| destruct (negb ((a / 1000000) mod 1000 =? 0)%N);
       [| destruct (negb ((a / 1000) mod 1000 =? 0)%N)]];
    unfold put_w, put, setfill; cbn [text fill]; f_equal; f_equal;
    by rewrite !string_app_assoc.
Qed.

(** X21. A duration that is not negative is shown truncated, not rounded:
    below a microsecond as the count of nanoseconds, otherwise in seconds,
    milliseconds or microseconds as a whole part, a point and exactly three
    decimals.  The value shown is at most the duration and less than one
    unit of the last decimal below it; the unit is the largest with a whole
    part of at least 1, so the whole part is below 1000 except in seconds.
    (0.93 s reads [930.000ms].) *)
Theorem logDuration_truncates (d : Z) :
  (0 ≤ d < 2 ^ 63)%Z →
  ((d < 1000)%Z ∧ timeString d = Some (show (Z.to_N d) +:+ "ns")) ∨
  ∃ (U whole frac : N) (suffix : string),
    (U, suffix) ∈ [(1000000000, "s"); (1000000, "ms"); (1000, "us")]%N ∧
    timeString d
    = Some (show whole +:+ "." +:+ pad 3 "0" (show frac) +:+ suffix) ∧
    String.length (pad 3 "0" (show frac)) = 3%nat ∧
    (1 ≤ whole)%N ∧ (frac < 1000)%N ∧ (suffix ≠ "s"%string → (whole < 1000)%N) ∧
    (whole * U + frac * (U / 1000) ≤ Z.to_N d
     < whole * U + (frac + 1) * (U / 1000))%N.
Proof.
  intros Hd. unfold timeString. rewrite logDuration_run by lia.
  destruct (Z.ltb_spec d 0) as [|_]; [lia|].
  rewrite Z.abs_eq by lia. set (a := Z.to_N d). unfold logged.
  cbn [text fill].
  destruct (N.eqb_spec (a / 1000000000) 0) as [Hs|Hs]; cbn [negb].
  2:{ right. exists 1000000000%N, (a / 1000000000)%N, ((a / 1000000) mod 1000)%N, "s"%string.
      split_and!.
      - apply list_elem_of_here.
      - reflexivity.
      - apply pad3_length. by apply N.mod_lt.
      - div_lia.
      - by apply N.mod_lt.
      - done.
      - change (1000000000 / 1000)%N with 1000000%N.
        div_lia.
      - change (1000000000 / 1000)%N with 1000000%N.
        div_lia. }
  destruct (N.eqb_spec ((a / 1000000) mod 1000) 0) as [Hms|Hms]; cbn [negb].
  2:{ right. exists 1000000%N, ((a / 1000000) mod 1000)%N, ((a / 1000) mod 1000)%N, "ms"%string.
      split_and!.
      - apply list_elem_of_further, list_elem_of_here.
      - reflexivity.
      - apply pad3_length. by apply N.mod_lt.
      - div_lia.
      - by apply N.mod_lt.
      - intros _. by apply N.mod_lt.
      - change (1000000 / 1000)%N with 1000%N.
        div_lia.
      - change (1000000 / 1000)%N with 1000%N.
        div_lia. }
  destruct (N.eqb_spec ((a / 1000) mod 1000) 0) as [Hus|Hus]; cbn [negb].
  2:{ right. exists 1000%N, ((a / 1000) mod 1000)%N, (a mod 1000)%N, "us"%string.
      split_and!.
      - apply list_elem_of_further, list_elem_of_further, list_elem_of_here.
      - reflexivity.
      - apply pad3_length. by apply N.mod_lt.
      - div_lia.
      - by apply N.mod_lt.
      - intros _. by apply N.mod_lt.
      - change (1000 / 1000)%N with 1%N.
        div_lia.
      - change (1000 / 1000)%N with 1%N.
        div_lia. }
  left.
  assert (a < 1000)%N as Ha by div_lia.
  split; [lia|]. rewrite N.mod_small by done. reflexivity.
Qed.

(** X22. Whatever the stream held, [logDuration] appends to it: a minus
    sign for a negative duration, and the text of the magnitude.  It leaves
    the fill character of the stream at ['0'] whenever the magnitude is a
    microsecond or more: [std::setfill] is not undone. *)
Theorem logDuration_appends (out : ostream) (d : Z) :
  (- 2 ^ 63 < d < 2 ^ 63)%Z →
  ∃ body out',
    timeString (Z.abs d) = Some body ∧
    logDuration out d = Some out' ∧
    text out' = text out +:+ (if (d <? 0)%Z then "-" else EmptyString) +:+ body ∧
    fill out' = (if (Z.abs d <? 1000)%Z then fill out else "0"%char).
Proof.
  intros Hd. unfold timeString. rewrite !logDuration_run by lia.
  destruct (Z.ltb_spec (Z.abs d) 0) as [|_]; [lia|].
  rewrite Z.abs_idemp. set (a := Z.to_N (Z.abs d)).
  set (sign := if (d <? 0)%Z then _ else _).
  eexists _, _. split; [reflexivity|]. split; [reflexivity|].
  unfold logged. cbn [text fill].
  destruct (N.eqb_spec (a / 1000000000) 0) as [Hs|Hs]; cbn [negb text fill].
  2:{ split; [reflexivity|].
      destruct (Z.ltb_spec (Z.abs d) 1000) as [Hlt|]; [|done].
      exfalso. apply Hs. apply N.div_small. lia. }
  destruct (N.eqb_spec ((a / 1000000) mod 1000) 0) as [Hms|Hms]; cbn [negb text fill].
  2:{ split; [reflexivity|].
      destruct (Z.ltb_spec (Z.abs d) 1000) as [Hlt|]; [|done].
      exfalso. apply Hms. rewrite N.div_small by lia. done. }
  destruct (N.eqb_spec ((a / 1000) mod 1000) 0) as [Hus|Hus]; cbn [negb text fill].
  2:{ split; [reflexivity|].
      destruct (Z.ltb_spec (Z.abs d) 1000) as [Hlt|]; [|done].
      exfalso. apply Hus. rewrite N.div_small by lia. done. }
  split; [reflexivity|].
  destruct (Z.ltb_spec (Z.abs d) 1000) as [|Hge]; [done|].
  exfalso. subst a. div_lia.
Qed.

End LogDuration.

Lemma logDuration_truncates_witness :
  ∃ (whole frac : N) (suffix : string),
    OhmUtil.timeString 930000000
    = Some (OhmUtil.show whole +:+ "." +:+ OhmUtil.pad 3 "0" (OhmUtil.show frac) +:+ suffix).
Proof.
  destruct (logDuration_truncates 930000000) as [[Hlt _]|(U & whole & frac & suffix & _ & H & _)];
    [lia | lia |].
  exists whole, frac, suffix. exact H.
Defined.

Lemma logDuration_appends_witness :
  ∃ out',
    OhmUtil.logDuration {| OhmUtil.text := "took "; OhmUtil.fill := " " |} (-29318)
    = Some out' ∧
    OhmUtil.fill out' = "0"%char.
Proof.
  destruct (logDuration_appends {| OhmUtil.text := "took "; OhmUtil.fill := " " |} (-29318))
    as (body & out' & _ & Hrun & _ & Hfill); [lia|].
  exists out'. split; [exact Hrun | exact Hfill].
Defined.

(** ** ohm2ply: signals, export modes, clearance colours *)

Section Ohm2PlyExtra.
Import Ohm2Ply.

Lemma onSignals_count (args : list Z) :
  ∀ quit,
    0 ≤ quit →
    quit + Z.of_nat (length args) < 2 ^ 31 →
    onSignals quit args
    = Some (quit + Z.of_nat (length (filter (λ arg, arg = SIGINT ∨ arg = SIGTERM) args))).
Proof.
  induction args as [|arg args IH]; intros quit Hq Hlen; cbn [onSignals].
  - simpl. f_equal. lia.
  - unfold onSignal. cbn [length] in Hlen. rewrite filter_cons.
    destruct (Z.eqb_spec arg SIGINT) as [Hi|Hi];
      destruct (Z.eqb_spec arg SIGTERM) as [Ht|Ht]; cbn [orb];
      try (destruct (Z.eqb_spec quit (2 ^ 31 - 1)) as [|_]; [lia|]);
      (rewrite IH by lia);
      (destruct (decide (arg = SIGINT ∨ arg = SIGTERM)) as [Hd|Hd];
       [|try (exfalso; apply Hd; tauto)]);
      try (destruct Hd; done);
      cbn [length]; f_equal; lia.
Qed.

(** X23. The handler counts the interrupt and termination signals and
    nothing else.  The export loop and the final save are given up at the
    first of them, loading the map only at the second: after a single
    signal the map is still loaded in full, then nothing is exported. *)
Theorem onSignals_thresholds (args : list Z) :
  Z.of_nat (length args) < 2 ^ 31 →
  let n := length (filter (λ arg, arg = SIGINT ∨ arg = SIGTERM) args) in
  onSignals 0 args = Some (Z.of_nat n) ∧
  (export_continues (Z.of_nat n) = true ↔ n = 0%nat) ∧
  (LoadMapProgress_quit (Z.of_nat n) = true ↔ (2 ≤ n)%nat).
Proof.
  intros Hlen. cbv zeta. rewrite onSignals_count by lia.
  split_and!; [done | |].
  - unfold export_continues. rewrite Z.eqb_eq. lia.
  - unfold LoadMapProgress_quit. rewrite Z.ltb_lt. lia.
Qed.

Lemma take_token_word (word rest : string) :
  (∀ c, c ∈ String.list_ascii_of_string word → is_space c = false) →
  rest = EmptyString ∨ (∃ c rest', rest = String c rest' ∧ is_space c = true) →
  take_token (word +:+ rest) = (word, rest).
Proof.
  intros Hword Hrest. induction word as [|c word IH].
  - change (EmptyString +:+ rest) with rest.
    destruct Hrest as [->|(c & rest' & -> & Hc)]; [done|].
    cbn [take_token]. by rewrite Hc.
  - change (String c word +:+ rest) with (String c (word +:+ rest)).
    cbn [take_token]. rewrite (Hword c) by (simpl; apply list_elem_of_here).
    rewrite IH; [done|]. intros c' Hc'. apply Hword. simpl.
    by apply list_elem_of_further.
Qed.

Lemma skip_space_spaces (ws s : string) :
  (∀ c, c ∈ String.list_ascii_of_string ws → is_space c = true) →
  skip_space (ws +:+ s) = skip_space s.
Proof.
  intros Hws. induction ws as [|c ws IH]; [done|].
  change (String c ws +:+ s) with (String c (ws +:+ s)).
  cbn [skip_space]. rewrite (Hws c) by (simpl; apply list_elem_of_here).
  apply IH. intros c' Hc'. apply Hws. simpl. by apply list_elem_of_further.
Qed.

Lemma skip_space_only (ws : string) :
  (∀ c, c ∈ String.list_ascii_of_string ws → is_space c = true) →
  skip_space ws = EmptyString.
Proof.
  intros Hws. induction ws as [|c ws IH]; [done|].
  cbn [skip_space]. rewrite (Hws c) by (simpl; apply list_elem_of_here).
  apply IH. intros c' Hc'. apply Hws. simpl. by apply list_elem_of_further.
Qed.

(** Reading a word: white space, then a word, then the end of the input or
    more white space. *)
Lemma get_string_word (ws word rest : string) :
  (∀ c, c ∈ String.list_ascii_of_string ws → is_space c = true) →
  word ≠ EmptyString →
  (∀ c, c ∈ String.list_ascii_of_string word → is_space c = false) →
  rest = EmptyString ∨ (∃ c rest', rest = String c rest' ∧ is_space c = true) →
  get_string (istringstream (ws +:+ word +:+ rest))
  = (word,
     {| unread := rest; failbit := false;
        eofbit := match rest with EmptyString => true | String _ _ => false end |}).
Proof.
  intros Hws Hne Hword Hrest. unfold get_string, istringstream.
  cbn [good failbit eofbit unread negb andb].
  rewrite skip_space_spaces by done.
  destruct word as [|c word]; [done|].
  change (String c word +:+ rest) with (String c (word +:+ rest)).
  cbn [skip_space]. rewrite (Hword c) by (simpl; apply list_elem_of_here).
  change (String c (word +:+ rest)) with (String c word +:+ rest).
  by rewrite take_token_word.
Qed.

Lemma mode_word (mode : ExportMode) :
  put_mode EmptyString mode ≠ EmptyString ∧
  (∀ c, c ∈ String.list_ascii_of_string (put_mode EmptyString mode) →
        is_space c = false).
Proof.
  destruct mode; (split; [done|]); intros c Hc; simpl in Hc;
    repeat (apply elem_of_cons in Hc as [->|Hc]; [reflexivity|]);
    by apply elem_of_nil in Hc.
Qed.

(** X24. Reading back what [operator<<] writes for an export mode, from a
    fresh stream and after any white space, gives that mode, whatever the
    mode variable held before, and takes just the white space and the
    written word off the input, when the word ends the input or white space
    follows it.  The stream does not fail, and is at its end exactly when
    the word ended the input. *)
Theorem get_mode_put_mode (mode mode0 : ExportMode) (ws rest : string) :
  (∀ c, c ∈ String.list_ascii_of_string ws → is_space c = true) →
  rest = EmptyString ∨ (∃ c rest', rest = String c rest' ∧ is_space c = true) →
  get_mode (istringstream (ws +:+ put_mode EmptyString mode +:+ rest)) mode0
  = (mode,
     {| unread := rest; failbit := false;
        eofbit := match rest with EmptyString => true | String _ _ => false end |}).
Proof.
  intros Hws Hrest. unfold get_mode.
  destruct (mode_word mode) as [Hne Hword].
  rewrite get_string_word by done.
  by destruct mode.
Qed.

(** X25. A word that is neither [occupancy] nor [clearance] is taken off
    the input like a mode word, leaves the mode as it was and leaves the
    stream good: the caller is not told of it.  The stream fails only when
    there is no word to read: with nothing but white space left it fails at
    its end, and a stream that is not good on entry fails with nothing
    read; the mode is as it was then too. *)
Theorem get_mode_unknown (mode : ExportMode) :
  (∀ ws word rest,
     (∀ c, c ∈ String.list_ascii_of_string ws → is_space c = true) →
     word ≠ EmptyString →
     (∀ c, c ∈ String.list_ascii_of_string word → is_space c = false) →
     rest = EmptyString ∨ (∃ c rest', rest = String c rest' ∧ is_space c = true) →
     word ≠ "occupancy"%string → word ≠ "clearance"%string →
     get_mode (istringstream (ws +:+ word +:+ rest)) mode
     = (mode,
        {| unread := rest; failbit := false;
           eofbit := match rest with EmptyString => true | String _ _ => false end |})) ∧
  (∀ ws,
     (∀ c, c ∈ String.list_ascii_of_string ws → is_space c = true) →
     get_mode (istringstream ws) mode
     = (mode, {| unread := EmptyString; failbit := true; eofbit := true |})) ∧
  (∀ i,
     good i = false →
     get_mode i mode
     = (mode, {| unread := unread i; failbit := true; eofbit := eofbit i |})).
Proof.
  split_and!.
  - intros ws word rest Hws Hne Hword Hrest Ho Hc. unfold get_mode.
    rewrite get_string_word by done.
    destruct (String.eqb_spec word "occupancy") as [|_]; [done|].
    destruct (String.eqb_spec word "clearance") as [|_]; [done|].
    done.
  - intros ws Hws. unfold get_mode, get_string, istringstream.
    cbn [good failbit eofbit unread negb andb].
    by rewrite skip_space_only.
  - intros i Hi. unfold get_mode, get_string. by rewrite Hi.
Qed.

Lemma clearance_shown_bounds (colour_scale range_value : Q) :
  clearance_shown colour_scale range_value = true →
  (0 <= range_value)%Q ∧ (range_value < colour_scale)%Q.
Proof.
  unfold clearance_shown. intros H. apply andb_true_iff in H as [H0 H1].
  apply Qle_bool_iff in H0. apply negb_true_iff in H1. split; [done|].
  apply Qnot_le_lt. intros Hle. apply Qle_bool_iff in Hle. congruence.
Qed.

Lemma narrow_1 : Float32.narrow 1 = Some 1%Q.
Proof. reflexivity. Qed.

Lemma narrow_255 : Float32.narrow 255 = Some 255%Q.
Proof. reflexivity. Qed.

(** The [float]s on the way to the colour of a clearance that is shown:
    the difference lies in 0 to the scale, the quotient in 0 to 1, the
    product in 0 to 255, and no clamping at 0 happens. *)
Lemma clearance_colour_shown (colour_scale range_value : Q) :
  Float32.is_float colour_scale →
  clearance_shown colour_scale range_value = true →
  ∃ difference quotient product,
    Float32.sub colour_scale range_value = Some difference ∧
    Float32.div difference colour_scale = Some quotient ∧
    Float32.mul 255 (Qmax 0 quotient) = Some product ∧
    (0 <= difference)%Q ∧ (difference <= colour_scale)%Q ∧
    (0 <= quotient)%Q ∧ (quotient <= 1)%Q ∧
    (0 <= product)%Q ∧ (product <= 255)%Q ∧
    clearance_colour colour_scale range_value = Some (Qfloor product) ∧
    0 ≤ Qfloor product ≤ 255.
Proof.
  intros Hfloat Hshown. destruct (clearance_shown_bounds _ _ Hshown) as [Hr0 Hrs].
  assert (0 < colour_scale)%Q as Hs by lra.
  destruct (narrow_below (colour_scale - range_value) colour_scale (Qred colour_scale))
    as (d & Hd & Hd0 & Hd1); [lra | lra | exact Hfloat |].
  rewrite Qred_correct in Hd1.
  assert (Float32.div d colour_scale = Float32.narrow (d / colour_scale)) as Hdiv.
  { unfold Float32.div. destruct (Qeq_bool colour_scale 0) eqn:Hz; [|done].
    apply Qeq_bool_iff in Hz. lra. }
  destruct (narrow_below (d / colour_scale) 1 1) as (q & Hq & Hq0 & Hq1);
    [by apply Qle_shift_div_l; [|lra]
    | by apply Qle_shift_div_r; [|lra]
    | exact narrow_1 |].
  assert (Qmax 0 q == q)%Q as Hmax by (by apply Q.max_r).
  destruct (narrow_below (255 * Qmax 0 q) 255 255) as (p & Hp & Hp0 & Hp1);
    [rewrite Hmax; lra | rewrite Hmax; lra | exact narrow_255 |].
  assert (0 ≤ Qfloor p ≤ 255) as Hc.
  { pose proof (Qfloor_resp_le _ _ Hp0) as Hlo.
    pose proof (Qfloor_resp_le _ _ Hp1) as Hhi. done. }
  exists d, q, p. rewrite Hdiv. split_and!; try done; try lia.
  unfold clearance_colour. unfold Float32.sub at 1. rewrite Hd, Hdiv, Hq.
  unfold Float32.mul. rewrite Hp. unfold truncate.
  assert (Qle_bool 0 p = true) as -> by (by apply Qle_bool_iff).
  destruct (Z.leb_spec 0 (Qfloor p)); [|lia].
  destruct (Z.ltb_spec (Qfloor p) 256); [done | lia].
Qed.

(** X26. For a clearance that passes the test in front of it (at least 0,
    below the colour scale, a [float]) the computation in [float]s and the
    conversion to [uint8_t] are defined: the red channel lies in 0 to 255.
    It is 255 at clearance 0 and does not grow with the clearance. *)
Theorem clearance_colour_range (colour_scale range_value : Q) :
  Float32.is_float colour_scale →
  clearance_shown colour_scale range_value = true →
  ∃ c, clearance_colour colour_scale range_value = Some c ∧ 0 ≤ c ≤ 255 ∧
       ((range_value == 0)%Q → c = 255) ∧
       (∀ range_value' c',
          clearance_shown colour_scale range_value' = true →
          (range_value <= range_value')%Q →
          clearance_colour colour_scale range_value' = Some c' →
          c' ≤ c).
Proof.
  intros Hfloat Hshown. destruct (clearance_shown_bounds _ _ Hshown) as [Hr0 Hrs].
  assert (0 < colour_scale)%Q as Hs by lra.
  destruct (clearance_colour_shown _ _ Hfloat Hshown)
    as (d & q & p & Hd & Hq & Hp & Hd0 & Hd1 & Hq0 & Hq1 & Hp0 & Hp1 & Hrun & Hc).
  assert (Float32.narrow (d / colour_scale) = Some q) as Hq'.
  { unfold Float32.div in Hq. destruct (Qeq_bool colour_scale 0); [done | exact Hq]. }
  exists (Qfloor p). split_and!; [done | lia | lia | |].
  - intros Hz.
    assert (colour_scale <= d)%Q as Hd2.
    { rewrite <- (Qred_correct colour_scale).
      apply (narrow_mono colour_scale (colour_scale - range_value)); [lra | lra | done | done]. }
    assert (1 <= q)%Q as Hq2.
    { apply (narrow_mono 1 (d / colour_scale)); [lra | | exact narrow_1 | exact Hq'].
      by apply Qle_shift_div_l; [|lra]. }
    assert (Qmax 0 q == q)%Q as Hmax by (by apply Q.max_r).
    assert (255 <= p)%Q as Hp2.
    { apply (narrow_mono 255 (255 * Qmax 0 q)); [lra | | exact narrow_255 | exact Hp].
      rewrite Hmax. lra. }
    assert (p == 255)%Q as H255 by lra.
    rewrite (Qfloor_comp _ _ H255). reflexivity.
  - intros r' c' Hshown' Hle Hrun'.
    destruct (clearance_shown_bounds _ _ Hshown') as [Hr0' Hrs'].
    destruct (clearance_colour_shown _ _ Hfloat Hshown')
      as (d' & q' & p' & Hd' & Hqd' & Hp' & Hd0' & _ & Hq0' & _ & Hp0' & _ & Hrun'' & _).
    rewrite Hrun' in Hrun''. apply (inj Some) in Hrun''. rewrite Hrun''.
    assert (Float32.narrow (d' / colour_scale) = Some q') as Hq''.
    { unfold Float32.div in Hqd'. destruct (Qeq_bool colour_scale 0); [done | exact Hqd']. }
    apply Qfloor_resp_le.
    assert (d' <= d)%Q as Hdd.
    { apply (narrow_mono (colour_scale - r') (colour_scale - range_value));
        [lra | lra | exact Hd' | exact Hd]. }
    assert (q' <= q)%Q as Hqq.
    { apply (narrow_mono (d' / colour_scale) (d / colour_scale));
        [by apply Qle_shift_div_l; [|lra] | | exact Hq'' | exact Hq'].
      unfold Qdiv. apply Qmult_le_compat_r; [done|].
      apply Qlt_le_weak, Qinv_lt_0_compat. done. }
    apply (narrow_mono (255 * Qmax 0 q') (255 * Qmax 0 q)); [| | exact Hp' | exact Hp].
    + rewrite (Q.max_r 0 q') by done. lra.
    + rewrite (Q.max_r 0 q'), (Q.max_r 0 q) by done. lra.
Qed.

End Ohm2PlyExtra.

Lemma onSignals_thresholds_witness :
  Ohm2Ply.onSignals 0 [2; 1; 15; 2] = Some 3 ∧
  Ohm2Ply.LoadMapProgress_quit 3 = true.
Proof.
  destruct (onSignals_thresholds [2; 1; 15; 2]) as (Hrun & _ & Hquit); [reflexivity|].
  split; [exact Hrun|]. apply Hquit. simpl. lia.
Defined.

Lemma get_mode_put_mode_witness :
  Ohm2Ply.get_mode (Ohm2Ply.istringstream " clearance --cull 3") Ohm2Ply.kExportOccupancy
  = (Ohm2Ply.kExportClearance,
     {| Ohm2Ply.unread := " --cull 3"; Ohm2Ply.failbit := false;
        Ohm2Ply.eofbit := false |}).
Proof.
  apply (get_mode_put_mode Ohm2Ply.kExportClearance Ohm2Ply.kExportOccupancy
           " " " --cull 3").
  - intros c Hc. simpl in Hc. apply elem_of_cons in Hc as [->|Hc]; [reflexivity|].
    by apply elem_of_nil in Hc.
  - right. exists " "%char, "--cull 3"%string. split; reflexivity.
Defined.

Lemma get_mode_unknown_witness :
  Ohm2Ply.get_mode (Ohm2Ply.istringstream "clearence") Ohm2Ply.kExportOccupancy
  = (Ohm2Ply.kExportOccupancy,
     {| Ohm2Ply.unread := EmptyString; Ohm2Ply.failbit := false;
        Ohm2Ply.eofbit := true |}).
Proof.
  destruct (get_mode_unknown Ohm2Ply.kExportOccupancy) as (Hword & _ & _).
  apply (Hword EmptyString "clearence"%string EmptyString).
  - intros c Hc. by apply elem_of_nil in Hc.
  - discriminate.
  - intros c Hc. simpl in Hc.
    repeat (apply elem_of_cons in Hc as [->|Hc]; [reflexivity|]).
    by apply elem_of_nil in Hc.
  - by left.
  - discriminate.
  - discriminate.
Defined.

Lemma clearance_colour_range_witness :
  ∃ c, Ohm2Ply.clearance_colour 3 (3 # 2) = Some c ∧ 0 ≤ c ≤ 255.
Proof.
  destruct (clearance_colour_range 3 (3 # 2)) as (c & Hrun & Hc & _);
    [reflexivity | reflexivity |].
  exists c. split; [exact Hrun | exact Hc].
Defined.

(** The red channel in [float]s: half the scale gives 127, and a clearance
    of 2^-30, lost in the subtraction from 3, gives the same 255 as
    clearance 0. *)
Example clearance_colour_values :
  Ohm2Ply.clearance_colour 3 (3 # 2) = Some 127 ∧
  Ohm2Ply.clearance_colour 3 0 = Some 255 ∧
  Ohm2Ply.clearance_colour 3 (1 # 2 ^ 30) = Some 255 ∧
  Ohm2Ply.clearance_colour 3 (3 # 4) = Some 191.
Proof. split_and!; reflexivity. Qed.

(** ** ClearingPattern: the cached ray set *)

(** X28. The ray set a clearing pattern keeps from its last use has no
    part in the next: given that [buildRays] clears the vector it fills,
    applying the pattern after [buildRaySet] at any other pose gives the
    same pattern state and the same map as applying it right away, and the
    rays [buildRaySet] reports for a pose are the ones [apply] integrates at
    that pose, all of them. *)
Theorem apply_after_buildRaySet {Map : Type}
    (buildRays : RayPattern.RayPatternDetail → list dvec3 → dvec3 → dquat → Q
                 → list dvec3 * nat)
    (integrateRays : Map → list dvec3 → nat → N → Map)
    (imp : ClearingPattern.ClearingPatternDetail) (map : Map)
    (position position0 : dvec3) (rotation rotation0 : dquat) (scaling scaling0 : Q) :
  (∀ pattern rays rays' p r s,
     buildRays pattern rays p r s = buildRays pattern rays' p r s) →
  let built := ClearingPattern.buildRaySet buildRays imp position rotation scaling in
  let applied :=
    ClearingPattern.apply buildRays integrateRays imp map position rotation scaling in
  ClearingPattern.apply buildRays integrateRays
    (ClearingPattern.buildRaySet buildRays imp position0 rotation0 scaling0).1
    map position rotation scaling
  = applied ∧
  built.1 = applied.1 ∧
  built.2.2 = length built.2.1 ∧
  applied.2 = integrateRays map built.2.1 built.2.2 clearing_flags.
Proof.
  intros Hclears. cbv zeta.
  unfold ClearingPattern.apply, ClearingPattern.buildRaySet.
  cbn [ClearingPattern.pattern ClearingPattern.has_pattern_ownership
       ClearingPattern.ray_set fst snd].
  rewrite (Hclears _ _ (ClearingPattern.ray_set imp)).
  split_and!; reflexivity.
Qed.

Lemma apply_after_buildRaySet_witness :
  ClearingPattern.apply RayPattern.buildRays OccupancyMap_integrateRays
    (ClearingPattern.buildRaySet RayPattern.buildRays
       (ClearingPattern.create star_pattern false) (pt 1 2 3) quat_identity 2).1
    two_obstacles (pt 0 0 0) quat_identity 1
  = ClearingPattern.apply RayPattern.buildRays OccupancyMap_integrateRays
      (ClearingPattern.create star_pattern false) two_obstacles (pt 0 0 0)
      quat_identity 1.
Proof.
  apply (apply_after_buildRaySet RayPattern.buildRays OccupancyMap_integrateRays
           (ClearingPattern.create star_pattern false) two_obstacles
           (pt 0 0 0) (pt 1 2 3) quat_identity quat_identity 1 2).
  intros pattern rays rays' p r s. reflexivity.
Defined.
